(** * IRescue: per-cell UMI deduplication and count assignment

    A shallow embedding of [irescue/count.py]: the connectivity test between
    equivalence classes, the cell-wide directed graph, the path walk, the
    enumeration and selection of path configurations, the assignment of counts,
    the writing of matrix shards and the assembly of the final matrix.

    Python values are modelled as follows.
    - [int] is [Z]; indexes, lengths and feature identifiers are [nat].
    - [str]/[bytes] are [string].
    - a [set] of feature identifiers is a [gset nat]; [list(s)] is [elements s]
      (in both worlds the order of iteration of a set is left to the
      implementation).
    - a [float] stands for its exact rational value, in [Q].
    - a [dict] whose order of insertion is observed (the node and adjacency
      dictionaries of networkx, [Counter], [paths]) is an association list;
      the attribute dictionary of a node is a [gmap string pyval].
    - exceptions are the constructor [Raise] of the result type [res]. *)

From Stdlib Require Import ZArith QArith Qround Lqa String Ascii Sorting.
From stdpp Require Import base option gmap sets list strings numbers.
Close Scope Q_scope.
Open Scope nat_scope.

(** ** Results and exceptions *)

Inductive exn : Type :=
  | KeyError (key : string)
  | NodeKeyError (n : nat)
  | NetworkXError (n : nat)
  | AttributeError
  | IndexError
  | ValueError
  | TypeError
  | SystemExit.

Inductive res (A : Type) : Type :=
  | Ok (a : A)
  | Raise (e : exn)
  | OutOfFuel.
Arguments Ok {A} a.
Arguments Raise {A} e.
Arguments OutOfFuel {A}.

Definition res_bind {A B} (m : res A) (f : A → res B) : res B :=
  match m with
  | Ok a => f a
  | Raise e => Raise e
  | OutOfFuel => OutOfFuel
  end.

#[global] Instance res_mbind : MBind res := λ A B f m, res_bind m f.
#[global] Instance res_mret : MRet res := λ A a, Ok a.

(** [for x in l: acc = f(acc, x)] where the body may raise. *)
Fixpoint res_foldl {A B} (f : A → B → res A) (acc : A) (l : list B) : res A :=
  match l with
  | [] => Ok acc
  | x :: l' => acc' ← f acc x; res_foldl f acc' l'
  end.

(** [[f(x) for x in l]] where [f] may raise. *)
Fixpoint res_map {A B} (f : A → res B) (l : list A) : res (list B) :=
  match l with
  | [] => Ok []
  | x :: l' => y ← f x; ys ← res_map f l'; Ok (y :: ys)
  end.

(** ** Equivalence classes and [connect_umis] *)

(** An equivalence class is the tuple [(UMI, TE, count) : (str, set, int)]. *)
Definition eqclass : Type := string * gset nat * Z.

Definition ec_umi (x : eqclass) : string := x.1.1.
Definition ec_ft (x : eqclass) : gset nat := x.1.2.
Definition ec_count (x : eqclass) : Z := x.2.

(** [sum(1 for i, j in zip(a, b) if i != j)] *)
Definition mismatches (a b : string) : nat :=
  length (filter (λ ij : ascii * ascii, ij.1 ≠ ij.2)
                 (zip (list_ascii_of_string a) (list_ascii_of_string b))).

Definition connect_umis (x y : eqclass) (threshold : Z) : bool :=
  (2 * ec_count y - 1 <=? ec_count x)%Z
  && bool_decide (ec_ft x ∩ ec_ft y ≠ ∅)
  && (Z.of_nat (mismatches (ec_umi x) (ec_umi y)) <=? threshold)%Z.

(** The Hamming distance in the words of the specification: the number of
    positions at which both sequences are defined and differ. *)
Definition hamming_defined (a b : string) : nat :=
  let la := list_ascii_of_string a in
  let lb := list_ascii_of_string b in
  length (filter (λ p, la !! p ≠ lb !! p)
                 (seq 0 (Nat.min (length la) (length lb)))).

(** ** The directed graph (networkx [DiGraph]) *)

Inductive pyval : Type :=
  | PySet (s : gset nat)
  | PyInt (z : Z).

(** One entry per node, in order of insertion: the attribute dictionary of
    the node and the keys of its successor dictionary, in order of insertion. *)
Record node_entry : Type := NodeEntry {
  n_attr : gmap string pyval;
  n_succ : list nat
}.

Abbreviation DiGraph := (list (nat * node_entry)).

Fixpoint g_lookup (graph : DiGraph) (n : nat) : option node_entry :=
  match graph with
  | [] => None
  | (k, e) :: graph' => if decide (k = n) then Some e else g_lookup graph' n
  end.

(** [list(graph.nodes)], also the order of [for x in graph]. *)
Definition nodes (graph : DiGraph) : list nat := fst <$> graph.

(** [graph.add_node(n, **attr)]: a new node goes last; on a node that exists
    the attribute dictionary is updated with [attr]. *)
Fixpoint add_node (graph : DiGraph) (n : nat) (attr : gmap string pyval) : DiGraph :=
  match graph with
  | [] => [(n, NodeEntry attr [])]
  | (k, e) :: graph' =>
      if decide (k = n) then (k, NodeEntry (attr ∪ n_attr e) (n_succ e)) :: graph'
      else (k, e) :: add_node graph' n attr
  end.

Definition add_nodes_from (graph : DiGraph) (l : list (nat * gmap string pyval)) : DiGraph :=
  foldl (λ g na, add_node g na.1 na.2) graph l.

(** [graph.add_edge(u, v)]: endpoints that are not nodes yet are added with
    an empty attribute dictionary; [v] goes last among the successors of [u]
    unless it is one already. *)
Definition add_succ (v : nat) (e : node_entry) : node_entry :=
  if bool_decide (v ∈ n_succ e) then e else NodeEntry (n_attr e) (n_succ e ++ [v]).

Definition add_edge (graph : DiGraph) (u v : nat) : DiGraph :=
  let g1 := add_node graph u ∅ in
  let g2 := add_node g1 v ∅ in
  (λ ke : nat * node_entry, if decide (ke.1 = u) then (ke.1, add_succ v ke.2) else ke) <$> g2.

(** [graph.successors(n)] *)
Definition successors (graph : DiGraph) (n : nat) : res (list nat) :=
  match g_lookup graph n with
  | Some e => Ok (n_succ e)
  | None => Raise (NetworkXError n)
  end.

Definition has_edge (graph : DiGraph) (u v : nat) : Prop :=
  ∃ e, g_lookup graph u = Some e ∧ v ∈ n_succ e.

(** [graph.predecessors(n)] *)
Definition predecessors (graph : DiGraph) (n : nat) : res (list nat) :=
  match g_lookup graph n with
  | Some _ => Ok ((filter (λ ke : nat * node_entry, n ∈ n_succ ke.2) graph).*1)
  | None => Raise (NetworkXError n)
  end.

(** [graph.nodes[n][key]] *)
Definition node_attr (graph : DiGraph) (n : nat) (key : string) : res pyval :=
  match g_lookup graph n with
  | None => Raise (NodeKeyError n)
  | Some e =>
      match n_attr e !! key with
      | Some v => Ok v
      | None => Raise (KeyError key)
      end
  end.

(** A value used as a set of features: the methods [intersection] and
    [union] exist on sets only. *)
Definition as_set (v : pyval) : res (gset nat) :=
  match v with
  | PySet s => Ok s
  | PyInt _ => Raise AttributeError
  end.

Definition node_ft (graph : DiGraph) (n : nat) : res (gset nat) :=
  v ← node_attr graph n "ft"; as_set v.

(** [enumerate(l)] *)
Definition enumerate {A} (l : list A) : list (nat * A) := imap pair l.

(** [itertools.permutations(pool, 2)]: the ordered pairs of elements at
    different positions, in lexicographic order of the positions. *)
Definition permutations2 {A} (pool : list A) : list (A * A) :=
  ip ← enumerate pool;
  jq ← enumerate pool;
  if decide (ip.1 = jq.1) then [] else [(ip.2, jq.2)].

(** The first lines of [compute_cell_counts]: the nodes, then the edges. *)
Definition node_attrs (j : eqclass) : gmap string pyval :=
  <["ft" := PySet (ec_ft j)]> (<["c" := PyInt (ec_count j)]> ∅).

Definition graph_nodes (equivalence_classes : list eqclass) : DiGraph :=
  add_nodes_from [] ((λ ij : nat * eqclass, (ij.1, node_attrs ij.2))
                       <$> enumerate equivalence_classes).

Definition graph_edges (threshold : Z) (pairs : list ((nat * eqclass) * (nat * eqclass)))
    (graph : DiGraph) : DiGraph :=
  foldl (λ g xy, if connect_umis xy.1.2 xy.2.2 threshold
                 then add_edge g xy.1.1 xy.2.1 else g) graph pairs.

Definition build_graph_with (threshold : Z) (equivalence_classes : list eqclass) : DiGraph :=
  graph_edges threshold (permutations2 (enumerate equivalence_classes))
              (graph_nodes equivalence_classes).

(** [connect_umis] is called with its default threshold. *)
Definition build_graph (equivalence_classes : list eqclass) : DiGraph :=
  build_graph_with 1 equivalence_classes.

(** ** [pathfinder] *)

(** The loop [for next_node in graph.successors(node)] of [pathfinder]; the
    list [path] is one object, extended in place by the recursive calls, so
    the test [next_node not in path] sees every node added so far. *)
Definition successors_loop (rec : nat → list nat → res (list nat))
    (graph : DiGraph) (features : gset nat) : list nat → list nat → res (list nat) :=
  fix loop (succs : list nat) (path : list nat) : res (list nat) :=
    match succs with
    | [] => Ok path
    | next_node :: succs' =>
        ftn ← node_ft graph next_node;
        if bool_decide (features ∩ ftn ≠ ∅) && bool_decide (next_node ∉ path)
        then path' ← rec next_node path; loop succs' path'
        else loop succs' path
    end.

(** [not features]: the argument is [None] or an empty set. *)
Definition not_features (features : option (gset nat)) : bool :=
  match features with
  | None => true
  | Some s => bool_decide (s = ∅)
  end.

Fixpoint pathfinder (fuel : nat) (graph : DiGraph) (node : nat) (path : list nat)
    (features : option (gset nat)) : res (list nat) :=
  match fuel with
  | 0 => OutOfFuel
  | S fuel' =>
      features ← (if not_features features then node_ft graph node
                  else Ok (default ∅ features));
      let path := path ++ [node] in
      succs ← successors graph node;
      successors_loop
        (λ next_node path, pathfinder fuel' graph next_node path (Some features))
        graph features succs path
  end.

(** The walk in the words of the specification: the anchor is fixed when the
    walk starts and every continuation test is made against it. *)
Definition anchor_loop (rec : nat → list nat → res (list nat))
    (graph : DiGraph) (anchor : gset nat) : list nat → list nat → res (list nat) :=
  fix loop (succs : list nat) (path : list nat) : res (list nat) :=
    match succs with
    | [] => Ok path
    | next_node :: succs' =>
        ftn ← node_ft graph next_node;
        if bool_decide ((next_node ∉ path) ∧ (ftn ∩ anchor ≠ ∅))
        then path' ← rec next_node path; loop succs' path'
        else loop succs' path
    end.

Fixpoint anchored_walk (fuel : nat) (graph : DiGraph) (anchor : gset nat)
    (node : nat) (path : list nat) : res (list nat) :=
  match fuel with
  | 0 => OutOfFuel
  | S fuel' =>
      succs ← successors graph node;
      anchor_loop (anchored_walk fuel' graph anchor) graph anchor succs (path ++ [node])
  end.

(** The anchor of a walk: the feature set handed in when there is one, the
    feature set of the starting node otherwise. *)
Definition walk_anchor (graph : DiGraph) (node : nat) (features : option (gset nat))
    : res (gset nat) :=
  if not_features features then node_ft graph node else Ok (default ∅ features).

(** ** Subgraphs and connected components *)

(** [graph.subgraph(c)], then read as networkx reads a filtered view: a
    filtered dictionary is iterated in the order of the node set when the set
    is less than half as long as the dictionary, and in the order of the
    dictionary otherwise. *)
Definition filter_atlas (atlas : list nat) (c : gset nat) : list nat :=
  if bool_decide (2 * size c < length atlas)
  then filter (λ n, n ∈ atlas) (elements c)
  else filter (λ n, n ∈ c) atlas.

Definition subgraph (graph : DiGraph) (c : gset nat) : DiGraph :=
  omap (λ n, e ← g_lookup graph n;
             Some (n, NodeEntry (n_attr e) (filter_atlas (n_succ e) c)))
       (filter_atlas (nodes graph) c).

(** [graph.copy()]: the nodes, then the edges, in the order of the view. *)
Definition copy (graph : DiGraph) : DiGraph := graph.

(** [graph.remove_node(n)] *)
Definition remove_node (graph : DiGraph) (n : nat) : res DiGraph :=
  match g_lookup graph n with
  | None => Raise (NetworkXError n)
  | Some _ =>
      Ok ((λ ke : nat * node_entry,
             (ke.1, NodeEntry (n_attr ke.2) (filter (λ v, v ≠ n) (n_succ ke.2))))
            <$> filter (λ ke : nat * node_entry, ke.1 ≠ n) graph)
  end.

(** The neighbours of [v] in [graph.to_undirected()]. *)
Definition neighbors (graph : DiGraph) (v : nat) : gset nat :=
  list_to_set (default [] (n_succ <$> g_lookup graph v))
  ∪ list_to_set ((filter (λ ke : nat * node_entry, v ∈ n_succ ke.2) graph).*1).

Definition expand (graph : DiGraph) (s : gset nat) : gset nat :=
  s ∪ ⋃ (neighbors graph <$> elements s).

(** The set of nodes that a breadth-first search from [v] reaches. *)
Definition component (graph : DiGraph) (v : nat) : gset nat :=
  Nat.iter (length graph) (expand graph) {[v]}.

Fixpoint components_from (graph : DiGraph) (vs : list nat) (seen : gset nat)
    : list (gset nat) :=
  match vs with
  | [] => []
  | v :: vs' =>
      if bool_decide (v ∈ seen) then components_from graph vs' seen
      else let c := component graph v in
           c :: components_from graph vs' (seen ∪ c)
  end.

(** [nx.connected_components(graph.to_undirected())] *)
Definition connected_components (graph : DiGraph) : list (gset nat) :=
  components_from graph (nodes graph) ∅.

Definition subgraphs (graph : DiGraph) : list DiGraph :=
  subgraph graph <$> connected_components graph.

(** ** Path configurations *)

(** The state of the loop [for node in nodes] that enumerates the paths of
    one parent. *)
Record walk_state : Type := WalkState {
  blacklist : list nat;
  subg_copy : DiGraph;
  found : list (list nat);
  last_path : list nat
}.

(** [for x in path: blacklist.append(x); subg_copy.remove_node(x)] *)
Definition remove_path (graph : DiGraph) (path : list nat) : res DiGraph :=
  res_foldl remove_node graph path.

Definition walk_step (st : walk_state) (node : nat) : res walk_state :=
  if bool_decide (node ∈ blacklist st) then Ok st
  else
    path ← pathfinder (S (length (subg_copy st))) (subg_copy st) node [] None;
    g ← remove_path (subg_copy st) path;
    Ok (WalkState (blacklist st ++ path) g (found st ++ [path]) path).

(** The body of [for parent in parents]: the value of [paths[parent]] and of
    the variable [path] when the body ends. *)
Definition parent_paths (subg : DiGraph) (parent : nat) : res (list (list nat) * list nat) :=
  let subg_copy := copy subg in
  let nodes_ := parent :: filter (λ x, x ≠ parent) (nodes subg_copy) in
  st ← res_foldl walk_step (WalkState [] subg_copy [] []) nodes_;
  Ok (found st, last_path st).

(** The loop [for parent in parents]: the dictionary [paths] in order of
    insertion (the parents are keys of the node dictionary, hence distinct)
    and the value of the variable [path] when the loop ends. *)
Definition all_paths (subg : DiGraph) (parents : list nat)
    : res (list (nat * list (list nat)) * list nat) :=
  res_foldl (λ acc parent, r ← parent_paths subg parent;
                           Ok (acc.1 ++ [(parent, r.1)], r.2))
            ([], []) parents.

(** [min(l)] *)
Definition py_min (l : list nat) : res nat :=
  match l with
  | [] => Raise ValueError
  | x :: l' => Ok (foldl Nat.min x l')
  end.

(** [[paths[k] for k, v in paths.items()
      if len(v) == min([len(x) for x in paths.values()])][0]] *)
Definition select_config (paths : list (nat * list (list nat))) : res (list (list nat)) :=
  kept ← res_foldl
    (λ acc (kv : nat * list (list nat)),
       m ← py_min (length <$> paths.*2);
       Ok (if decide (length kv.2 = m) then acc ++ [kv.2] else acc))
    [] paths;
  match kept with
  | [] => Raise IndexError
  | config :: _ => Ok config
  end.

(** [[x for x in subg if not list(subg.predecessors(x))]] *)
Definition find_parents (subg : DiGraph) : res (list nat) :=
  res_foldl (λ acc x, ps ← predecessors subg x;
                      Ok (if decide (ps = []) then acc ++ [x] else acc))
            [] (nodes subg).

(** [set.union] applied to the sets of [l], unpacked as its arguments. *)
Definition set_union (l : list (gset nat)) : res (gset nat) :=
  match l with
  | [] => Raise TypeError
  | s :: l' => Ok (s ∪ ⋃ l')
  end.

(** The choice of [parents] and of the first value of [features]. *)
Definition parents_and_features (subg : DiGraph)
    : res (list nat * option (list (list nat))) :=
  parents ← find_parents subg;
  match parents with
  | [] =>
      fts ← res_map (node_ft subg) (nodes subg);
      u ← set_union fts;
      Ok (nodes subg, Some [elements u])
  | _ :: _ => Ok (parents, None)
  end.

(** The last value of [features]: one list of features per path of the
    selected configuration. *)
Definition path_features (subg : DiGraph) (features : option (list (list nat)))
    (path_config : list (list nat)) : res (list (list nat)) :=
  match features with
  | Some (f :: fs) => Ok (mjoin (replicate (length path_config) (f :: fs)))
  | _ =>
      res_map (λ x : list nat,
                 match x with
                 | [] => Raise IndexError
                 | x0 :: _ => s ← node_ft subg x0; Ok (elements s)
                 end) path_config
  end.

(** The selected configuration of a subgraph, as [compute_cell_counts]
    computes it, with the features of its paths and the last path found. *)
Record resolved : Type := Resolved {
  r_parents : list nat;
  r_paths : list (nat * list (list nat));
  r_path_config : list (list nat);
  r_features : list (list nat);
  r_path : list nat
}.

Definition resolve (subg : DiGraph) : res resolved :=
  pf ← parents_and_features subg;
  pp ← all_paths subg pf.1;
  path_config ← select_config pp.1;
  features ← path_features subg pf.2 path_config;
  Ok (Resolved pf.1 pp.1 path_config features pp.2).

(** ** Count assignment *)

(** What [writerr] is given. *)
Inductive msg : Type :=
  | MsgAdjacency (d : list (nat * list nat))
  | MsgValues (l : list pyval)
  | MsgPaths (l : list (list nat))
  | MsgPath (l : list nat)
  | MsgFeatures (l : list (list nat))
  | MsgFeats (l : list nat)
  | MsgError (s : string).

(** A computation that logs and may raise. *)
Definition M (A : Type) : Type := list msg * res A.

Definition m_ret {A} (a : A) : M A := ([], Ok a).

Definition m_bind {A B} (m : M A) (f : A → M B) : M B :=
  match m.2 with
  | Ok a => (m.1 ++ (f a).1, (f a).2)
  | Raise e => (m.1, Raise e)
  | OutOfFuel => (m.1, OutOfFuel)
  end.

Definition lift {A} (r : res A) : M A := ([], r).

Notation "'let!' x ':=' m 'in' k" := (m_bind m (λ x, k))
  (at level 10, x pattern, m at level 100, k at level 200).

Fixpoint m_foldl {A B} (f : A → B → M A) (acc : A) (l : list B) : M A :=
  match l with
  | [] => m_ret acc
  | x :: l' => let! acc' := f acc x in m_foldl f acc' l'
  end.

(** Modelled from the spec: [writerr] of [irescue.misc], which is not part
    of the sources at hand. It reports the message; with [error=True] the
    report is fatal and the processing is aborted. *)
Definition writerr (m : msg) : M unit := ([m], Ok ()).

Definition writerr_error (s : string) : M unit := ([MsgError s], Raise SystemExit).

(** [counts[k] += v] on a [Counter]: a missing key counts as [0] and is
    inserted last. *)
Fixpoint counter_add (counts : list (nat * Q)) (k : nat) (v : Q) : list (nat * Q) :=
  match counts with
  | [] => [(k, (0 + v)%Q)]
  | (k', v') :: counts' =>
      if decide (k' = k) then (k', (v' + v)%Q) :: counts'
      else (k', v') :: counter_add counts' k v
  end.

(** [nx.to_dict_of_lists(subg)] *)
Definition to_dict_of_lists (graph : DiGraph) : list (nat * list nat) :=
  (λ ke : nat * node_entry, (ke.1, n_succ ke.2)) <$> graph.

(** [[1 if x in feats else 0 for x in range(1, number_of_features+1)]] *)
Definition em_row (number_of_features : nat) (feats : list nat) : list nat :=
  (λ x, if bool_decide (x ∈ feats) then 1 else 0) <$> seq 1 number_of_features.

(** The branch [else] of the assignment: the reports, then the fatal one. *)
Definition report_no_features (subg : DiGraph) (r : resolved) (feats : list nat) : M unit :=
  let! _ := writerr (MsgAdjacency (to_dict_of_lists subg)) in
  let! fts := lift (res_map (λ x, node_attr subg x "ft") (nodes subg)) in
  let! _ := writerr (MsgValues fts) in
  let! cs := lift (res_map (λ x, node_attr subg x "count") (nodes subg)) in
  let! _ := writerr (MsgValues cs) in
  let! _ := writerr (MsgPaths (r_path_config r)) in
  let! _ := writerr (MsgPath (r_path r)) in
  let! _ := writerr (MsgFeatures (r_features r)) in
  let! _ := writerr (MsgFeats feats) in
  writerr_error "Error: no common features detected in subgraph's path.".

(** The body of [for feats in features]. *)
Definition assign (number_of_features : nat) (subg : DiGraph) (r : resolved)
    (acc : list (nat * Q) * list (list nat)) (feats : list nat)
    : M (list (nat * Q) * list (list nat)) :=
  match feats with
  | [f] => m_ret (counter_add acc.1 f 1%Q, acc.2)
  | _ :: _ :: _ => m_ret (acc.1, acc.2 ++ [em_row number_of_features feats])
  | [] => let! _ := report_no_features subg r feats in m_ret acc
  end.

(** The audit dump: the tuple of an equivalence class, then what [+=]
    appended to it, pair after pair. *)
Definition dump_row : Type := eqclass * list (string * list nat).

Fixpoint dump_get (dump : list (nat * dump_row)) (k : nat) : res dump_row :=
  match dump with
  | [] => Raise (NodeKeyError k)
  | (k', row) :: dump' => if decide (k' = k) then Ok row else dump_get dump' k
  end.

Fixpoint dump_extend (dump : list (nat * dump_row)) (k : nat) (ext : string * list nat)
    : res (list (nat * dump_row)) :=
  match dump with
  | [] => Raise (NodeKeyError k)
  | (k', row) :: dump' =>
      if decide (k' = k) then Ok ((k', (row.1, row.2 ++ [ext])) :: dump')
      else rest ← dump_extend dump' k ext; Ok ((k', row) :: rest)
  end.

(** [for i, path_ in enumerate(path_config)] under [if dumpEC]. *)
Definition dump_paths (features : list (list nat)) (path_config : list (list nat))
    (dump : list (nat * dump_row)) : res (list (nat * dump_row)) :=
  res_foldl
    (λ dump (ip : nat * list nat),
       match ip.2 with
       | [] => Raise IndexError
       | parent_ :: path_ =>
           dump ← dump_extend dump parent_ (EmptyString, []);
           res_foldl
             (λ dump x,
                prow ← dump_get dump parent_;
                fi ← (match features !! ip.1 with
                      | Some fi => Ok fi
                      | None => Raise IndexError
                      end);
                dump_extend dump x (ec_umi prow.1, fi))
             dump path_
       end)
    dump (enumerate path_config).

Record cell_state : Type := CellState {
  counts : list (nat * Q);
  em_array : list (list nat);
  dump : option (list (nat * dump_row))
}.

(** The body of [for subg in subgraphs]. *)
Definition process_subgraph (number_of_features : nat) (st : cell_state) (subg : DiGraph)
    : M cell_state :=
  let! r := lift (resolve subg) in
  let! acc := m_foldl (assign number_of_features subg r)
                      (counts st, em_array st) (r_features r) in
  let! dump := lift (match dump st with
                     | None => Ok None
                     | Some d => d' ← dump_paths (r_features r) (r_path_config r) d;
                                 Ok (Some d')
                     end) in
  m_ret (CellState acc.1 acc.2 dump).

(** ** [compute_cell_counts] *)

Record cell_result : Type := CellResult {
  cell_counts : list (nat * Q);
  cell_dump : option (list (nat * dump_row));
  (** what [run_em] was called with, when it was called *)
  em_call : option (list (list nat))
}.

Section CellCounts.

(** [run_em] of [irescue.em] is not part of the sources at hand: the EM
    solver is a parameter, from the matrix and the number of cycles to one
    weight per column. *)
Variable run_em : list (list nat) → nat → list Q.

(** Column [x] of the matrix. *)
Definition column (em_array : list (list nat)) (x : nat) : list nat :=
  (λ row : list nat, default 0 (row !! x)) <$> em_array.

(** The block under [if em_array]: the columns with an entry above zero are
    kept, [run_em] is called on the reduced matrix, its weights are scaled by
    the number of rows and the positive ones are added to the counts. The
    second component is what [run_em] was called with, if it was called. *)
Definition em_stage (number_of_features : nat) (counts : list (nat * Q))
    (em_array : list (list nat)) : list (nat * Q) * option (list (list nat)) :=
  match em_array with
  | [] => (counts, None)
  | _ :: _ =>
      let kept := filter (λ x, Exists (λ v, 0 < v) (column em_array x))
                         (seq 0 number_of_features) in
      let tokeep := S <$> kept in
      let em_array' := (λ row : list nat, (λ x, default 0 (row !! x)) <$> kept)
                         <$> em_array in
      let em_counts := (λ x, (x * inject_Z (Z.of_nat (length em_array')))%Q)
                         <$> run_em em_array' 100 in
      (foldl (λ counts (ic : nat * Q),
                if Qle_bool ic.2 0 then counts else counter_add counts ic.1 ic.2)
             counts (zip tokeep em_counts),
       Some em_array')
  end.

(** [{i: equivalence_classes[i] for i in graph.nodes}] *)
Definition init_dump (equivalence_classes : list eqclass) (graph : DiGraph)
    : res (list (nat * dump_row)) :=
  res_map (λ i, match equivalence_classes !! i with
                | Some ec => Ok (i, (ec, []))
                | None => Raise IndexError
                end) (nodes graph).

Definition compute_cell_counts (equivalence_classes : list eqclass)
    (features_index : list (string * nat)) (dumpEC : bool) : M cell_result :=
  let number_of_features := length features_index in
  let graph := build_graph equivalence_classes in
  let! dump0 := lift (if dumpEC then d ← init_dump equivalence_classes graph; Ok (Some d)
                      else Ok None) in
  let! st := m_foldl (process_subgraph number_of_features)
                     (CellState [] [] dump0) (subgraphs graph) in
  let ce := em_stage number_of_features (counts st) (em_array st) in
  m_ret (CellResult ce.1 (dump st) ce.2).

(** ** [run_count]: the lines of a matrix shard *)

(** [round(count, 3)] on the exact value of the float: to the nearest
    multiple of one thousandth, a tie going to the even one. (Python returns
    the float nearest to that multiple.) *)
Definition round_half_even (q : Q) : Z :=
  let f := Qfloor q in
  let d := (q - inject_Z f)%Q in
  match (d ?= 1 # 2)%Q with
  | Lt => f
  | Gt => (f + 1)%Z
  | Eq => if Z.even f then f else (f + 1)%Z
  end.

Definition py_round3 (count : Q) : Q :=
  (inject_Z (round_half_even (count * 1000)) / 1000)%Q.

(** A line [feature cellidx count] of a shard. *)
Definition shard_line : Type := nat * nat * Q.

(** [[f'{feature} {cellidx} {round(count, 3)}\n'
      for feature, count in cellcounts.items() if count >= 0.001]].
    The literal [0.001] is the float next above one thousandth and no float
    lies in between, so that on floats [count >= 0.001] is the comparison of
    the exact value with [1 # 1000]. The line is kept as its three fields;
    the text that Python prints for the float is not modelled. *)
Definition matrix_lines (cellidx : nat) (cellcounts : list (nat * Q)) : list shard_line :=
  (λ fc : nat * Q, (fc.1, cellidx, py_round3 fc.2))
    <$> filter (λ fc : nat * Q, Qle_bool (1 # 1000) fc.2 = true) cellcounts.

(** [barcodes[cellbarcode]] for [cellbarcode in barcodes]. *)
Fixpoint barcode_index (barcodes : list (string * nat)) (cb : string) : option nat :=
  match barcodes with
  | [] => None
  | (k, v) :: barcodes' => if decide (k = cb) then Some v else barcode_index barcodes' cb
  end.

(** [run_count] on the cells that [parse_maps] yields: the lines written
    to the matrix file of the shard. The dump file is left out. *)
Definition run_count (cells : list (string * list eqclass))
    (features_index : list (string * nat)) (dumpEC : bool)
    (barcodes : list (string * nat)) : M (list shard_line) :=
  m_foldl (λ lines (cell : string * list eqclass),
             match barcode_index barcodes cell.1 with
             | None => m_ret lines
             | Some cellidx =>
                 let! r := compute_cell_counts cell.2 features_index dumpEC in
                 m_ret (lines ++ matrix_lines cellidx (cell_counts r))
             end)
          [] cells.

End CellCounts.

(** ** [formatMM]: the assembled matrix *)

(** A line of a matrix file: the feature, the barcode index and the text of
    the count. *)
Definition mm_line : Type := nat * nat * string.

Definition mm_feature (l : mm_line) : nat := l.1.1.
Definition mm_barcode (l : mm_line) : nat := l.1.2.
Definition mm_count (l : mm_line) : string := l.2.

(** The order of [LC_ALL=C sort -k2,2n -k1,1n]: the second field as a number,
    then the first field as a number, then the bytes of the line. Both fields
    are written by Python from integers, so lines that agree on both differ
    in the text of the count only. *)
Definition sort_leb (a b : mm_line) : bool :=
  if decide (mm_barcode a = mm_barcode b) then
    if decide (mm_feature a = mm_feature b) then String.leb (mm_count a) (mm_count b)
    else bool_decide (mm_feature a < mm_feature b)
  else bool_decide (mm_barcode a < mm_barcode b).

Fixpoint sort_insert (a : mm_line) (l : list mm_line) : list mm_line :=
  match l with
  | [] => [a]
  | b :: l' => if sort_leb a b then a :: b :: l' else b :: sort_insert a l'
  end.

(** [zcat files | LC_ALL=C sort -k2,2n -k1,1n] *)
Definition shell_sort (files : list (list mm_line)) : list mm_line :=
  foldr sort_insert [] (concat files).

(** Modelled from the spec: [getlen] of [irescue.misc], which is not part of
    the sources at hand: the number of lines of a file, so that the sum over
    the shards is the total number of entries. *)
Definition getlen (file : list mm_line) : nat := length file.

Record mm_file : Type := MMFile {
  mmheader : string;
  mmtotal : nat * nat * nat;
  mmbody : list mm_line
}.

(** [formatMM] on a list of shard files (a single file name is first
    wrapped in a list): the header line, the line of the totals, then the
    sorted lines. *)
Definition formatMM (matrix_files : list (list mm_line))
    (feature_index : list (string * nat))
    (barcodes_chunks : list (nat * list (string * nat))) : mm_file :=
  let features_count := length feature_index in
  let barcodes_count := sum_list ((λ ix : nat * list (string * nat), length ix.2)
                                    <$> barcodes_chunks) in
  let mmsize := sum_list (getlen <$> matrix_files) in
  MMFile "%%MatrixMarket matrix coordinate real general"
         (features_count, barcodes_count, mmsize)
         (shell_sort matrix_files).


From stdpp Require Import pretty.

(** * Reading the inputs and writing the dump *)

(** ** Bytes *)

(** The bytes that [bytes.strip()] removes: space, tab, line feed, vertical
    tab, form feed and carriage return. *)
Definition is_space (a : ascii) : bool :=
  bool_decide (nat_of_ascii a ∈ [32; 9; 10; 11; 12; 13]).

Fixpoint lstrip (s : string) : string :=
  match s with
  | EmptyString => EmptyString
  | String a s' => if is_space a then lstrip s' else s
  end.

(** [s.rstrip()] *)
Fixpoint rstrip (s : string) : string :=
  match s with
  | EmptyString => EmptyString
  | String a s' =>
      match rstrip s' with
      | EmptyString => if is_space a then EmptyString else String a EmptyString
      | rest => String a rest
      end
  end.

(** [s.strip()] *)
Definition strip (s : string) : string := rstrip (lstrip s).

(** [s.split(sep)] for a separator of one byte: there is always a first
    piece. *)
Fixpoint split (sep : ascii) (s : string) : string * list string :=
  match s with
  | EmptyString => (EmptyString, [])
  | String a s' =>
      let ps := split sep s' in
      if decide (a = sep) then (EmptyString, ps.1 :: ps.2)
      else (String a ps.1, ps.2)
  end.

Definition tab : ascii := ascii_of_nat 9.
Definition comma : ascii := ascii_of_nat 44.

(** ** Dictionaries with string keys, in order of insertion *)

(** [d[k]] *)
Fixpoint dict_get {V} (d : list (string * V)) (k : string) : res V :=
  match d with
  | [] => Raise (KeyError k)
  | (k', v) :: d' => if decide (k' = k) then Ok v else dict_get d' k
  end.

(** [d[k] = v] *)
Fixpoint dict_set {V} (d : list (string * V)) (k : string) (v : V) : list (string * V) :=
  match d with
  | [] => [(k, v)]
  | (k', v') :: d' => if decide (k' = k) then (k', v) :: d' else (k', v') :: dict_set d' k v
  end.

(** ** [index_features] *)

(** The first field of a line of the features file. *)
Definition feature_name (line : string) : string := (split tab (strip line)).1.

(** [index_features] on the lines of the features file: [enumerate] starts
    at 1. *)
Definition index_features (lines : list string) : list (string * nat) :=
  foldl (λ idx (il : nat * string), dict_set idx (feature_name il.2) (S il.1))
        [] (enumerate lines).

(** ** [parse_maps] *)

Section ParseMaps.

(** [int(count)] on bytes is a built-in of Python: it is a parameter here,
    [None] standing for [ValueError]. *)
Variable int_of_bytes : string → option Z.

(** The body of the loop up to the test on the barcode: the four fields of
    the line, the count as an integer, the features as a set of
    identifiers. *)
Definition parse_line (feature_index : list (string * nat)) (line : string)
    : res (string * eqclass) :=
  match split tab (strip line) with
  | (cb, [umi; feat; count]) =>
      match int_of_bytes count with
      | None => Raise ValueError
      | Some count =>
          let fts := split comma feat in
          ids ← res_map (dict_get feature_index) (fts.1 :: fts.2);
          Ok (cb, (umi, list_to_set ids, count))
      end
  | _ => Raise ValueError
  end.

(** The loop of the generator: what it yields, and how it ends. *)
Fixpoint parse_loop (feature_index : list (string * nat)) (lines : list string)
    (it : string) (eqcl : list eqclass) : list (string * list eqclass) * res unit :=
  match lines with
  | [] => ([(it, eqcl)], Ok ())
  | line :: lines' =>
      match parse_line feature_index line with
      | Ok (cb, ec) =>
          if decide (cb = it) then parse_loop feature_index lines' it (eqcl ++ [ec])
          else let rest := parse_loop feature_index lines' cb [ec] in
               ((it, eqcl) :: rest.1, rest.2)
      | Raise e => ([], Raise e)
      | OutOfFuel => ([], OutOfFuel)
      end
  end.

(** [parse_maps] on the lines of the mappings file: [f.readline()] gives the
    first line, or empty bytes at the end of the file. *)
Definition parse_maps (lines : list string) (feature_index : list (string * nat))
    : list (string * list eqclass) * res unit :=
  let it := (split tab (strip (default EmptyString (head lines)))).1 in
  parse_loop feature_index lines it [].

End ParseMaps.

(** ** [split_barcodes] *)

Section SplitBarcodes.

(** [get_ranges] of [irescue.misc] is not part of the sources at hand: the
    ranges it yields for a number of barcodes and a number of chunks are a
    parameter. *)
Variable get_ranges : nat → nat → list (list nat).

(** [{next(f).strip(): x+1 for x in chunk}]: the dictionary and the lines
    left in the file. [next] on a file at its end raises [StopIteration],
    which ends the generator with a [RuntimeError]: that is [None]. *)
Fixpoint read_chunk (lines : list string) (chunk : list nat) (d : list (string * nat))
    {struct chunk} : option (list (string * nat) * list string) :=
  match chunk with
  | [] => Some (d, lines)
  | x :: chunk' =>
      match lines with
      | [] => None
      | line :: lines' => read_chunk lines' chunk' (dict_set d (strip line) (S x))
      end
  end.

(** What the generator yields, and whether it ends without an error. *)
Fixpoint split_loop (lines : list string) (chunks : list (nat * list nat))
    : list (nat * list (string * nat)) * bool :=
  match chunks with
  | [] => ([], true)
  | (i, chunk) :: chunks' =>
      match read_chunk lines chunk [] with
      | Some (d, lines') =>
          let rest := split_loop lines' chunks' in ((i, d) :: rest.1, rest.2)
      | None => ([], false)
      end
  end.

(** [split_barcodes] on the lines of the barcodes file; [getlen] counts
    them. *)
Definition split_barcodes (lines : list string) (n : nat)
    : list (nat * list (string * nat)) * bool :=
  split_loop lines (enumerate (get_ranges (length lines) n)).

End SplitBarcodes.

(** ** [writeEC] *)

(** A line of a dump file: the index of the barcode, which is its first
    field, and the rest of the line. *)
Definition ec_line : Type := nat * string.

(** The order of [LC_ALL=C sort -k1,1n -k2]: the first field as a number,
    then the bytes from the end of the first field to the end of the line. *)
Definition ec_leb (a b : ec_line) : bool :=
  if decide (a.1 = b.1) then String.leb a.2 b.2 else bool_decide (a.1 < b.1).

Fixpoint ec_insert (a : ec_line) (l : list ec_line) : list ec_line :=
  match l with
  | [] => [a]
  | b :: l' => if ec_leb a b then a :: b :: l' else b :: ec_insert a l'
  end.

Definition ec_header : list string :=
  ["BC_index"; "Barcode"; "UMI"; "Features"; "Read_count"; "Dedup_UMI"; "Dedup_feature"]%string.

(** [writeEC] on a list of dump files: the names of the header, then the
    sorted lines. *)
Definition writeEC (ecdump_files : list (list ec_line)) : list string * list ec_line :=
  (ec_header, foldr ec_insert [] (concat ecdump_files)).

(** ** [run_count] on a mappings file *)

Section RunCountMaps.

Variable run_em : list (list nat) → nat → list Q.
Variable int_of_bytes : string → option Z.

(** [run_count] with the cells read from the lines of the mappings file.
    The generator is consumed as it yields: a cell is counted before the
    next lines are read, so that an error of [parse_maps] comes after the
    cells yielded before it. *)
Definition run_count_maps (lines : list string) (features_index : list (string * nat))
    (dumpEC : bool) (barcodes : list (string * nat)) : M (list shard_line) :=
  let cells := parse_maps int_of_bytes lines features_index in
  let! out := run_count run_em cells.1 features_index dumpEC barcodes in
  let! _ := lift cells.2 in
  m_ret out.

End RunCountMaps.

(** ** The dump file of a shard *)





Section RunCountDump.

Variable run_em : list (list nat) → nat → list Q.



End RunCountDump.
(** * Vocabulary of the statements *)

(** The graph right after [add_nodes_from]: one entry per equivalence class,
    without successors. *)
Definition fresh_entries (k : nat) (l : list eqclass) : DiGraph :=
  imap (λ i x, (k + i, NodeEntry (node_attrs x) [])) l.

(** The entries of [g] are those of [g0] up to the successors, which are
    nodes. *)
Definition same_nodes (g0 g : DiGraph) : Prop :=
  nodes g = nodes g0
  ∧ (∀ n, n_attr <$> g_lookup g n = n_attr <$> g_lookup g0 n)
  ∧ (∀ a b, has_edge g a b → b ∈ nodes g0).

(** Two equivalence classes of the examples of the specification. *)
Definition ec_AAAAA : eqclass := ("AAAAA"%string, {[1]}, 5%Z).
Definition ec_AAAAT : eqclass := ("AAAAT"%string, {[1; 2]}, 2%Z).

(** Two equivalence classes that connect to each other. *)
Definition ec_mutual_a : eqclass := ("AAAAA"%string, {[1]}, 1%Z).
Definition ec_mutual_b : eqclass := ("AAAAT"%string, {[1; 2]}, 1%Z).

(** The subgraph of the cell made of these two: a pure bidirectional
    2-cycle. *)
Definition two_cycle : DiGraph :=
  default [] (subgraphs (build_graph [ec_mutual_a; ec_mutual_b]) !! 0).

(** A stand-in for the EM solver where a closed example needs one: even
    weights on two columns. *)
Definition run_em_even (em_array : list (list nat)) (cycles : nat) : list Q :=
  [(1 # 2)%Q; (1 # 2)%Q].

(** One equivalence class with two features, and one with none. *)
Definition ec_ambiguous : eqclass := ("AAAAA"%string, {[1; 2]}, 1%Z).
Definition ec_featureless : eqclass := ("AAAAA"%string, ∅, 1%Z).

Definition two_features : list (string * nat) := [("a"%string, 1); ("b"%string, 2)].

(** Three nodes in a row, 0 to 1 to 2. In [chain_wide] the features of the
    last node meet those of the first node but not the features that the
    first two share; in [chain_narrow] they meet those of the middle node
    only. *)
Definition chain_wide : DiGraph :=
  build_graph [("AAAA"%string, {[1; 3]}, 9%Z);
               ("AAAT"%string, {[1; 2]}, 5%Z);
               ("AATT"%string, {[2; 3]}, 3%Z)].

Definition chain_narrow : DiGraph :=
  build_graph [("AAAA"%string, {[1]}, 9%Z);
               ("AAAT"%string, {[1; 2]}, 5%Z);
               ("AATT"%string, {[2]}, 3%Z)].

(** The cell of the first end-to-end example of the specification. *)
Definition cell_example : list eqclass := [ec_AAAAA; ec_AAAAT].

(** A graph as networkx keeps it: the keys of the node dictionary are
    distinct, every successor is a node, and every node has its feature set
    under ["ft"]. *)
Record wf_graph (g : DiGraph) : Prop := WfGraph {
  wf_nodup : NoDup (nodes g);
  wf_succ : ∀ n e v, (n, e) ∈ g → v ∈ n_succ e → v ∈ nodes g;
  wf_ft : ∀ n e, (n, e) ∈ g → ∃ s, n_attr e !! "ft"%string = Some (PySet s)
}.

(** The number of nodes of [g] that are not on [path]. *)
Definition unvisited (g : DiGraph) (path : list nat) : nat :=
  length (filter (λ n, n ∉ path) (nodes g)).

(** What a walk adds to the path: nodes of the graph that were not on it,
    each once. *)
Definition fresh_nodes (g : DiGraph) (path new : list nat) : Prop :=
  NoDup new ∧ ∀ x, x ∈ new → x ∈ nodes g ∧ x ∉ path.

(** What holds of the state of the loop over the nodes, for the paths of one
    parent of [subg]. *)
Record walk_inv (subg : DiGraph) (st : walk_state) : Prop := WalkInv {
  wi_wf : wf_graph (subg_copy st);
  wi_nodes : nodes (subg_copy st) = filter (λ n, n ∉ blacklist st) (nodes subg);
  wi_black : blacklist st = concat (found st);
  wi_nodup : NoDup (blacklist st);
  wi_sub : ∀ x, x ∈ blacklist st → x ∈ nodes subg;
  wi_nonempty : Forall (λ p : list nat, p ≠ []) (found st)
}.

(** A configuration partitions the nodes of [subg]: its paths are not empty
    and, put end to end, they list every node once. *)
Definition partitions (subg : DiGraph) (config : list (list nat)) : Prop :=
  concat config ≡ₚ nodes subg ∧ Forall (λ p : list nat, p ≠ []) config.

(** The nodes of [g] that have [x] among their successors. *)
Definition incoming (g : DiGraph) (x : nat) : list nat :=
  (filter (λ ke : nat * node_entry, x ∈ n_succ ke.2) g).*1.

(** The nodes without incoming edge, in the order of the nodes. *)
Definition orphans (g : DiGraph) : list nat :=
  filter (λ x, incoming g x = []) (nodes g).

(** [u] is the union of the feature sets of the nodes of [g]. *)
Definition union_of_features (g : DiGraph) (u : gset nat) : Prop :=
  ∀ f, f ∈ u ↔ ∃ n s, n ∈ nodes g ∧ node_ft g n = Ok s ∧ f ∈ s.

(** What [resolve] yields on a subgraph. *)
Record resolved_ok (subg : DiGraph) (r : resolved) : Prop := ResolvedOk {
  ro_parents : r_parents r = match orphans subg with
                             | [] => nodes subg
                             | _ :: _ => orphans subg
                             end;
  ro_keys : (r_paths r).*1 = r_parents r;
  ro_paths : Forall (λ kv : nat * list (list nat),
                       (∃ l, parent_paths subg kv.1 = Ok (kv.2, l))
                       ∧ partitions subg kv.2) (r_paths r);
  ro_select : ∃ i k,
      r_paths r !! i = Some (k, r_path_config r)
      ∧ (∀ kv, kv ∈ r_paths r → length (r_path_config r) ≤ length kv.2)
      ∧ (∀ j kv, j < i → r_paths r !! j = Some kv
                 → length (r_path_config r) < length kv.2);
  ro_partition : partitions subg (r_path_config r);
  ro_features_cycle : orphans subg = [] →
      ∃ u, union_of_features subg u
           ∧ r_features r = replicate (length (r_path_config r)) (elements u);
  ro_features_parent : orphans subg ≠ [] →
      Forall2 (λ (p : list nat) (feats : list nat),
                 ∃ x s, head p = Some x ∧ node_ft subg x = Ok s ∧ feats = elements s)
              (r_path_config r) (r_features r)
}.

(** Every node carries the attributes that [compute_cell_counts] gives the
    node of an equivalence class. *)
Definition class_attrs (g : DiGraph) : Prop :=
  ∀ n e, (n, e) ∈ g → ∃ x, n_attr e = node_attrs x.

(** The order of the barcode index, then of the feature; and the order of
    the feature, then of the barcode index. *)
Definition barcode_first (a b : mm_line) : Prop :=
  mm_barcode a < mm_barcode b
  ∨ (mm_barcode a = mm_barcode b ∧ mm_feature a ≤ mm_feature b).

Definition feature_first (a b : mm_line) : Prop :=
  mm_feature a < mm_feature b
  ∨ (mm_feature a = mm_feature b ∧ mm_barcode a ≤ mm_barcode b).

(** [x] is a neighbour of [u] in the undirected view of [g]. *)
Definition nbr (g : DiGraph) (u x : nat) : Prop := x ∈ neighbors g u.

(** The node [n] of [g] carries the attributes of the [n]-th equivalence
    class of [ecs]. *)
Definition attrs_of (ecs : list eqclass) (g : DiGraph) : Prop :=
  ∀ n e, (n, e) ∈ g → ∃ x, ecs !! n = Some x ∧ n_attr e = node_attrs x.

(** The body of [for feats in features] when [feats] is not empty. *)
Definition assign_pure (number_of_features : nat)
    (acc : list (nat * Q) * list (list nat)) (feats : list nat)
    : list (nat * Q) * list (list nat) :=
  match feats with
  | [f] => (counter_add acc.1 f 1%Q, acc.2)
  | _ => (acc.1, acc.2 ++ [em_row number_of_features feats])
  end.

(** The sum of the counts of a mapping. *)
Definition total (counts : list (nat * Q)) : Q :=
  foldr (λ (kv : nat * Q) (acc : Q), (kv.2 + acc)%Q) 0%Q counts.

(** The number of molecules counted so far: the counts given directly and
    one per row kept for the EM solver. *)
Definition molecules (acc : list (nat * Q) * list (list nat)) : Q :=
  (total acc.1 + inject_Z (Z.of_nat (length acc.2)))%Q.

(** A mapping of counts as a dictionary keeps it: one entry per feature,
    and here every count above zero. *)
Definition counts_ok (cs : list (nat * Q)) : Prop :=
  NoDup (cs.*1) ∧ ∀ kv, kv ∈ cs → (0 < kv.2)%Q.

(** The loop [for subg in subgraphs] of [compute_cell_counts], from the
    empty counts. *)
Definition dedup_loop (ecs : list eqclass) (number_of_features : nat)
    (dump0 : option (list (nat * dump_row))) : M cell_state :=
  m_foldl (process_subgraph number_of_features) (CellState [] [] dump0)
          (subgraphs (build_graph ecs)).

(** [ext] is what the dump loop appends to the row of class [x]: [x] lies on
    a path of the selected configuration of a subgraph of the cell; the first
    node of the path gets empty fields, the others the UMI of the first node
    and the features of the path. *)
Definition annotation_ok (ecs : list eqclass) (x : nat) (ext : string * list nat) : Prop :=
  ∃ subg r i p h ech fi,
    subg ∈ subgraphs (build_graph ecs) ∧ resolve subg = Ok r
    ∧ r_path_config r !! i = Some p ∧ head p = Some h ∧ x ∈ p
    ∧ ecs !! h = Some ech ∧ r_features r !! i = Some fi
    ∧ ext = if decide (x = h) then (EmptyString, []) else (ec_umi ech, fi).


(** [f] is a feature of a class of the cell. *)
Definition cell_feature (ecs : list eqclass) (f : nat) : Prop :=
  ∃ x, x ∈ ecs ∧ f ∈ ec_ft x.

(** The counts and the rows for the EM solver mention features of the cell
    only. *)
Definition from_cell (ecs : list eqclass) (n : nat)
    (acc : list (nat * Q) * list (list nat)) : Prop :=
  (∀ k, k ∈ acc.1.*1 → cell_feature ecs k)
  ∧ ∀ row, row ∈ acc.2 → ∃ feats, row = em_row n feats ∧ ∀ f, f ∈ feats → cell_feature ecs f.

(** The records of a cell that [parse_maps] yields, each with the barcode
    of the cell. *)
Definition cell_records (c : string * list eqclass) : list (string * eqclass) :=
  pair c.1 <$> c.2.

(** Two cells yielded one after the other differ in their barcode. *)
Definition adjacent_distinct (cells : list (string * list eqclass)) : Prop :=
  ∀ i c c', cells !! i = Some c → cells !! S i = Some c' → c.1 ≠ c'.1.

(** An instance of the parameter [int_of_bytes] for the examples: the value
    of a non-empty string of decimal digits. *)
Fixpoint digits_value (s : string) (acc : Z) : option Z :=
  match s with
  | EmptyString => Some acc
  | String a s' =>
      let d := nat_of_ascii a in
      if bool_decide (48 ≤ d ≤ 57) then digits_value s' (10 * acc + Z.of_nat (d - 48))%Z
      else None
  end.

Definition int_of_digits (s : string) : option Z :=
  match s with
  | EmptyString => None
  | _ => digits_value s 0
  end.

(** [a], a tab, [b]. *)
Definition tabbed (a b : string) : string := (a ++ String tab b)%string.

(** A features file with a name on two lines. *)
Definition features_lines : list string :=
  [tabbed "L1" "LINE"; tabbed "AluY" "SINE"; tabbed "L1" "LINE"]%string.

(** The index of two features. *)
Definition repeats_index : list (string * nat) := [("L1", 1); ("AluY", 2)]%string.

(** A mappings file: two cells, the second with one class. *)
Definition maps_lines : list string :=
  [tabbed "CELLA" (tabbed "AAAAA" (tabbed "L1" "3"));
   tabbed "CELLA" (tabbed "CCCCC" (tabbed "L1,AluY" "1"));
   tabbed "CELLB" (tabbed "AAAAA" (tabbed "AluY" "2"))]%string.

(** The order of the lines of a dump file. *)
Definition ec_le (a b : ec_line) : Prop :=
  a.1 < b.1 ∨ (a.1 = b.1 ∧ String.leb a.2 b.2 = true).

(** The body of the loop of [run_count] over the cells. *)
Definition count_cell (run_em : list (list nat) → nat → list Q)
    (features_index : list (string * nat)) (dumpEC : bool)
    (barcodes : list (string * nat))
    (lines : list shard_line) (cell : string * list eqclass) : M (list shard_line) :=
  match barcode_index barcodes cell.1 with
  | None => m_ret lines
  | Some cellidx =>
      let! r := compute_cell_counts run_em cell.2 features_index dumpEC in
      m_ret (lines ++ matrix_lines cellidx (cell_counts r))
  end.




(** An instance of the parameter [get_ranges] for the examples: the line
    numbers in two halves. *)
Definition two_ranges (len n : nat) : list (list nat) :=
  [seq 0 (len / 2); seq (len / 2) (len - len / 2)].

(** [a] and a line feed. *)
Definition with_newline (a : string) : string := (a ++ String (ascii_of_nat 10) "")%string.

(** A barcodes file. *)
Definition barcode_lines : list string :=
  [with_newline "CELLA"; with_newline "CELLB"; with_newline "CELLC"]%string.



(** What a walk from [node] with the anchor [s] adds to the path: every new
    node has a feature of the anchor and is a successor of the starting node
    or of another new node. *)
Definition walk_grown (g : DiGraph) (s : gset nat) (node : nat) (new : list nat) : Prop :=
  ∀ x, x ∈ new →
    (∃ ftn, node_ft g x = Ok ftn ∧ ftn ∩ s ≠ ∅)
    ∧ ∃ y, (y = node ∨ y ∈ new) ∧ has_edge g y x.

(** The classes at positions [i] and [j] of a cell are connected, in one
    direction or the other. *)
Definition linked (ecs : list eqclass) (i j : nat) : Prop :=
  i ≠ j ∧ ∃ x y, ecs !! i = Some x ∧ ecs !! j = Some y
                 ∧ (connect_umis x y 1 = true ∨ connect_umis y x 1 = true).
(** * Properties *)

(** ** The connectivity test *)

Lemma filter_length_ext {A} (P Q : A → Prop) `{!∀ x, Decision (P x)} `{!∀ x, Decision (Q x)}
    (l : list A) :
  (∀ x, x ∈ l → (P x ↔ Q x)) → length (filter P l) = length (filter Q l).
Proof.
  induction l as [|a l IH]; intros Hext; [done|].
  rewrite !filter_cons.
  assert (P a ↔ Q a) as Ha by (apply Hext; left).
  assert (length (filter P l) = length (filter Q l)) as Hl
    by (apply IH; intros x Hx; apply Hext; by right).
  destruct (decide (P a)), (decide (Q a)); simpl; tauto || lia.
Qed.

Lemma mismatches_positions (la lb : list ascii) (k : nat) :
  length (filter (λ ij : ascii * ascii, ij.1 ≠ ij.2) (zip la lb))
  = length (filter (λ p, la !! (p - k) ≠ lb !! (p - k))
                   (seq k (Nat.min (length la) (length lb)))).
Proof.
  revert lb k. induction la as [|a la IH]; intros [|b lb] k; simpl; try done.
  rewrite !filter_cons. simpl. rewrite Nat.sub_diag. simpl.
  assert (length (filter (λ p, (a :: la) !! (p - k) ≠ (b :: lb) !! (p - k))
                         (seq (S k) (Nat.min (length la) (length lb))))
          = length (filter (λ ij : ascii * ascii, ij.1 ≠ ij.2) (zip la lb))) as Htl.
  { rewrite (IH lb (S k)). apply filter_length_ext. intros p Hp.
    apply elem_of_seq in Hp.
    replace (p - k) with (S (p - S k)) by lia. done. }
  destruct (decide (a ≠ b)), (decide (Some a ≠ Some b)); simpl; rewrite ?Htl;
    try done; exfalso; naive_solver.
Qed.

Lemma mismatches_hamming (a b : string) : mismatches a b = hamming_defined a b.
Proof.
  unfold mismatches, hamming_defined.
  rewrite (mismatches_positions _ _ 0).
  apply filter_length_ext. intros p _. by rewrite Nat.sub_0_r.
Qed.

Lemma connect_umis_spec (x y : eqclass) (threshold : Z) :
  connect_umis x y threshold = true ↔
    (2 * ec_count y - 1 ≤ ec_count x)%Z
    ∧ ec_ft x ∩ ec_ft y ≠ ∅
    ∧ (Z.of_nat (hamming_defined (ec_umi x) (ec_umi y)) ≤ threshold)%Z.
Proof.
  unfold connect_umis. rewrite !andb_true_iff, bool_decide_eq_true, !Z.leb_le.
  rewrite mismatches_hamming. intuition lia.
Qed.

(** ** The graph of a cell *)

Lemma node_entry_eta (e : node_entry) : NodeEntry (n_attr e) (n_succ e) = e.
Proof. by destruct e. Qed.

Lemma g_lookup_nodes (g : DiGraph) (n : nat) : is_Some (g_lookup g n) ↔ n ∈ nodes g.
Proof.
  unfold nodes. induction g as [|[k e] g IH]; simpl.
  - split; [intros [? ?]; done | intros H; inversion H].
  - destruct (decide (k = n)) as [->|Hne].
    + split; [intros _; left | eauto].
    + rewrite IH. split; [by right | intros H; inversion H; by subst].
Qed.

Lemma g_lookup_None (g : DiGraph) (n : nat) : g_lookup g n = None ↔ n ∉ nodes g.
Proof. rewrite <- g_lookup_nodes, eq_None_not_Some. done. Qed.

Lemma g_lookup_app (g1 g2 : DiGraph) (n : nat) :
  g_lookup (g1 ++ g2) n = match g_lookup g1 n with Some e => Some e | None => g_lookup g2 n end.
Proof.
  induction g1 as [|[k e] g1 IH]; simpl; [done|]. by destruct (decide (k = n)).
Qed.

Lemma add_node_fresh (g : DiGraph) (n : nat) (a : gmap string pyval) :
  n ∉ nodes g → add_node g n a = g ++ [(n, NodeEntry a [])].
Proof.
  unfold nodes. induction g as [|[k e] g IH]; simpl; intros Hn; [done|].
  rewrite not_elem_of_cons in Hn. destruct Hn as [Hk Hn].
  destruct (decide (k = n)); [congruence|]. by rewrite IH.
Qed.

Lemma add_node_present (g : DiGraph) (n : nat) :
  n ∈ nodes g → add_node g n ∅ = g.
Proof.
  unfold nodes. induction g as [|[k e] g IH]; simpl; intros Hn; [inversion Hn|].
  destruct (decide (k = n)) as [->|Hne].
  - by rewrite (left_id_L ∅ (∪)), node_entry_eta.
  - rewrite IH; [done|]. inversion Hn; by subst.
Qed.

Lemma nodes_fresh_entries (k : nat) (l : list eqclass) :
  nodes (fresh_entries k l) = seq k (length l).
Proof.
  unfold nodes, fresh_entries. revert k.
  induction l as [|x l IH]; intros k; simpl; [done|].
  rewrite Nat.add_0_r. f_equal. rewrite <- (IH (S k)).
  f_equal. apply imap_ext. intros i y _. simpl. f_equal. lia.
Qed.

Lemma add_nodes_from_fresh (l : list eqclass) (k : nat) (g : DiGraph) :
  (∀ n, n ∈ nodes g → n < k) →
  add_nodes_from g ((λ ij : nat * eqclass, (ij.1, node_attrs ij.2))
                      <$> imap (λ i, pair (k + i)) l)
  = g ++ fresh_entries k l.
Proof.
  unfold add_nodes_from, fresh_entries. revert k g.
  induction l as [|x l IH]; intros k g Hg; simpl; [by rewrite app_nil_r|].
  rewrite Nat.add_0_r. rewrite add_node_fresh.
  2:{ intros Hk. apply Hg in Hk. lia. }
  erewrite (imap_ext _ (λ i, pair (S k + i))); [|intros; simpl; f_equal; lia].
  rewrite (IH (S k)).
  - rewrite <- app_assoc. simpl. do 2 f_equal.
    apply imap_ext. intros; simpl. do 2 f_equal. lia.
  - intros n Hn. unfold nodes in Hn. rewrite fmap_app in Hn.
    apply elem_of_app in Hn as [Hn|Hn]; [apply Hg in Hn; lia|].
    simpl in Hn. apply list_elem_of_singleton in Hn. lia.
Qed.

Lemma graph_nodes_entries (ecs : list eqclass) : graph_nodes ecs = fresh_entries 0 ecs.
Proof.
  unfold graph_nodes, enumerate.
  pose proof (add_nodes_from_fresh ecs 0 []) as Hfresh. simpl in Hfresh.
  apply Hfresh. intros n Hn. inversion Hn.
Qed.

Lemma g_lookup_elem (g : DiGraph) (n : nat) (e : node_entry) :
  g_lookup g n = Some e → (n, e) ∈ g.
Proof.
  induction g as [|[k e'] g IH]; simpl; [done|].
  destruct (decide (k = n)) as [->|Hne]; intros H.
  - injection H as ->. left.
  - right. by apply IH.
Qed.

Lemma elem_g_lookup (g : DiGraph) (n : nat) (e : node_entry) :
  NoDup (nodes g) → (n, e) ∈ g → g_lookup g n = Some e.
Proof.
  unfold nodes. induction g as [|[k e'] g IH]; simpl; intros Hnd Hin; [inversion Hin|].
  apply list.NoDup_cons in Hnd as [Hk Hnd].
  apply elem_of_cons in Hin as [Heq|Hin].
  - injection Heq as -> ->. by rewrite decide_True.
  - destruct (decide (k = n)) as [->|Hne]; [|by apply IH].
    exfalso. apply Hk. apply (list_elem_of_fmap_2 fst) in Hin. done.
Qed.

Lemma g_lookup_update (u : nat) (f : node_entry → node_entry) (g : DiGraph) (a : nat) :
  g_lookup ((λ ke : nat * node_entry, if decide (ke.1 = u) then (ke.1, f ke.2) else ke) <$> g) a
  = if decide (a = u) then f <$> g_lookup g a else g_lookup g a.
Proof.
  induction g as [|[k e] g IH]; [by destruct (decide (a = u))|].
  rewrite fmap_cons. cbn [g_lookup fst snd]. rewrite IH. clear IH.
  destruct (decide (k = u)) as [->|Hku]; cbn [g_lookup fst snd].
  - destruct (decide (u = a)) as [->|Hua].
    + by rewrite decide_True.
    + by rewrite decide_False.
  - destruct (decide (k = a)) as [->|Hka]; [|done].
    by rewrite decide_False.
Qed.

Lemma nodes_update (u : nat) (f : node_entry → node_entry) (g : DiGraph) :
  nodes ((λ ke : nat * node_entry, if decide (ke.1 = u) then (ke.1, f ke.2) else ke) <$> g)
  = nodes g.
Proof.
  unfold nodes. rewrite <- list_fmap_compose. apply list_fmap_ext.
  intros i [k e] _. simpl. by destruct (decide (k = u)).
Qed.

Lemma g_lookup_add_edge (g : DiGraph) (u v a : nat) :
  u ∈ nodes g → v ∈ nodes g →
  g_lookup (add_edge g u v) a
  = if decide (a = u) then add_succ v <$> g_lookup g a else g_lookup g a.
Proof.
  intros Hu Hv. unfold add_edge.
  rewrite (add_node_present g u Hu), (add_node_present g v Hv).
  apply g_lookup_update.
Qed.

Lemma nodes_add_edge (g : DiGraph) (u v : nat) :
  u ∈ nodes g → v ∈ nodes g → nodes (add_edge g u v) = nodes g.
Proof.
  intros Hu Hv. unfold add_edge.
  rewrite (add_node_present g u Hu), (add_node_present g v Hv).
  apply nodes_update.
Qed.

Lemma elem_of_add_succ (v b : nat) (e : node_entry) :
  b ∈ n_succ (add_succ v e) ↔ b ∈ n_succ e ∨ b = v.
Proof.
  unfold add_succ. case_bool_decide as Hv; simpl.
  - split; [by left | intros [?| ->]; done].
  - rewrite elem_of_app, list_elem_of_singleton. done.
Qed.

Lemma n_attr_add_succ (v : nat) (e : node_entry) : n_attr (add_succ v e) = n_attr e.
Proof. unfold add_succ. by case_bool_decide. Qed.

Lemma has_edge_add_edge (g : DiGraph) (u v a b : nat) :
  u ∈ nodes g → v ∈ nodes g →
  has_edge (add_edge g u v) a b ↔ has_edge g a b ∨ (a = u ∧ b = v).
Proof.
  intros Hu Hv. unfold has_edge. rewrite g_lookup_add_edge by done.
  destruct (decide (a = u)) as [->|Hne].
  - apply g_lookup_nodes in Hu as [e He]. rewrite He. simpl. split.
    + intros (e' & [= <-] & Hb). apply elem_of_add_succ in Hb as [Hb| ->]; eauto.
    + intros [(e' & [= <-] & Hb) | [_ ->]];
        (eexists; split; [done|]); apply elem_of_add_succ; auto.
  - split; [by left | intros [?|[? _]]; done].
Qed.

Lemma same_nodes_add_edge (g0 g : DiGraph) (u v : nat) :
  u ∈ nodes g0 → v ∈ nodes g0 → same_nodes g0 g → same_nodes g0 (add_edge g u v).
Proof.
  intros Hu Hv (Hn & Ha & He). rewrite <- Hn in Hu, Hv.
  split; [|split].
  - by rewrite nodes_add_edge.
  - intros n. rewrite g_lookup_add_edge by done. rewrite <- Ha.
    destruct (decide (n = u)); [|done].
    destruct (g_lookup g n); simpl; [|done]. by rewrite n_attr_add_succ.
  - intros a b Hab. apply has_edge_add_edge in Hab as [Hab|[_ ->]]; try done.
    + eauto.
    + by rewrite <- Hn.
Qed.

Lemma graph_edges_spec (t : Z) (pairs : list ((nat * eqclass) * (nat * eqclass)))
    (g0 g : DiGraph) :
  (∀ p, p ∈ pairs → p.1.1 ∈ nodes g0 ∧ p.2.1 ∈ nodes g0) →
  same_nodes g0 g →
  same_nodes g0 (graph_edges t pairs g)
  ∧ ∀ a b, has_edge (graph_edges t pairs g) a b ↔
      has_edge g a b
      ∨ ∃ x y, ((a, x), (b, y)) ∈ pairs ∧ connect_umis x y t = true.
Proof.
  unfold graph_edges. revert g.
  induction pairs as [|[[i x] [j y]] pairs IH]; intros g Hp Hs; simpl.
  - split; [done|]. intros a b. split; [by left|].
    intros [?|(? & ? & Hin & _)]; [done | inversion Hin].
  - destruct (Hp ((i, x), (j, y))) as [Hi Hj]; [left|]. simpl in Hi, Hj.
    assert (∀ p, p ∈ pairs → p.1.1 ∈ nodes g0 ∧ p.2.1 ∈ nodes g0) as Hp'
      by (intros p Hin; apply Hp; by right).
    destruct (connect_umis x y t) eqn:Hc.
    + destruct (IH (add_edge g i j) Hp') as [Hs' He'];
        [by apply same_nodes_add_edge|].
      split; [done|]. intros a b. rewrite He'.
      destruct Hs as (Hn & _ & _).
      rewrite has_edge_add_edge by (by rewrite Hn).
      split.
      * intros [[?|[-> ->]]|(x' & y' & Hin & Hc')].
        -- by left.
        -- right. exists x, y. split; [left | done].
        -- right. exists x', y'. split; [by right | done].
      * intros [?|(x' & y' & Hin & Hc')]; [by left; left|].
        apply elem_of_cons in Hin as [[= -> -> -> ->]|Hin].
        -- left. by right.
        -- right. eauto.
    + destruct (IH g Hp' Hs) as [Hs' He']. split; [done|].
      intros a b. rewrite He'. split.
      * intros [?|(x' & y' & Hin & Hc')]; [by left|].
        right. exists x', y'. split; [by right | done].
      * intros [?|(x' & y' & Hin & Hc')]; [by left|].
        apply elem_of_cons in Hin as [[= -> -> -> ->]|Hin]; [congruence|].
        right. eauto.
Qed.

Lemma elem_of_enumerate {A} (l : list A) (i : nat) (x : A) :
  (i, x) ∈ enumerate l ↔ l !! i = Some x.
Proof.
  unfold enumerate. rewrite elem_of_lookup_imap. split.
  - intros (j & y & [= -> ->] & H). done.
  - intros H. eauto.
Qed.

Lemma elem_of_permutations2 {A} (pool : list A) (x y : A) :
  (x, y) ∈ permutations2 pool ↔
    ∃ i j, i ≠ j ∧ pool !! i = Some x ∧ pool !! j = Some y.
Proof.
  unfold permutations2. rewrite list_elem_of_bind. split.
  - intros ([i x'] & Hin & Hi). apply list_elem_of_bind in Hin as ([j y'] & Hin & Hj).
    simpl in Hin. destruct (decide (i = j)); [inversion Hin|].
    apply list_elem_of_singleton in Hin as [= -> ->].
    apply elem_of_enumerate in Hi, Hj. eauto.
  - intros (i & j & Hne & Hi & Hj). exists (i, x). split; [|by apply elem_of_enumerate].
    apply list_elem_of_bind. exists (j, y). split; [|by apply elem_of_enumerate].
    simpl. rewrite decide_False by done. left.
Qed.

Lemma g_lookup_fresh_entries (l : list eqclass) (n : nat) :
  g_lookup (fresh_entries 0 l) n = (λ x, NodeEntry (node_attrs x) []) <$> l !! n.
Proof.
  destruct (l !! n) as [x|] eqn:Hn; simpl.
  - apply elem_g_lookup.
    + rewrite nodes_fresh_entries. apply NoDup_seq.
    + unfold fresh_entries. apply elem_of_lookup_imap. eauto.
  - apply g_lookup_None. rewrite nodes_fresh_entries, elem_of_seq.
    apply lookup_ge_None in Hn. lia.
Qed.

Lemma lookup_enumerate {A} (l : list A) (a i : nat) (x : A) :
  enumerate l !! a = Some (i, x) ↔ i = a ∧ l !! a = Some x.
Proof.
  unfold enumerate. rewrite list_lookup_imap.
  destruct (l !! a); simpl; [split; [by intros [= -> ->] | by intros [-> [= ->]]] | split; [done | by intros [_ ?]]].
Qed.

Lemma build_graph_spec (t : Z) (ecs : list eqclass) :
  same_nodes (fresh_entries 0 ecs) (build_graph_with t ecs)
  ∧ ∀ i j, has_edge (build_graph_with t ecs) i j ↔
      ∃ x y, i ≠ j ∧ ecs !! i = Some x ∧ ecs !! j = Some y ∧ connect_umis x y t = true.
Proof.
  unfold build_graph_with. rewrite graph_nodes_entries.
  assert (∀ a b, ¬ has_edge (fresh_entries 0 ecs) a b) as Hno.
  { intros a b (e & He & Hb). rewrite g_lookup_fresh_entries in He.
    destruct (ecs !! a); simplify_eq/=. inversion Hb. }
  destruct (graph_edges_spec t (permutations2 (enumerate ecs))
              (fresh_entries 0 ecs) (fresh_entries 0 ecs)) as [Hs He].
  - intros [[i x] [j y]] Hin. apply elem_of_permutations2 in Hin as (a & b & _ & Ha & Hb).
    apply lookup_enumerate in Ha as [-> Ha], Hb as [-> Hb]. simpl.
    rewrite nodes_fresh_entries, !elem_of_seq.
    apply lookup_lt_Some in Ha, Hb. lia.
  - split; [done|split; [done|]]. intros a b Hab. by apply Hno in Hab.
  - split; [done|]. intros i j. rewrite He. split.
    + intros [Hab|(x & y & Hin & Hc)]; [by apply Hno in Hab|].
      apply elem_of_permutations2 in Hin as (a & b & Hne & Ha & Hb).
      apply lookup_enumerate in Ha as [-> Ha], Hb as [-> Hb].
      exists x, y. done.
    + intros (x & y & Hne & Hi & Hj & Hc). right. exists x, y. split; [|done].
      apply elem_of_permutations2. exists i, j.
      split; [done|]. split; by apply lookup_enumerate.
Qed.

(** C1. Within one cell, for equivalence classes [x] and [y] at different
    positions [i] and [j], the graph has the edge from [i] to [j] exactly
    when the read count of [x] is at least twice that of [y] minus one, their
    feature sets meet, and their UMIs differ in at most [threshold] of the
    positions where both are defined ([compute_cell_counts] takes the
    default, 1); and no node has an edge to itself. *)
Theorem dedup_graph_edges (threshold : Z) (ecs : list eqclass) (i j : nat) (x y : eqclass) :
  ecs !! i = Some x → ecs !! j = Some y → i ≠ j →
  (has_edge (build_graph_with threshold ecs) i j ↔
     (2 * ec_count y - 1 ≤ ec_count x)%Z
     ∧ ec_ft x ∩ ec_ft y ≠ ∅
     ∧ (Z.of_nat (hamming_defined (ec_umi x) (ec_umi y)) ≤ threshold)%Z)
  ∧ (∀ n, ¬ has_edge (build_graph_with threshold ecs) n n)
  ∧ build_graph ecs = build_graph_with 1 ecs.
Proof.
  intros Hi Hj Hne.
  destruct (build_graph_spec threshold ecs) as [_ He].
  split; [|split; [|done]].
  - rewrite He, <- connect_umis_spec. split.
    + intros (x' & y' & _ & Hx & Hy & Hc). congruence.
    + intros Hc. exists x, y. done.
  - intros n Hn. apply He in Hn as (? & ? & Hnn & _). done.
Qed.

Lemma dedup_graph_edges_witness :
  [ec_AAAAA; ec_AAAAT] !! 0 = Some ec_AAAAA
  ∧ [ec_AAAAA; ec_AAAAT] !! 1 = Some ec_AAAAT
  ∧ 0 ≠ 1
  ∧ (has_edge (build_graph_with 1 [ec_AAAAA; ec_AAAAT]) 0 1 ↔
       (2 * ec_count ec_AAAAT - 1 ≤ ec_count ec_AAAAA)%Z
       ∧ ec_ft ec_AAAAA ∩ ec_ft ec_AAAAT ≠ ∅
       ∧ (Z.of_nat (hamming_defined (ec_umi ec_AAAAA) (ec_umi ec_AAAAT)) ≤ 1)%Z).
Proof.
  split; [reflexivity|]. split; [reflexivity|]. split; [lia|].
  apply (dedup_graph_edges 1 [ec_AAAAA; ec_AAAAT] 0 1 ec_AAAAA ec_AAAAT);
    [reflexivity | reflexivity | lia].
Defined.

(** The edge of the example of the specification is there, and its reverse
    is not. *)
Example example_edge :
  to_dict_of_lists (build_graph [ec_AAAAA; ec_AAAAT]) = [(0, [1]); (1, [])].
Proof. vm_compute. reflexivity. Qed.

(** C10. When two equivalence classes connect to each other in both
    directions, both read counts are at most 1; read counts being
    non-negative, each is 0 or 1. *)
Theorem mutual_connection_counts (x y : eqclass) (threshold : Z) :
  connect_umis x y threshold = true → connect_umis y x threshold = true →
  ((ec_count x ≤ 1)%Z ∧ (ec_count y ≤ 1)%Z)
  ∧ ((0 ≤ ec_count x)%Z → ec_count x = 0%Z ∨ ec_count x = 1%Z)
  ∧ ((0 ≤ ec_count y)%Z → ec_count y = 0%Z ∨ ec_count y = 1%Z).
Proof.
  intros Hxy Hyx.
  apply connect_umis_spec in Hxy as (Hxy & _ & _).
  apply connect_umis_spec in Hyx as (Hyx & _ & _).
  repeat split; lia.
Qed.

Lemma mutual_connection_counts_witness :
  connect_umis ec_mutual_a ec_mutual_b 1 = true
  ∧ connect_umis ec_mutual_b ec_mutual_a 1 = true
  ∧ (ec_count ec_mutual_a ≤ 1)%Z.
Proof.
  split; [reflexivity|]. split; [reflexivity|].
  apply (mutual_connection_counts ec_mutual_a ec_mutual_b 1); reflexivity.
Defined.

(** In the graph of a cell, an edge in both directions joins classes whose
    read counts are at most 1. *)
Lemma two_cycle_counts (ecs : list eqclass) (i j : nat) (x y : eqclass) :
  ecs !! i = Some x → ecs !! j = Some y →
  has_edge (build_graph ecs) i j → has_edge (build_graph ecs) j i →
  (ec_count x ≤ 1)%Z ∧ (ec_count y ≤ 1)%Z.
Proof.
  intros Hi Hj Hij Hji.
  destruct (build_graph_spec 1 ecs) as [_ He]. unfold build_graph in *.
  apply He in Hij as (x1 & y1 & _ & Hx1 & Hy1 & Hc1).
  apply He in Hji as (y2 & x2 & _ & Hy2 & Hx2 & Hc2).
  simplify_eq.
  apply connect_umis_spec in Hc1 as (H1 & _ & _).
  apply connect_umis_spec in Hc2 as (H2 & _ & _).
  lia.
Qed.

(** ** The path walk *)

Lemma loops_agree (rec1 rec2 : nat → list nat → res (list nat)) (g : DiGraph)
    (s : gset nat) (succs path : list nat) :
  (s ≠ ∅ → ∀ n p, rec1 n p = rec2 n p) →
  successors_loop rec1 g s succs path = anchor_loop rec2 g s succs path.
Proof.
  intros Hrec. revert path. induction succs as [|n succs IH]; intros path; simpl; [done|].
  destruct (node_ft g n) as [ftn| |]; simpl; [|done|done].
  assert (s ∩ ftn ≠ ∅ ↔ ftn ∩ s ≠ ∅) as Hcomm by (by rewrite (comm_L (∩) s ftn)).
  destruct (decide (s ∩ ftn ≠ ∅)) as [Hs|Hs].
  - rewrite (bool_decide_eq_true_2 _ Hs). simpl.
    destruct (decide (n ∉ path)) as [Hn|Hn].
    + rewrite (bool_decide_eq_true_2 _ Hn).
      rewrite (bool_decide_eq_true_2 ((n ∉ path) ∧ (ftn ∩ s ≠ ∅))) by tauto.
      rewrite Hrec.
      * destruct (rec2 n path); simpl; [apply IH|done|done].
      * intros ->. apply Hs. apply (left_absorb_L ∅ (∩)).
    + rewrite (bool_decide_eq_false_2 _ Hn).
      rewrite (bool_decide_eq_false_2 ((n ∉ path) ∧ (ftn ∩ s ≠ ∅))) by tauto.
      apply IH.
  - rewrite (bool_decide_eq_false_2 _ Hs). simpl.
    rewrite (bool_decide_eq_false_2 ((n ∉ path) ∧ (ftn ∩ s ≠ ∅))) by tauto.
    apply IH.
Qed.

Lemma pathfinder_given_anchor (fuel : nat) (g : DiGraph) (s : gset nat) (n : nat)
    (path : list nat) :
  s ≠ ∅ → pathfinder fuel g n path (Some s) = anchored_walk fuel g s n path.
Proof.
  intros Hs. revert n path. induction fuel as [|fuel IH]; intros n path; [done|].
  simpl. rewrite (bool_decide_eq_false_2 _ Hs). simpl.
  destruct (successors g n) as [succs| |]; simpl; try done.
  apply loops_agree. intros _. apply IH.
Qed.


Lemma filter_length_lt {A} (P Q : A → Prop) `{!∀ x, Decision (P x)} `{!∀ x, Decision (Q x)}
    (l : list A) (a : A) :
  (∀ x, P x → Q x) → a ∈ l → Q a → ¬ P a →
  length (filter P l) < length (filter Q l).
Proof.
  intros HPQ Ha HQa HPa.
  assert (∀ l' : list A, length (filter P l') ≤ length (filter Q l')) as Hle.
  { induction l' as [|b l' IH]; [done|]. rewrite !filter_cons.
    destruct (decide (P b)) as [Hb|Hb], (decide (Q b)) as [Hb'|Hb']; simpl; try lia.
    exfalso. auto. }
  induction l as [|b l IH]; [inversion Ha|].
  rewrite !filter_cons. apply elem_of_cons in Ha as [<-|Ha].
  - rewrite decide_False, decide_True by done. simpl. specialize (Hle l). lia.
  - specialize (IH Ha).
    destruct (decide (P b)) as [Hb|Hb], (decide (Q b)) as [Hb'|Hb']; simpl; try lia.
    exfalso. auto.
Qed.

Lemma filter_length_le {A} (P Q : A → Prop) `{!∀ x, Decision (P x)} `{!∀ x, Decision (Q x)}
    (l : list A) :
  (∀ x, P x → Q x) → length (filter P l) ≤ length (filter Q l).
Proof.
  intros HPQ. induction l as [|b l IH]; [done|]. rewrite !filter_cons.
  destruct (decide (P b)) as [Hb|Hb], (decide (Q b)) as [Hb'|Hb']; simpl; try lia.
  exfalso. auto.
Qed.

Lemma unvisited_step (g : DiGraph) (path : list nat) (n : nat) :
  n ∈ nodes g → n ∉ path → unvisited g (path ++ [n]) < unvisited g path.
Proof.
  intros Hn Hp. unfold unvisited. apply (filter_length_lt _ _ _ n); try done.
  - intros x Hx Hx'. apply Hx. apply elem_of_app. by left.
  - intros Hx. apply Hx. apply elem_of_app. right. left.
Qed.

Lemma unvisited_mono (g : DiGraph) (path path' : list nat) :
  (∀ x, x ∈ path → x ∈ path') → unvisited g path' ≤ unvisited g path.
Proof.
  intros Hsub. unfold unvisited. apply filter_length_le. intros x Hx Hx'. auto.
Qed.

Lemma unvisited_nil (g : DiGraph) : unvisited g [] = length g.
Proof.
  unfold unvisited, nodes. rewrite <- (length_fmap fst g). f_equal.
  induction (fst <$> g) as [|a l IH]; [done|].
  rewrite filter_cons, decide_True by (intros H; inversion H). by rewrite IH.
Qed.

Lemma wf_node_ft (g : DiGraph) (n : nat) :
  wf_graph g → n ∈ nodes g → ∃ s, node_ft g n = Ok s.
Proof.
  intros Hwf Hn. apply g_lookup_nodes in Hn as [e He].
  destruct (wf_ft g Hwf n e) as [s Hs]; [by apply g_lookup_elem|].
  exists s. unfold node_ft, node_attr. rewrite He, Hs. done.
Qed.

Lemma wf_successors (g : DiGraph) (n : nat) :
  wf_graph g → n ∈ nodes g →
  ∃ succs, successors g n = Ok succs ∧ ∀ v, v ∈ succs → v ∈ nodes g.
Proof.
  intros Hwf Hn. apply g_lookup_nodes in Hn as [e He].
  exists (n_succ e). unfold successors. rewrite He. split; [done|].
  intros v Hv. eapply wf_succ; [done| |done]. by apply g_lookup_elem.
Qed.

Lemma anchor_loop_ok (fuel : nat) (g : DiGraph) (s : gset nat) :
  wf_graph g →
  (∀ node path, node ∈ nodes g → node ∉ path → unvisited g path ≤ fuel →
     ∃ new, anchored_walk fuel g s node path = Ok (path ++ node :: new)
            ∧ fresh_nodes g path (node :: new)) →
  ∀ succs path, (∀ v, v ∈ succs → v ∈ nodes g) → unvisited g path ≤ fuel →
    ∃ new, anchor_loop (anchored_walk fuel g s) g s succs path = Ok (path ++ new)
           ∧ fresh_nodes g path new.
Proof.
  intros Hwf Hrec succs.
  induction succs as [|n succs IH]; intros path Hsuccs Hfuel; simpl.
  - exists []. rewrite app_nil_r. split; [done|]. split; [constructor|].
    intros x Hx. inversion Hx.
  - destruct (wf_node_ft g n Hwf) as [ftn ->]; [apply Hsuccs; left|]. simpl.
    assert (∀ v, v ∈ succs → v ∈ nodes g) as Hsuccs'
      by (intros v Hv; apply Hsuccs; by right).
    case_bool_decide as Htest.
    + destruct Htest as [Hn _].
      destruct (Hrec n path) as (new1 & -> & Hnd1 & Hin1);
        [apply Hsuccs; left | done | done |]. simpl.
      destruct (IH (path ++ n :: new1)) as (new2 & -> & Hnd2 & Hin2); [done| |].
      { etrans; [|exact Hfuel]. apply unvisited_mono.
        intros x Hx. apply elem_of_app. by left. }
      exists ((n :: new1) ++ new2). rewrite <- app_assoc. split; [done|]. split.
      * apply list.NoDup_app. split; [done|]. split; [|done].
        intros x Hx Hx2. apply Hin2 in Hx2 as [_ Hx2]. apply Hx2.
        apply elem_of_app. by right.
      * intros x Hx. apply elem_of_app in Hx as [Hx|Hx]; [by apply Hin1|].
        apply Hin2 in Hx as [Hx1 Hx2]. split; [done|].
        intros Hp. apply Hx2. apply elem_of_app. by left.
    + by apply IH.
Qed.

Lemma anchored_walk_ok (fuel : nat) (g : DiGraph) (s : gset nat) :
  wf_graph g →
  ∀ node path, node ∈ nodes g → node ∉ path → unvisited g path ≤ fuel →
    ∃ new, anchored_walk fuel g s node path = Ok (path ++ node :: new)
           ∧ fresh_nodes g path (node :: new).
Proof.
  intros Hwf. induction fuel as [|fuel IH]; intros node path Hnode Hpath Hfuel.
  - pose proof (unvisited_step g path node Hnode Hpath). lia.
  - simpl. destruct (wf_successors g node Hwf Hnode) as (succs & -> & Hsuccs). simpl.
    destruct (anchor_loop_ok fuel g s Hwf IH succs (path ++ [node])) as (new & -> & Hnd & Hin);
      [done| |].
    { pose proof (unvisited_step g path node Hnode Hpath). lia. }
    exists new. rewrite <- app_assoc. split; [done|]. split.
    + apply list.NoDup_cons. split; [|done].
      intros Hx. apply Hin in Hx as [_ Hx]. apply Hx. apply elem_of_app. right. left.
    + intros x Hx. apply elem_of_cons in Hx as [->|Hx]; [done|].
      apply Hin in Hx as [Hx1 Hx2]. split; [done|].
      intros Hp. apply Hx2. apply elem_of_app. by left.
Qed.

Lemma pathfinder_unfold (fuel : nat) (graph : DiGraph) (node : nat)
    (path : list nat) (features : option (gset nat)) :
  pathfinder (S fuel) graph node path features
  = anchor ← walk_anchor graph node features;
    anchored_walk (S fuel) graph anchor node path.
Proof.
  unfold walk_anchor. simpl.
  destruct (if not_features features then node_ft graph node
            else Ok (default ∅ features)) as [s| |]; simpl; try done.
  destruct (successors graph node) as [succs| |]; simpl; try done.
  apply loops_agree. intros Hs n p. by apply pathfinder_given_anchor.
Qed.

(** The walk that [compute_cell_counts] starts returns: it yields a path
    that begins with the starting node and visits nodes of the graph, each at
    most once. *)
Lemma pathfinder_total (g : DiGraph) (node : nat) :
  wf_graph g → node ∈ nodes g →
  ∃ new, pathfinder (S (length g)) g node [] None = Ok (node :: new)
         ∧ NoDup (node :: new) ∧ ∀ x, x ∈ new → x ∈ nodes g.
Proof.
  intros Hwf Hnode. rewrite pathfinder_unfold. unfold walk_anchor. simpl not_features.
  cbv iota. destruct (wf_node_ft g node Hwf Hnode) as [s ->].
  destruct (anchored_walk_ok (S (length g)) g s Hwf node []) as (new & Hw & Hnd & Hin);
    [done | intros H; inversion H | rewrite unvisited_nil; lia |].
  exists new. split; [exact Hw|]. split; [done|].
  intros x Hx. apply Hin. by right.
Qed.

(** C7. From any graph, starting node and feature set handed in, the walk
    extends the path to a successor exactly when the successor is not on the
    path yet and its feature set meets the anchor, the feature set fixed when
    the walk starts (the one handed in, or that of the starting node when
    none or an empty one is handed in): [pathfinder] is the walk that tests
    every continuation against that one anchor. *)
Theorem pathfinder_anchor_fixed (fuel : nat) (graph : DiGraph) (node : nat)
    (path : list nat) (features : option (gset nat)) :
  pathfinder (S fuel) graph node path features
  = anchor ← walk_anchor graph node features;
    anchored_walk (S fuel) graph anchor node path.
Proof. apply pathfinder_unfold. Qed.

(** The walk goes on to a node whose features meet the anchor even when
    they miss the features shared so far, and stops at a node whose features
    miss the anchor even when they meet those of the node before it. *)
Example pathfinder_chain_wide :
  to_dict_of_lists chain_wide = [(0, [1]); (1, [2]); (2, [])]
  ∧ pathfinder 4 chain_wide 0 [] None = Ok [0; 1; 2].
Proof. split; vm_compute; reflexivity. Qed.

Example pathfinder_chain_narrow :
  to_dict_of_lists chain_narrow = [(0, [1]); (1, [2]); (2, [])]
  ∧ pathfinder 4 chain_narrow 0 [] None = Ok [0; 1].
Proof. split; vm_compute; reflexivity. Qed.
(** ** Removing the nodes of a path *)

Lemma nodes_remove (n : nat) (g : DiGraph) :
  nodes ((λ ke : nat * node_entry,
            (ke.1, NodeEntry (n_attr ke.2) (filter (λ v, v ≠ n) (n_succ ke.2))))
           <$> filter (λ ke : nat * node_entry, ke.1 ≠ n) g)
  = filter (λ k, k ≠ n) (nodes g).
Proof.
  unfold nodes. induction g as [|[k e] g IH]; [done|].
  rewrite fmap_cons, !filter_cons. simpl.
  destruct (decide (k ≠ n)); [rewrite !fmap_cons; simpl; f_equal|]; apply IH.
Qed.

Lemma remove_node_ok (g : DiGraph) (n : nat) :
  wf_graph g → n ∈ nodes g →
  ∃ g', remove_node g n = Ok g' ∧ wf_graph g'
        ∧ nodes g' = filter (λ k, k ≠ n) (nodes g).
Proof.
  intros Hwf Hn. unfold remove_node.
  apply g_lookup_nodes in Hn as [e0 ->].
  eexists. split; [done|]. split; [|apply nodes_remove].
  split.
  - rewrite nodes_remove. apply list.NoDup_filter, Hwf.
  - intros k e v Hke Hv. rewrite nodes_remove.
    apply list_elem_of_fmap in Hke as ([k' e'] & [= -> ->] & Hin).
    apply list_elem_of_filter in Hin as [_ Hin].
    simpl in Hv. apply list_elem_of_filter in Hv as [Hvn Hv].
    apply list_elem_of_filter. split; [done|]. by eapply wf_succ.
  - intros k e Hke.
    apply list_elem_of_fmap in Hke as ([k' e'] & [= -> ->] & Hin).
    apply list_elem_of_filter in Hin as [_ Hin]. simpl. by eapply wf_ft.
Qed.

Lemma filter_filter_cons (a : nat) (path l : list nat) :
  filter (λ n, n ∉ path) (filter (λ k, k ≠ a) l) = filter (λ n, n ∉ a :: path) l.
Proof.
  induction l as [|x l IH]; [done|]. rewrite !filter_cons.
  destruct (decide (x ≠ a)) as [Hx|Hx].
  - rewrite filter_cons. destruct (decide (x ∉ path)) as [Hp|Hp].
    + rewrite decide_True; [by rewrite IH|]. rewrite not_elem_of_cons. done.
    + rewrite decide_False; [done|]. rewrite not_elem_of_cons. tauto.
  - rewrite decide_False; [done|]. rewrite not_elem_of_cons. tauto.
Qed.

Lemma filter_all {A} (P : A → Prop) `{!∀ x, Decision (P x)} (l : list A) :
  (∀ x, x ∈ l → P x) → filter P l = l.
Proof.
  induction l as [|a l IH]; intros Hall; [done|].
  rewrite filter_cons, decide_True by (apply Hall; left).
  f_equal. apply IH. intros x Hx. apply Hall. by right.
Qed.

Lemma remove_path_ok (path : list nat) (g : DiGraph) :
  wf_graph g → NoDup path → (∀ x, x ∈ path → x ∈ nodes g) →
  ∃ g', remove_path g path = Ok g' ∧ wf_graph g'
        ∧ nodes g' = filter (λ n, n ∉ path) (nodes g).
Proof.
  unfold remove_path. revert g.
  induction path as [|a path IH]; intros g Hwf Hnd Hsub; simpl.
  - exists g. split; [done|]. split; [done|].
    symmetry. apply filter_all. intros x _ Hx. inversion Hx.
  - apply list.NoDup_cons in Hnd as [Ha Hnd].
    destruct (remove_node_ok g a Hwf) as (g1 & -> & Hwf1 & Hn1); [apply Hsub; left|].
    simpl.
    destruct (IH g1 Hwf1 Hnd) as (g' & -> & Hwf' & Hn').
    { intros x Hx. rewrite Hn1. apply list_elem_of_filter. split.
      - intros ->. done.
      - apply Hsub. by right. }
    exists g'. split; [done|]. split; [done|].
    rewrite Hn', Hn1. apply filter_filter_cons.
Qed.
(** ** The paths of one parent *)

Lemma walk_step_ok (subg : DiGraph) (st : walk_state) (node : nat) :
  walk_inv subg st → node ∈ nodes subg →
  ∃ st', walk_step st node = Ok st' ∧ walk_inv subg st'
         ∧ node ∈ blacklist st'
         ∧ (∀ x, x ∈ blacklist st → x ∈ blacklist st').
Proof.
  intros Hinv Hnode. unfold walk_step. case_bool_decide as Hb.
  - exists st. done.
  - assert (node ∈ nodes (subg_copy st)) as Hin.
    { rewrite (wi_nodes _ _ Hinv). by apply list_elem_of_filter. }
    destruct (pathfinder_total (subg_copy st) node (wi_wf _ _ Hinv) Hin)
      as (new & -> & Hnd & Hnew).
    simpl.
    assert (∀ x, x ∈ node :: new → x ∈ nodes (subg_copy st)) as Hsub.
    { intros x Hx. apply elem_of_cons in Hx as [->|Hx]; auto. }
    destruct (remove_path_ok (node :: new) (subg_copy st) (wi_wf _ _ Hinv) Hnd Hsub)
      as (g' & -> & Hwf' & Hn').
    eexists. split; [done|]. simpl. split; [|split].
    + split; simpl.
      * done.
      * rewrite Hn', (wi_nodes _ _ Hinv). clear.
        induction (nodes subg) as [|x l IH]; [done|].
        rewrite !filter_cons. destruct (decide (x ∉ blacklist st)) as [Hx|Hx].
        -- rewrite filter_cons. destruct (decide (x ∉ node :: new)) as [Hx'|Hx'].
           ++ rewrite decide_True; [by rewrite IH|].
              rewrite elem_of_app. tauto.
           ++ rewrite decide_False; [done|]. rewrite elem_of_app. tauto.
        -- rewrite decide_False; [done|]. rewrite elem_of_app. tauto.
      * rewrite concat_app, (wi_black _ _ Hinv). simpl. by rewrite app_nil_r.
      * apply list.NoDup_app. split; [apply Hinv|]. split; [|done].
        intros x Hx Hx'. apply Hsub in Hx'. rewrite (wi_nodes _ _ Hinv) in Hx'.
        apply list_elem_of_filter in Hx' as [Hx' _]. done.
      * intros x Hx. apply elem_of_app in Hx as [Hx|Hx]; [by apply Hinv|].
        apply Hsub in Hx. rewrite (wi_nodes _ _ Hinv) in Hx.
        apply list_elem_of_filter in Hx as [_ Hx]. done.
      * apply Forall_app. split; [apply Hinv|]. by repeat constructor.
    + apply elem_of_app. right. left.
    + intros x Hx. apply elem_of_app. by left.
Qed.

Lemma walk_nodes_ok (subg : DiGraph) (l : list nat) (st : walk_state) :
  walk_inv subg st → (∀ x, x ∈ l → x ∈ nodes subg) →
  ∃ st', res_foldl walk_step st l = Ok st' ∧ walk_inv subg st'
         ∧ (∀ x, x ∈ l → x ∈ blacklist st')
         ∧ (∀ x, x ∈ blacklist st → x ∈ blacklist st').
Proof.
  revert st. induction l as [|a l IH]; intros st Hinv Hsub; simpl.
  - exists st. split; [done|]. split; [done|]. split; [|done].
    intros x Hx. inversion Hx.
  - destruct (walk_step_ok subg st a Hinv) as (st1 & -> & Hinv1 & Ha & Hmono1);
      [apply Hsub; left|]. simpl.
    destruct (IH st1 Hinv1) as (st' & -> & Hinv' & Hall & Hmono');
      [intros x Hx; apply Hsub; by right|].
    exists st'. split; [done|]. split; [done|]. split.
    + intros x Hx. apply elem_of_cons in Hx as [->|Hx]; auto.
    + auto.
Qed.

Lemma walk_inv_init (subg : DiGraph) :
  wf_graph subg → walk_inv subg (WalkState [] (copy subg) [] []).
Proof.
  intros Hwf. split; simpl; try done.
  - symmetry. apply filter_all. intros x _ Hx. inversion Hx.
  - constructor.
  - intros x Hx. inversion Hx.
Qed.

Lemma parent_paths_ok (subg : DiGraph) (parent : nat) :
  wf_graph subg → parent ∈ nodes subg →
  ∃ config last, parent_paths subg parent = Ok (config, last)
                 ∧ partitions subg config.
Proof.
  intros Hwf Hparent. unfold parent_paths.
  destruct (walk_nodes_ok subg (parent :: filter (λ x, x ≠ parent) (nodes (copy subg)))
              (WalkState [] (copy subg) [] []) (walk_inv_init subg Hwf))
    as (st & -> & Hinv & Hall & _).
  { intros x Hx. apply elem_of_cons in Hx as [->|Hx]; [done|].
    by apply list_elem_of_filter in Hx as [_ Hx]. }
  simpl. exists (found st), (last_path st). split; [done|].
  split; [|apply Hinv].
  rewrite <- (wi_black _ _ Hinv).
  apply NoDup_Permutation; [apply Hinv | apply Hwf |].
  intros x. split; [apply Hinv|]. intros Hx. apply Hall.
  destruct (decide (x = parent)) as [->|Hne]; [left|right].
  by apply list_elem_of_filter.
Qed.
(** ** Every parent, and the selection *)

Lemma all_paths_ok (subg : DiGraph) (parents : list nat)
    (acc : list (nat * list (list nat))) (last0 : list nat) :
  wf_graph subg → (∀ x, x ∈ parents → x ∈ nodes subg) →
  ∃ paths last,
    res_foldl (λ acc parent, r ← parent_paths subg parent;
                             Ok (acc.1 ++ [(parent, r.1)], r.2))
              (acc, last0) parents = Ok (acc ++ paths, last)
    ∧ paths.*1 = parents
    ∧ Forall (λ kv : nat * list (list nat),
                (∃ l, parent_paths subg kv.1 = Ok (kv.2, l)) ∧ partitions subg kv.2) paths.
Proof.
  intros Hwf. revert acc last0.
  induction parents as [|p parents IH]; intros acc last0 Hsub; simpl.
  - exists [], last0. rewrite app_nil_r. done.
  - destruct (parent_paths_ok subg p Hwf) as (config & l & Hp & Hpart); [apply Hsub; left|].
    rewrite Hp. simpl.
    destruct (IH (acc ++ [(p, config)]) l) as (paths & last & -> & Hk & Hall);
      [intros x Hx; apply Hsub; by right|].
    exists ((p, config) :: paths), last. rewrite <- app_assoc. split; [done|].
    split; [rewrite fmap_cons; simpl; by rewrite Hk|].
    constructor; [|done]. simpl. eauto.
Qed.

Lemma foldl_min_le (l : list nat) (x : nat) :
  foldl Nat.min x l ≤ x ∧ (∀ y, y ∈ l → foldl Nat.min x l ≤ y)
  ∧ (foldl Nat.min x l = x ∨ foldl Nat.min x l ∈ l).
Proof.
  revert x. induction l as [|a l IH]; intros x; simpl.
  - split; [lia|]. split; [|by left]. intros y Hy. inversion Hy.
  - destruct (IH (x `min` a)) as (H1 & H2 & H3). split; [lia|]. split.
    + intros y Hy. apply elem_of_cons in Hy as [->|Hy]; [lia|auto].
    + destruct H3 as [H3|H3]; [|right; by right].
      rewrite H3.
      destruct (Nat.min_spec x a) as [[_ Hm]|[_ Hm]]; rewrite Hm.
      * by left.
      * right. left.
Qed.

Lemma py_min_spec (l : list nat) :
  l ≠ [] → ∃ m, py_min l = Ok m ∧ m ∈ l ∧ ∀ y, y ∈ l → m ≤ y.
Proof.
  destruct l as [|x l]; [done|]. intros _. simpl.
  destruct (foldl_min_le l x) as (H1 & H2 & H3).
  eexists. split; [done|]. split.
  - destruct H3 as [->|H3]; [left | by right].
  - intros y Hy. apply elem_of_cons in Hy as [->|Hy]; auto.
Qed.

Lemma select_fold (all : list (nat * list (list nat))) (m : nat)
    (paths : list (nat * list (list nat))) (acc : list (list (list nat))) :
  py_min (length <$> all.*2) = Ok m →
  res_foldl (λ acc (kv : nat * list (list nat)),
               m ← py_min (length <$> all.*2);
               Ok (if decide (length kv.2 = m) then acc ++ [kv.2] else acc))
            acc paths
  = Ok (acc ++ (filter (λ kv : nat * list (list nat), length kv.2 = m) paths).*2).
Proof.
  intros Hm. rewrite Hm. cbn [mbind res_mbind res_bind].
  revert acc. induction paths as [|kv paths IH]; intros acc.
  - simpl. by rewrite app_nil_r.
  - cbn [res_foldl mbind res_mbind res_bind].
    rewrite filter_cons.
    destruct (decide (length kv.2 = m)); rewrite IH; [|done].
    rewrite fmap_cons. by rewrite <- app_assoc.
Qed.

Lemma filter_first {A} (P : A → Prop) `{!∀ x, Decision (P x)} (l : list A) (a : A) :
  a ∈ l → P a →
  ∃ i b rest, l !! i = Some b ∧ P b ∧ filter P l = b :: rest
              ∧ ∀ j c, j < i → l !! j = Some c → ¬ P c.
Proof.
  induction l as [|x l IH]; intros Ha HPa; [inversion Ha|].
  rewrite filter_cons. destruct (decide (P x)) as [Hx|Hx].
  - exists 0, x, (filter P l). split; [done|]. split; [done|]. split; [done|].
    intros j c Hj. lia.
  - apply elem_of_cons in Ha as [->|Ha]; [done|].
    destruct (IH Ha HPa) as (i & b & rest & Hi & Hb & Hf & Hlt).
    exists (S i), b, rest. split; [done|]. split; [done|]. split; [done|].
    intros [|j] c Hj Hc; simpl in Hc.
    + by injection Hc as <-.
    + apply (Hlt j); [lia|done].
Qed.

(** The selection is defined as soon as there is a parent: it is the first
    configuration, in the order of the parents, whose number of paths is the
    least one. *)
Lemma select_config_spec (paths : list (nat * list (list nat))) :
  paths ≠ [] →
  ∃ i k config,
    select_config paths = Ok config
    ∧ paths !! i = Some (k, config)
    ∧ (∀ kv, kv ∈ paths → length config ≤ length kv.2)
    ∧ (∀ j kv, j < i → paths !! j = Some kv → length config < length kv.2).
Proof.
  intros Hne.
  destruct (py_min_spec (length <$> paths.*2)) as (m & Hm & Hin & Hle).
  { destruct paths; [done|]. done. }
  unfold select_config. rewrite (select_fold paths m paths [] Hm). simpl.
  apply list_elem_of_fmap in Hin as (c & Hc & Hin).
  apply list_elem_of_fmap in Hin as ([k0 c0] & Hc0 & Hin). simpl in Hc0. subst c0.
  destruct (filter_first (λ kv : nat * list (list nat), length kv.2 = m) paths (k0, c))
    as (i & [k config] & rest & Hi & Hlen & Hf & Hlt); [done|done|].
  rewrite Hf. simpl in *. exists i, k, config.
  split; [done|]. split; [done|]. split.
  - intros kv Hkv. rewrite Hlen. apply Hle.
    apply list_elem_of_fmap. exists kv.2. split; [done|].
    apply list_elem_of_fmap. eauto.
  - intros j kv Hj Hkv. specialize (Hlt j kv Hj Hkv). simpl in Hlt.
    assert (m ≤ length kv.2); [|lia].
    apply Hle. apply list_elem_of_fmap. exists kv.2. split; [done|].
    apply list_elem_of_fmap. exists kv. split; [done|].
    by eapply list_elem_of_lookup_2.
Qed.
(** ** Parents and features *)

Lemma predecessors_node (g : DiGraph) (x : nat) :
  x ∈ nodes g → predecessors g x = Ok (incoming g x).
Proof.
  intros Hx. unfold predecessors. by apply g_lookup_nodes in Hx as [e ->].
Qed.

Lemma find_parents_spec (subg : DiGraph) : find_parents subg = Ok (orphans subg).
Proof.
  unfold find_parents, orphans.
  assert (∀ l acc, (∀ x, x ∈ l → x ∈ nodes subg) →
            res_foldl (λ acc x, ps ← predecessors subg x;
                                Ok (if decide (ps = []) then acc ++ [x] else acc)) acc l
            = Ok (acc ++ filter (λ x, incoming subg x = []) l)) as Hgen.
  { induction l as [|a l IH]; intros acc Hsub.
    - simpl. by rewrite app_nil_r.
    - cbn [res_foldl]. rewrite (predecessors_node subg a) by (apply Hsub; left).
      cbn [mbind res_mbind res_bind]. rewrite filter_cons.
      rewrite IH by (intros x Hx; apply Hsub; by right).
      destruct (decide (incoming subg a = [])); [|done]. by rewrite <- app_assoc. }
  rewrite Hgen; done.
Qed.

Lemma res_map_ok {A B} (f : A → res B) (g : A → B) (l : list A) :
  (∀ x, x ∈ l → f x = Ok (g x)) → res_map f l = Ok (g <$> l).
Proof.
  induction l as [|a l IH]; intros Hf; simpl; [done|].
  rewrite Hf by left. simpl. rewrite IH; [done|].
  intros x Hx. apply Hf. by right.
Qed.

(** The feature set of a node of a well-formed graph, the empty set
    elsewhere. *)
Lemma node_ft_total (g : DiGraph) :
  wf_graph g → ∃ ftf : nat → gset nat, ∀ n, n ∈ nodes g → node_ft g n = Ok (ftf n).
Proof.
  intros Hwf.
  exists (λ n, match node_ft g n with Ok s => s | _ => ∅ end).
  intros n Hn. by destruct (wf_node_ft g n Hwf Hn) as [s ->].
Qed.

Lemma mjoin_replicate_singleton {A} (n : nat) (x : A) :
  mjoin (replicate n [x]) = replicate n x.
Proof. induction n as [|n IH]; simpl; [done|]. by rewrite IH. Qed.

Lemma elem_of_concat {A} (x : A) (ls : list (list A)) :
  x ∈ concat ls ↔ ∃ l, x ∈ l ∧ l ∈ ls.
Proof.
  induction ls as [|l0 ls IH]; simpl.
  - split; [intros H; inversion H | intros (l & _ & H); inversion H].
  - rewrite elem_of_app, IH. split.
    + intros [H|(l & H1 & H2)]; [exists l0; split; [done|left] | exists l; split; [done|by right]].
    + intros (l & H1 & H2). apply elem_of_cons in H2 as [->|H2]; [by left | right; eauto].
Qed.

Lemma partitions_heads (subg : DiGraph) (config : list (list nat)) :
  partitions subg config →
  Forall (λ p : list nat, ∃ x, head p = Some x ∧ x ∈ nodes subg) config.
Proof.
  intros [Hperm Hne]. apply list.Forall_forall. intros p Hp.
  rewrite list.Forall_forall in Hne. specialize (Hne p Hp).
  destruct p as [|x p]; [done|]. exists x. split; [done|].
  rewrite <- Hperm. apply elem_of_concat. exists (x :: p). split; [left|done].
Qed.

Lemma path_features_parent (subg : DiGraph) (config : list (list nat)) :
  wf_graph subg → partitions subg config →
  ∃ features, path_features subg None config = Ok features
    ∧ Forall2 (λ (p : list nat) (feats : list nat),
                 ∃ x s, head p = Some x ∧ node_ft subg x = Ok s ∧ feats = elements s)
              config features.
Proof.
  intros Hwf Hpart. apply partitions_heads in Hpart. unfold path_features.
  induction Hpart as [|p config (x & Hx & Hin) _ IH]; simpl.
  - exists []. split; [done|constructor].
  - destruct p as [|x' p]; [done|]. injection Hx as ->.
    destruct (wf_node_ft subg x Hwf Hin) as [s Hs]. rewrite Hs. simpl.
    destruct IH as (features & -> & Hall). simpl.
    eexists. split; [done|]. constructor; [|done]. exists x, s. done.
Qed.

Lemma union_of_features_spec (subg : DiGraph) (ftf : nat → gset nat) :
  (∀ n, n ∈ nodes subg → node_ft subg n = Ok (ftf n)) →
  union_of_features subg (⋃ (ftf <$> nodes subg)).
Proof.
  intros Hft f. rewrite elem_of_union_list. split.
  - intros (s & Hs & Hf). apply list_elem_of_fmap in Hs as (n & -> & Hn).
    exists n, (ftf n). auto.
  - intros (n & s & Hn & Hs & Hf). rewrite (Hft n Hn) in Hs. injection Hs as <-.
    exists (ftf n). split; [|done]. apply list_elem_of_fmap. eauto.
Qed.

Lemma resolve_ok (subg : DiGraph) :
  wf_graph subg → subg ≠ [] → ∃ r, resolve subg = Ok r ∧ resolved_ok subg r.
Proof.
  intros Hwf Hne. unfold resolve, parents_and_features.
  rewrite find_parents_spec. cbn [mbind res_mbind res_bind].
  destruct (node_ft_total subg Hwf) as [ftf Hft].
  assert (∃ n0 rest, nodes subg = n0 :: rest) as (n0 & rest & Hnodes).
  { destruct subg as [|[k e] g]; [done|]. by exists k, (nodes g). }
  set (parents := match orphans subg with [] => nodes subg | _ :: _ => orphans subg end).
  set (features0 := match orphans subg with
                    | [] => Some [elements (⋃ (ftf <$> nodes subg))]
                    | _ :: _ => None
                    end).
  assert (match orphans subg with
          | [] => fts ← res_map (node_ft subg) (nodes subg);
                  u ← set_union fts; Ok (nodes subg, Some [elements u])
          | _ :: _ => Ok (orphans subg, None)
          end = Ok (parents, features0)) as ->.
  { unfold parents, features0. destruct (orphans subg); [|done].
    rewrite (res_map_ok _ ftf) by done. simpl. rewrite Hnodes. simpl. done. }
  cbn [mbind res_mbind res_bind fst snd].
  assert (parents ≠ [] ∧ ∀ x, x ∈ parents → x ∈ nodes subg) as [Hpne Hpsub].
  { unfold parents, orphans. destruct (filter _ _) as [|a l] eqn:Hf.
    - rewrite Hnodes. done.
    - split; [done|]. intros x Hx. rewrite <- Hf in Hx.
      by apply list_elem_of_filter in Hx as [_ Hx]. }
  unfold all_paths.
  destruct (all_paths_ok subg parents [] [] Hwf Hpsub) as (paths & last & -> & Hkeys & Hall).
  cbn [mbind res_mbind res_bind fst snd app].
  destruct (select_config_spec paths) as (i & k & config & -> & Hi & Hle & Hlt).
  { intros ->. by destruct parents. }
  cbn [mbind res_mbind res_bind].
  assert (partitions subg config) as Hpart.
  { rewrite list.Forall_forall in Hall.
    apply (Hall (k, config)). by eapply list_elem_of_lookup_2. }
  unfold features0. destruct (orphans subg) as [|o os] eqn:Ho.
  - simpl. eexists. split; [done|].
    split; simpl; try done.
    + by rewrite Ho.
    + exists i, k. done.
    + intros _. exists (⋃ (ftf <$> nodes subg)).
      split; [by apply union_of_features_spec|].
      apply mjoin_replicate_singleton.
  - destruct (path_features_parent subg config Hwf Hpart) as (features & -> & Hf2).
    simpl. eexists. split; [done|].
    split; simpl; try done.
    + by rewrite Ho.
    + exists i, k. done.
    + intros Ho'. by rewrite Ho' in Ho.
Qed.
(** ** The subgraphs of a cell *)

Lemma elem_of_filter_atlas (atlas : list nat) (c : gset nat) (x : nat) :
  x ∈ filter_atlas atlas c ↔ x ∈ atlas ∧ x ∈ c.
Proof.
  unfold filter_atlas. case_bool_decide; rewrite list_elem_of_filter.
  - rewrite elem_of_elements. tauto.
  - tauto.
Qed.

Lemma NoDup_filter_atlas (atlas : list nat) (c : gset nat) :
  NoDup atlas → NoDup (filter_atlas atlas c).
Proof.
  intros Hnd. unfold filter_atlas. case_bool_decide; apply list.NoDup_filter; [|done].
  apply NoDup_elements.
Qed.

Lemma nodes_omap (g : DiGraph) (f : node_entry → node_entry) (l : list nat) :
  (∀ x, x ∈ l → x ∈ nodes g) →
  nodes (omap (λ n, e ← g_lookup g n; Some (n, f e)) l) = l.
Proof.
  unfold nodes at 2. induction l as [|a l IH]; intros Hsub; [done|].
  simpl. destruct (proj2 (g_lookup_nodes g a)) as [e ->]; [apply Hsub; left|].
  simpl. f_equal. apply IH. intros x Hx. apply Hsub. by right.
Qed.

Lemma nodes_subgraph (g : DiGraph) (c : gset nat) :
  nodes (subgraph g c) = filter_atlas (nodes g) c.
Proof.
  unfold subgraph.
  apply (nodes_omap g (λ e, NodeEntry (n_attr e) (filter_atlas (n_succ e) c))).
  intros x Hx. by apply elem_of_filter_atlas in Hx as [Hx _].
Qed.

Lemma elem_of_subgraph (g : DiGraph) (c : gset nat) (n : nat) (e' : node_entry) :
  (n, e') ∈ subgraph g c →
  ∃ e, (n, e) ∈ g ∧ n ∈ c ∧ e' = NodeEntry (n_attr e) (filter_atlas (n_succ e) c).
Proof.
  unfold subgraph. intros Hin. apply list_elem_of_omap in Hin as (n' & Hn' & Hf).
  destruct (g_lookup g n') as [e|] eqn:He; simpl in Hf; [|done].
  injection Hf as -> <-. exists e. split; [by apply g_lookup_elem|].
  split; [|done]. by apply elem_of_filter_atlas in Hn' as [_ Hn'].
Qed.

Lemma wf_subgraph (g : DiGraph) (c : gset nat) : wf_graph g → wf_graph (subgraph g c).
Proof.
  intros Hwf. split.
  - rewrite nodes_subgraph. apply NoDup_filter_atlas, Hwf.
  - intros n e' v Hin Hv. apply elem_of_subgraph in Hin as (e & Hin & Hn & ->).
    simpl in Hv. apply elem_of_filter_atlas in Hv as [Hv Hc].
    rewrite nodes_subgraph. apply elem_of_filter_atlas. split; [|done].
    by eapply wf_succ.
  - intros n e' Hin. apply elem_of_subgraph in Hin as (e & Hin & Hn & ->).
    simpl. by eapply wf_ft.
Qed.

Lemma wf_build_graph (t : Z) (ecs : list eqclass) : wf_graph (build_graph_with t ecs).
Proof.
  destruct (build_graph_spec t ecs) as [(Hn & Ha & He) _].
  assert (NoDup (nodes (build_graph_with t ecs))) as Hnd.
  { rewrite Hn, nodes_fresh_entries. apply list.NoDup_seq. }
  split; [done| |].
  - intros n e v Hin Hv. rewrite Hn. apply (He n v).
    exists e. split; [by apply elem_g_lookup|done].
  - intros n e Hin. apply elem_g_lookup in Hin; [|done].
    specialize (Ha n). rewrite Hin, g_lookup_fresh_entries in Ha.
    destruct (ecs !! n) as [x|]; simpl in Ha; [|done].
    injection Ha as ->. exists (ec_ft x). unfold node_attrs.
    by rewrite lookup_insert_eq.
Qed.

Lemma expand_incl (g : DiGraph) (s : gset nat) : s ⊆ expand g s.
Proof. unfold expand. set_solver. Qed.

Lemma component_self (g : DiGraph) (v : nat) : v ∈ component g v.
Proof.
  unfold component. induction (length g) as [|n IH]; simpl.
  - by apply elem_of_singleton.
  - by apply expand_incl.
Qed.

Lemma components_from_elem (g : DiGraph) (vs : list nat) (seen c : gset nat) :
  c ∈ components_from g vs seen → ∃ v, v ∈ vs ∧ v ∈ c.
Proof.
  revert seen. induction vs as [|v vs IH]; intros seen; simpl; [intros H; inversion H|].
  case_bool_decide.
  - intros Hc. destruct (IH _ Hc) as (v' & Hv' & Hin). exists v'. split; [by right|done].
  - intros Hc. apply elem_of_cons in Hc as [->|Hc].
    + exists v. split; [left | apply component_self].
    + destruct (IH _ Hc) as (v' & Hv' & Hin). exists v'. split; [by right|done].
Qed.

(** Every subgraph that [compute_cell_counts] walks is well formed and has
    a node. *)
Lemma subgraphs_wf (ecs : list eqclass) (k : nat) (subg : DiGraph) :
  subgraphs (build_graph ecs) !! k = Some subg → wf_graph subg ∧ subg ≠ [].
Proof.
  unfold subgraphs. rewrite list_lookup_fmap. intros Hk.
  destruct (connected_components (build_graph ecs) !! k) as [c|] eqn:Hc; [|done].
  injection Hk as <-. split; [apply wf_subgraph, wf_build_graph|].
  apply list_elem_of_lookup_2 in Hc.
  apply components_from_elem in Hc as (v & Hv & Hvc).
  assert (v ∈ nodes (subgraph (build_graph ecs) c)) as Hin
    by (rewrite nodes_subgraph; by apply elem_of_filter_atlas).
  intros Heq. rewrite Heq in Hin. inversion Hin.
Qed.
(** ** The selected configuration *)

Lemma NoDup_concat_unique {A} (ls : list (list A)) (i j : nat) (p q : list A) (x : A) :
  NoDup (concat ls) → ls !! i = Some p → ls !! j = Some q → x ∈ p → x ∈ q → i = j.
Proof.
  revert i j. induction ls as [|l ls IH]; intros i j Hnd Hi Hj Hp Hq; [done|].
  simpl in Hnd. apply list.NoDup_app in Hnd as (_ & Hdisj & Hnd).
  destruct i as [|i], j as [|j]; simpl in Hi, Hj; simplify_eq.
  - done.
  - exfalso. apply (Hdisj x Hp). apply elem_of_concat. exists q.
    split; [done|]. by eapply list_elem_of_lookup_2.
  - exfalso. apply (Hdisj x Hq). apply elem_of_concat. exists p.
    split; [done|]. by eapply list_elem_of_lookup_2.
  - f_equal. by eapply IH.
Qed.

(** On every well-formed graph with a node, whatever its shape, [resolve]
    returns and the selected configuration partitions the nodes. *)
Lemma resolve_partition (subg : DiGraph) :
  wf_graph subg → subg ≠ [] →
  ∃ r, resolve subg = Ok r
    ∧ concat (r_path_config r) ≡ₚ nodes subg
    ∧ NoDup (concat (r_path_config r))
    ∧ ∀ x, x ∈ nodes subg →
        ∃ i p, r_path_config r !! i = Some p ∧ x ∈ p
               ∧ ∀ j q, r_path_config r !! j = Some q → x ∈ q → j = i.
Proof.
  intros Hwf Hne. destruct (resolve_ok subg Hwf Hne) as (r & Hr & Hok).
  exists r. split; [done|].
  destruct (ro_partition _ _ Hok) as [Hperm _].
  assert (NoDup (concat (r_path_config r))) as Hnd
    by (rewrite Hperm; apply Hwf).
  split; [done|]. split; [done|].
  intros x Hx. rewrite <- Hperm in Hx.
  apply elem_of_concat in Hx as (p & Hxp & Hp).
  apply list_elem_of_lookup_1 in Hp as [i Hi].
  exists i, p. split; [done|]. split; [done|].
  intros j q Hj Hq. by eapply (NoDup_concat_unique _ j i q p x).
Qed.

(** C2. For every weakly-connected subgraph of the graph of a cell, the
    selected path configuration partitions the nodes of the subgraph: its
    paths put end to end list every node once, so every node is on exactly
    one path. This holds whatever the shape of the subgraph, the pure
    bidirectional 2-cycle included. *)
Theorem path_config_partition (ecs : list eqclass) (k : nat) (subg : DiGraph) :
  subgraphs (build_graph ecs) !! k = Some subg →
  ∃ r, resolve subg = Ok r
    ∧ concat (r_path_config r) ≡ₚ nodes subg
    ∧ NoDup (concat (r_path_config r))
    ∧ ∀ x, x ∈ nodes subg →
        ∃ i p, r_path_config r !! i = Some p ∧ x ∈ p
               ∧ ∀ j q, r_path_config r !! j = Some q → x ∈ q → j = i.
Proof.
  intros Hk. apply subgraphs_wf in Hk as [Hwf Hne]. by apply resolve_partition.
Qed.

Lemma path_config_partition_witness :
  subgraphs (build_graph [ec_mutual_a; ec_mutual_b]) !! 0 = Some two_cycle
  ∧ ∃ r, resolve two_cycle = Ok r
      ∧ concat (r_path_config r) ≡ₚ nodes two_cycle
      ∧ NoDup (concat (r_path_config r))
      ∧ ∀ x, x ∈ nodes two_cycle →
          ∃ i p, r_path_config r !! i = Some p ∧ x ∈ p
                 ∧ ∀ j q, r_path_config r !! j = Some q → x ∈ q → j = i.
Proof.
  split; [vm_compute; reflexivity|].
  apply (path_config_partition [ec_mutual_a; ec_mutual_b] 0 two_cycle).
  vm_compute. reflexivity.
Defined.

(** The 2-cycle has no parent; both nodes are taken as parents and the
    configuration of the first one, a single path, is selected. *)
Example two_cycle_resolved :
  to_dict_of_lists two_cycle = [(0, [1]); (1, [0])]
  ∧ ∃ r, resolve two_cycle = Ok r
      ∧ r_parents r = [0; 1]
      ∧ r_paths r = [(0, [[0; 1]]); (1, [[1; 0]])]
      ∧ r_path_config r = [[0; 1]].
Proof. split; [vm_compute; reflexivity|]. eexists. vm_compute. done. Qed.

(** C3. For every weakly-connected subgraph, the selected configuration is
    one of those enumerated from the parents, it has no more paths than the
    configuration of any parent, and every parent that comes before its own
    in the order of iteration has a configuration with more paths: among the
    shortest, the first one is taken. *)
Theorem selected_config_minimal (ecs : list eqclass) (k : nat) (subg : DiGraph) :
  subgraphs (build_graph ecs) !! k = Some subg →
  ∃ r i parent,
    resolve subg = Ok r
    ∧ (r_paths r).*1 = r_parents r
    ∧ (∀ p config, (p, config) ∈ r_paths r →
         ∃ l, parent_paths subg p = Ok (config, l))
    ∧ r_paths r !! i = Some (parent, r_path_config r)
    ∧ (∀ p config, (p, config) ∈ r_paths r →
         length (r_path_config r) ≤ length config)
    ∧ (∀ j p config, j < i → r_paths r !! j = Some (p, config) →
         length (r_path_config r) < length config).
Proof.
  intros Hk. apply subgraphs_wf in Hk as [Hwf Hne].
  destruct (resolve_ok subg Hwf Hne) as (r & Hr & Hok).
  destruct (ro_select _ _ Hok) as (i & parent & Hi & Hle & Hlt).
  exists r, i, parent. split; [done|]. split; [apply Hok|]. split; [|split; [done|split]].
  - intros p config Hin. pose proof (ro_paths _ _ Hok) as Hall.
    rewrite list.Forall_forall in Hall. by destruct (Hall _ Hin) as [Hp _].
  - intros p config Hin. apply (Hle _ Hin).
  - intros j p config Hj Hjp. apply (Hlt j _ Hj Hjp).
Qed.

Lemma selected_config_minimal_witness :
  subgraphs (build_graph [ec_mutual_a; ec_mutual_b]) !! 0 = Some two_cycle
  ∧ ∃ r i parent,
      resolve two_cycle = Ok r
      ∧ (r_paths r).*1 = r_parents r
      ∧ (∀ p config, (p, config) ∈ r_paths r →
           ∃ l, parent_paths two_cycle p = Ok (config, l))
      ∧ r_paths r !! i = Some (parent, r_path_config r)
      ∧ (∀ p config, (p, config) ∈ r_paths r →
           length (r_path_config r) ≤ length config)
      ∧ (∀ j p config, j < i → r_paths r !! j = Some (p, config) →
           length (r_path_config r) < length config).
Proof.
  split; [vm_compute; reflexivity|].
  apply (selected_config_minimal [ec_mutual_a; ec_mutual_b] 0 two_cycle).
  vm_compute. reflexivity.
Defined.

Lemma orphans_nil (subg : DiGraph) :
  (∀ x, x ∈ nodes subg → ∃ u, has_edge subg u x) → orphans subg = [].
Proof.
  intros Hall. unfold orphans.
  induction (nodes subg) as [|x l IH]; [done|].
  rewrite filter_cons. rewrite decide_False.
  - apply IH. intros y Hy. apply Hall. by right.
  - destruct (Hall x) as (u & e & He & Hx); [left|].
    unfold incoming. intros Hnil.
    assert ((u, e) ∈ filter (λ ke : nat * node_entry, x ∈ n_succ ke.2) subg) as Hin.
    { apply list_elem_of_filter. split; [done|]. by apply g_lookup_elem. }
    apply (list_elem_of_fmap_2 fst) in Hin. rewrite Hnil in Hin. inversion Hin.
Qed.

(** C6. For every weakly-connected subgraph in which every node has an
    incoming edge, all the nodes are taken as parents, and the feature list
    of every path of the selected configuration is the same one: the union
    of the feature sets of all the nodes of the subgraph, whatever nodes the
    path is made of. *)
Theorem cycle_features_union (ecs : list eqclass) (k : nat) (subg : DiGraph) :
  subgraphs (build_graph ecs) !! k = Some subg →
  (∀ x, x ∈ nodes subg → ∃ u, has_edge subg u x) →
  ∃ r u,
    resolve subg = Ok r
    ∧ r_parents r = nodes subg
    ∧ (r_paths r).*1 = nodes subg
    ∧ union_of_features subg u
    ∧ length (r_features r) = length (r_path_config r)
    ∧ ∀ i p, r_path_config r !! i = Some p → r_features r !! i = Some (elements u).
Proof.
  intros Hk Hcyc. apply subgraphs_wf in Hk as [Hwf Hne].
  destruct (resolve_ok subg Hwf Hne) as (r & Hr & Hok).
  pose proof (orphans_nil subg Hcyc) as Ho.
  destruct (ro_features_cycle _ _ Hok Ho) as (u & Hu & Hf).
  pose proof (ro_parents _ _ Hok) as Hp. rewrite Ho in Hp.
  exists r, u. split; [done|]. split; [done|].
  split; [by rewrite (ro_keys _ _ Hok)|]. split; [done|].
  rewrite Hf. split; [apply length_replicate|].
  intros i p Hi. apply lookup_replicate_2. by eapply lookup_lt_Some.
Qed.

Lemma cycle_features_union_witness :
  subgraphs (build_graph [ec_mutual_a; ec_mutual_b]) !! 0 = Some two_cycle
  ∧ (∀ x, x ∈ nodes two_cycle → ∃ u, has_edge two_cycle u x)
  ∧ ∃ r u,
      resolve two_cycle = Ok r
      ∧ r_parents r = nodes two_cycle
      ∧ (r_paths r).*1 = nodes two_cycle
      ∧ union_of_features two_cycle u
      ∧ length (r_features r) = length (r_path_config r)
      ∧ ∀ i p, r_path_config r !! i = Some p → r_features r !! i = Some (elements u).
Proof.
  assert (∀ x, x ∈ nodes two_cycle → ∃ u, has_edge two_cycle u x) as Hcyc.
  { intros x Hx. change (nodes two_cycle) with [0; 1] in Hx.
    apply elem_of_cons in Hx as [->|Hx];
      [|apply elem_of_cons in Hx as [->|Hx]; [|inversion Hx]].
    - exists 1. eexists. split; [vm_compute; reflexivity|]. simpl. left.
    - exists 0. eexists. split; [vm_compute; reflexivity|]. simpl. left. }
  split; [vm_compute; reflexivity|]. split; [exact Hcyc|].
  apply (cycle_features_union [ec_mutual_a; ec_mutual_b] 0 two_cycle);
    [vm_compute; reflexivity | exact Hcyc].
Defined.
(** ** Components are closed, and cycles are made of single reads *)

Lemma neighbors_nodes (g : DiGraph) (v x : nat) :
  wf_graph g → x ∈ neighbors g v → x ∈ nodes g.
Proof.
  intros Hwf. unfold neighbors. rewrite elem_of_union, !elem_of_list_to_set.
  intros [Hx|Hx].
  - destruct (g_lookup g v) as [e|] eqn:He; simpl in Hx; [|inversion Hx].
    eapply wf_succ; [done| |done]. by apply g_lookup_elem.
  - apply list_elem_of_fmap in Hx as ([k e] & -> & Hin).
    apply list_elem_of_filter in Hin as [_ Hin].
    by apply (list_elem_of_fmap_2 fst) in Hin.
Qed.

Lemma expand_nodes (g : DiGraph) (s : gset nat) :
  wf_graph g → s ⊆ list_to_set (nodes g) → expand g s ⊆ list_to_set (nodes g).
Proof.
  intros Hwf Hs x. unfold expand. rewrite elem_of_union, elem_of_union_list.
  intros [Hx|(t & Ht & Hx)]; [by apply Hs|].
  apply list_elem_of_fmap in Ht as (v & -> & _).
  apply elem_of_list_to_set. by eapply neighbors_nodes.
Qed.

Lemma expand_iter_grows (g : DiGraph) (v : nat) (k : nat) :
  expand g (Nat.iter k (expand g) {[v]}) = Nat.iter k (expand g) {[v]}
  ∨ k + 1 ≤ size (Nat.iter k (expand g) {[v]}).
Proof.
  induction k as [|k IH].
  - right. change (Nat.iter 0 (expand g) {[v]}) with ({[v]} : gset nat).
    rewrite size_singleton. lia.
  - rewrite !Nat.iter_succ.
    destruct IH as [IH|IH]; [left; by rewrite !IH|].
    destruct (decide (expand g (Nat.iter k (expand g) {[v]})
                      = Nat.iter k (expand g) {[v]})) as [Heq|Hne].
    + left. by rewrite !Heq.
    + right.
      assert (Nat.iter k (expand g) {[v]} ⊂ expand g (Nat.iter k (expand g) {[v]})) as Hlt.
      { split; [apply expand_incl|]. intros Hsub. apply Hne.
        apply set_eq. intros x. split; [apply Hsub | apply expand_incl]. }
      apply subset_size in Hlt. lia.
Qed.

(** The component of a node is closed under the edges of the graph, taken
    in either direction. *)
Lemma component_closed (g : DiGraph) (v : nat) :
  wf_graph g → v ∈ nodes g → expand g (component g v) = component g v.
Proof.
  intros Hwf Hv. unfold component.
  assert (∀ k, Nat.iter k (expand g) {[v]} ⊆ list_to_set (nodes g)) as Hsub.
  { induction k as [|k IH].
    - change (Nat.iter 0 (expand g) {[v]}) with ({[v]} : gset nat).
      intros x Hx. apply elem_of_singleton in Hx as ->. by apply elem_of_list_to_set.
    - rewrite Nat.iter_succ. by apply expand_nodes. }
  destruct (expand_iter_grows g v (length g)) as [Heq|Hsize]; [done|].
  exfalso. specialize (Hsub (length g)).
  apply subseteq_size in Hsub.
  rewrite size_list_to_set in Hsub; [|apply Hwf].
  unfold nodes in Hsub. rewrite length_fmap in Hsub. lia.
Qed.

Lemma has_edge_subgraph (g : DiGraph) (c : gset nat) (u x : nat) :
  wf_graph g → has_edge (subgraph g c) u x → has_edge g u x.
Proof.
  intros Hwf (e' & He' & Hx). apply g_lookup_elem in He'.
  apply elem_of_subgraph in He' as (e & Hin & _ & ->). simpl in Hx.
  apply elem_of_filter_atlas in Hx as [Hx _].
  exists e. split; [|done]. apply elem_g_lookup; [apply Hwf|done].
Qed.

Lemma list_max_elem {A} (f : A → Z) (l : list A) :
  l ≠ [] → ∃ x, x ∈ l ∧ ∀ y, y ∈ l → (f y ≤ f x)%Z.
Proof.
  induction l as [|a l IH]; [done|]. intros _.
  destruct l as [|b l].
  - exists a. split; [left|]. intros y Hy. apply list_elem_of_singleton in Hy as ->. lia.
  - destruct IH as (x & Hx & Hmax); [done|].
    destruct (decide (f x ≤ f a)%Z) as [Hle|Hgt].
    + exists a. split; [left|]. intros y Hy.
      apply elem_of_cons in Hy as [->|Hy]; [lia|]. specialize (Hmax y Hy). lia.
    + exists x. split; [by right|]. intros y Hy.
      apply elem_of_cons in Hy as [->|Hy]; [lia|]. by apply Hmax.
Qed.

(** In a subgraph of a cell where no node is free of incoming edges, every
    equivalence class has a read count of 1 at most. *)
Lemma no_parent_counts (ecs : list eqclass) (k : nat) (subg : DiGraph) :
  subgraphs (build_graph ecs) !! k = Some subg →
  (∀ x, x ∈ nodes subg → ∃ u, has_edge subg u x) →
  ∀ x ec, x ∈ nodes subg → ecs !! x = Some ec → (ec_count ec ≤ 1)%Z.
Proof.
  intros Hk Hcyc.
  pose proof (subgraphs_wf ecs k subg Hk) as [Hwf Hne].
  unfold subgraphs in Hk. rewrite list_lookup_fmap in Hk.
  destruct (connected_components (build_graph ecs) !! k) as [c|]; [|done].
  injection Hk as Hk.
  destruct (build_graph_spec 1 ecs) as [_ He]. fold (build_graph ecs) in He.
  set (cnt := λ n : nat, default 0%Z (ec_count <$> ecs !! n)).
  destruct (list_max_elem cnt (nodes subg)) as (m & Hm & Hmax).
  { intros Hnil. destruct subg; [done|]. done. }
  assert (cnt m ≤ 1)%Z as Hm1.
  { destruct (Hcyc m Hm) as [u Hu].
    assert (u ∈ nodes subg) as Hin.
    { destruct Hu as (e & Hl & _). apply g_lookup_nodes. eauto. }
    specialize (Hmax u Hin).
    rewrite <- Hk in Hu. apply has_edge_subgraph in Hu; [|apply wf_build_graph].
    apply He in Hu as (xu & xm & _ & Hxu & Hxm & Hc).
    apply connect_umis_spec in Hc as (Hc & _ & _).
    unfold cnt in *. rewrite Hxu in Hmax. rewrite Hxm in Hmax |- *. simpl in *. lia. }
  intros x ec Hx Hec. specialize (Hmax x Hx). unfold cnt in Hmax at 1.
  rewrite Hec in Hmax. simpl in Hmax. lia.
Qed.
Lemma build_graph_single (x : eqclass) :
  build_graph [x] = [(0, NodeEntry (node_attrs x) [])].
Proof. reflexivity. Qed.

Lemma subgraphs_single (a : gmap string pyval) :
  subgraphs [(0, NodeEntry a [])] = [[(0, NodeEntry a [])]].
Proof. vm_compute. reflexivity. Qed.

Lemma resolve_single (x : eqclass) :
  resolve [(0, NodeEntry (node_attrs x) [])]
  = Ok (Resolved [0] [(0, [[0]])] [[0]] [elements (ec_ft x)] [0]).
Proof. vm_compute. reflexivity. Qed.

Lemma init_dump_single (x : eqclass) :
  init_dump [x] (build_graph [x]) = Ok [(0, (x, []))].
Proof. reflexivity. Qed.

Lemma dump_paths_single (x : eqclass) (features : list (list nat)) :
  dump_paths features [[0]] [(0, (x, []))] = Ok [(0, (x, [(EmptyString, [])]))].
Proof. reflexivity. Qed.

Lemma report_single (x : eqclass) (r : resolved) (feats : list nat) :
  report_no_features [(0, NodeEntry (node_attrs x) [])] r feats
  = ([MsgAdjacency [(0, [])]; MsgValues [PySet (ec_ft x)]], Raise (KeyError "count")).
Proof. vm_compute. reflexivity. Qed.


Lemma class_attrs_build_graph (t : Z) (ecs : list eqclass) :
  class_attrs (build_graph_with t ecs).
Proof.
  intros n e Hin. destruct (build_graph_spec t ecs) as [(Hn & Ha & _) _].
  apply elem_g_lookup in Hin; [|apply (wf_build_graph t ecs)].
  specialize (Ha n). rewrite Hin, g_lookup_fresh_entries in Ha.
  destruct (ecs !! n) as [x|]; simpl in Ha; [|done].
  injection Ha as ->. by exists x.
Qed.

Lemma class_attrs_subgraph (g : DiGraph) (c : gset nat) :
  class_attrs g → class_attrs (subgraph g c).
Proof.
  intros Hg n e' Hin. apply elem_of_subgraph in Hin as (e & Hin & _ & ->).
  simpl. by eapply Hg.
Qed.

Lemma node_attrs_count (x : eqclass) : node_attrs x !! "count"%string = None.
Proof. reflexivity. Qed.

Lemma node_attrs_ft (x : eqclass) : node_attrs x !! "ft"%string = Some (PySet (ec_ft x)).
Proof. reflexivity. Qed.

Lemma res_map_raise {A B} (f : A → res B) (a : A) (l : list A) (e : exn) :
  f a = Raise e → res_map f (a :: l) = Raise e.
Proof. intros Hf. simpl. by rewrite Hf. Qed.

(** In the graph of a cell no node has an attribute ["count"]: the read
    count is kept under ["c"]. Hence, on every subgraph, the report made when
    a path has no feature stops with a [KeyError] after its second message:
    the read counts, the path configuration and the fatal message never come
    out. *)
Lemma report_no_features_stops (ecs : list eqclass) (k : nat) (subg : DiGraph)
    (r : resolved) (feats : list nat) :
  subgraphs (build_graph ecs) !! k = Some subg →
  ∃ fts, report_no_features subg r feats
         = ([MsgAdjacency (to_dict_of_lists subg); MsgValues fts],
            Raise (KeyError "count")).
Proof.
  intros Hk. pose proof (subgraphs_wf ecs k subg Hk) as [Hwf Hne].
  assert (class_attrs subg) as Hattrs.
  { unfold subgraphs in Hk. rewrite list_lookup_fmap in Hk.
    destruct (connected_components (build_graph ecs) !! k); [|done].
    injection Hk as <-. apply class_attrs_subgraph, class_attrs_build_graph. }
  assert (∀ n, n ∈ nodes subg →
            ∃ x, node_attr subg n "ft" = Ok (PySet (ec_ft x))
                 ∧ node_attr subg n "count" = Raise (KeyError "count")) as Hnode.
  { intros n Hn. apply g_lookup_nodes in Hn as [e He].
    destruct (Hattrs n e) as [x Hx]; [by apply g_lookup_elem|].
    exists x. unfold node_attr. by rewrite He, Hx, node_attrs_ft, node_attrs_count. }
  assert (∃ fts, res_map (λ x, node_attr subg x "ft") (nodes subg) = Ok fts) as [fts Hfts].
  { assert (∀ l, (∀ n, n ∈ l → n ∈ nodes subg) →
              ∃ fts, res_map (λ x, node_attr subg x "ft") l = Ok fts) as Hgen.
    { induction l as [|n l IH]; intros Hl; simpl; [by eexists|].
      destruct (Hnode n) as (x & -> & _); [apply Hl; left|]. simpl.
      destruct IH as [fts ->]; [intros m Hm; apply Hl; by right|]. by eexists. }
    by apply Hgen. }
  exists fts. unfold report_no_features.
  destruct (nodes subg) as [|n0 rest] eqn:Hnodes.
  { destruct subg; [done|]. done. }
  destruct (Hnode n0) as (x & _ & Hc); [left|].
  rewrite Hfts, (res_map_raise _ n0 rest _ Hc). reflexivity.
Qed.

Section Single.

Variable run_em : list (list nat) → nat → list Q.

(** A cell with one equivalence class: what happens is decided by the
    number of its features. *)
Lemma compute_single_feature (x : eqclass) (f : nat)
    (features_index : list (string * nat)) (dumpEC : bool) :
  elements (ec_ft x) = [f] →
  compute_cell_counts run_em [x] features_index dumpEC
  = ([], Ok (CellResult [(f, 1%Q)]
               (if dumpEC then Some [(0, (x, [(EmptyString, [])]))] else None)
               None)).
Proof.
  intros Hf. unfold compute_cell_counts.
  rewrite init_dump_single, build_graph_single, subgraphs_single.
  destruct dumpEC; cbn [mbind res_mbind res_bind lift m_bind m_foldl fst snd];
    unfold process_subgraph; rewrite resolve_single;
    cbn [lift m_bind fst snd r_features r_path_config]; rewrite Hf;
    cbn [m_foldl assign m_bind m_ret fst snd counts em_array dump];
    cbn [mbind res_mbind res_bind]; try rewrite dump_paths_single;
    reflexivity.
Qed.

Lemma compute_many_features (x : eqclass) (f1 f2 : nat) (fs : list nat)
    (features_index : list (string * nat)) (dumpEC : bool) :
  elements (ec_ft x) = f1 :: f2 :: fs →
  ∃ r m, compute_cell_counts run_em [x] features_index dumpEC = ([], Ok r)
         ∧ em_call r = Some m.
Proof.
  intros Hf. unfold compute_cell_counts.
  rewrite init_dump_single, build_graph_single, subgraphs_single.
  destruct dumpEC; cbn [mbind res_mbind res_bind lift m_bind m_foldl fst snd];
    unfold process_subgraph; rewrite resolve_single;
    cbn [lift m_bind fst snd r_features r_path_config]; rewrite Hf;
    cbn [m_foldl assign m_bind m_ret fst snd counts em_array dump];
    cbn [mbind res_mbind res_bind]; try rewrite dump_paths_single;
    eexists; eexists; (split; [reflexivity|]); reflexivity.
Qed.

Lemma compute_no_feature (x : eqclass) (features_index : list (string * nat))
    (dumpEC : bool) :
  elements (ec_ft x) = [] →
  compute_cell_counts run_em [x] features_index dumpEC
  = ([MsgAdjacency [(0, [])]; MsgValues [PySet (ec_ft x)]], Raise (KeyError "count")).
Proof.
  intros Hf. unfold compute_cell_counts.
  rewrite init_dump_single, build_graph_single, subgraphs_single.
  destruct dumpEC; cbn [mbind res_mbind res_bind lift m_bind m_foldl fst snd];
    unfold process_subgraph; rewrite resolve_single;
    cbn [lift m_bind fst snd r_features r_path_config]; rewrite Hf;
    cbn [m_foldl assign m_bind m_ret fst snd counts em_array dump];
    rewrite report_single; reflexivity.
Qed.

(** C4, as amended. For every list made of one equivalence class whose
    feature set holds exactly one feature, the counts of the cell are that
    feature with count 1.0, nothing is reported, and the EM solver is not
    called. *)
Theorem single_class_single_feature (umi : string) (f : nat) (c : Z)
    (features_index : list (string * nat)) (dumpEC : bool) :
  ∃ r, compute_cell_counts run_em [(umi, {[f]}, c)] features_index dumpEC = ([], Ok r)
       ∧ cell_counts r = [(f, 1%Q)]
       ∧ em_call r = None.
Proof.
  eexists. split; [|split].
  - apply (compute_single_feature (umi, {[f]}, c) f).
    unfold ec_ft. simpl. apply elements_singleton.
  - reflexivity.
  - reflexivity.
Qed.

End Single.

(** C4, as stated, fails: a cell of one equivalence class with two features
    has its count settled by the EM solver, which is called on the row
    [[1; 1]]. *)
Lemma single_class_two_features :
  compute_cell_counts run_em_even [ec_ambiguous] two_features false
  = ([], Ok (CellResult [(1, (1 # 2)%Q); (2, (1 # 2)%Q)] None (Some [[1; 1]])))
  ∧ ¬ (∃ r f, compute_cell_counts run_em_even [ec_ambiguous] two_features false = ([], Ok r)
              ∧ cell_counts r = [(f, 1%Q)]
              ∧ em_call r = None).
Proof.
  assert (compute_cell_counts run_em_even [ec_ambiguous] two_features false
          = ([], Ok (CellResult [(1, (1 # 2)%Q); (2, (1 # 2)%Q)] None (Some [[1; 1]])))) as Heq
    by (vm_compute; reflexivity).
  split; [exact Heq|].
  intros (r & f & Hr & _ & Hem). rewrite Heq in Hr.
  injection Hr as <-. discriminate Hem.
Qed.

(** C8, on the code: a cell whose only equivalence class has no feature.
    The adjacency and the feature sets are reported; then the read counts are
    looked up under ["count"], which no node has, and the processing ends
    with a [KeyError] instead of the report of the path configuration and of
    the fatal error. *)
Theorem featureless_class_key_error (run_em : list (list nat) → nat → list Q)
    (features_index : list (string * nat)) (dumpEC : bool) :
  compute_cell_counts run_em [ec_featureless] features_index dumpEC
  = ([MsgAdjacency [(0, [])]; MsgValues [PySet ∅]], Raise (KeyError "count")).
Proof. apply (compute_no_feature run_em ec_featureless). reflexivity. Qed.
(** ** The lines of a shard *)

Lemma round_half_even_near (q : Q) :
  (inject_Z (round_half_even q) - (1 # 2) <= q
   ∧ q <= inject_Z (round_half_even q) + (1 # 2))%Q.
Proof.
  unfold round_half_even.
  pose proof (Qfloor_le q) as Hlo. pose proof (Qlt_floor q) as Hhi.
  rewrite inject_Z_plus in Hhi. change (inject_Z 1) with 1%Q in Hhi.
  destruct (q - inject_Z (Qfloor q) ?= 1 # 2)%Q eqn:Hc.
  - apply Qeq_alt in Hc.
    destruct (Z.even (Qfloor q)); cbv iota; rewrite ?inject_Z_plus;
      change (inject_Z 1) with 1%Q; split; lra.
  - apply Qlt_alt in Hc. split; lra.
  - apply Qgt_alt in Hc. rewrite inject_Z_plus. change (inject_Z 1) with 1%Q.
    split; lra.
Qed.

Lemma round_half_even_floor (q : Q) : (Qfloor q ≤ round_half_even q)%Z.
Proof.
  unfold round_half_even.
  destruct (q - inject_Z (Qfloor q) ?= 1 # 2)%Q; [destruct (Z.even _)| |]; lia.
Qed.

Lemma py_round3_near (count : Q) :
  (count - (1 # 2000) <= py_round3 count ∧ py_round3 count <= count + (1 # 2000))%Q.
Proof.
  unfold py_round3. destruct (round_half_even_near (count * 1000)) as [H1 H2].
  unfold Qdiv. change (/ 1000)%Q with (1 # 1000)%Q. split; lra.
Qed.

Lemma py_round3_positive (count : Q) :
  (1 # 1000 <= count)%Q →
  (1 ≤ round_half_even (count * 1000))%Z ∧ (1 # 1000 <= py_round3 count)%Q.
Proof.
  intros Hc.
  assert (1 ≤ round_half_even (count * 1000))%Z as Hk.
  { etrans; [|apply round_half_even_floor].
    change 1%Z with (Qfloor (inject_Z 1)). apply Qfloor_resp_le.
    change (inject_Z 1) with 1%Q. lra. }
  split; [done|]. unfold py_round3.
  rewrite Zle_Qle in Hk. change (inject_Z 1) with 1%Q in Hk.
  unfold Qdiv. change (/ 1000)%Q with (1 # 1000)%Q. lra.
Qed.

Lemma dict_value_unique {A B} (l : list (A * B)) (x : A) (y1 y2 : B) :
  NoDup (l.*1) → (x, y1) ∈ l → (x, y2) ∈ l → y1 = y2.
Proof.
  induction l as [|[k v] l IH]; intros Hnd H1 H2; [inversion H1|].
  rewrite fmap_cons in Hnd. apply list.NoDup_cons in Hnd as [Hk Hnd].
  apply elem_of_cons in H1 as [H1|H1], H2 as [H2|H2]; simplify_eq.
  - done.
  - exfalso. apply Hk. by apply (list_elem_of_fmap_2 fst) in H2.
  - exfalso. apply Hk. by apply (list_elem_of_fmap_2 fst) in H1.
  - by apply IH.
Qed.

Lemma elem_of_matrix_lines (cellidx : nat) (cellcounts : list (nat * Q)) (l : shard_line) :
  l ∈ matrix_lines cellidx cellcounts ↔
    ∃ feature count, (feature, count) ∈ cellcounts ∧ (1 # 1000 <= count)%Q
                     ∧ l = (feature, cellidx, py_round3 count).
Proof.
  unfold matrix_lines. rewrite list_elem_of_fmap. split.
  - intros ([f c] & -> & Hin). apply list_elem_of_filter in Hin as [Hc Hin].
    simpl in Hc. apply Qle_bool_iff in Hc. exists f, c. done.
  - intros (f & c & Hin & Hc & ->). exists (f, c). split; [done|].
    apply list_elem_of_filter. split; [|done]. simpl. by apply Qle_bool_iff.
Qed.

(** C9. In the mapping of counts of a cell (a dictionary: one count per
    feature), the entry of a feature is written to the shard exactly when its
    count is at least 0.001; the line then holds the feature, the index of the
    barcode and the count rounded to three decimals, in this order; the
    rounded count is a whole number of thousandths, within half a thousandth
    of the count, and at least 0.001: never negative. *)
Theorem shard_lines_threshold (cellidx : nat) (cellcounts : list (nat * Q))
    (feature : nat) (count : Q) :
  NoDup (cellcounts.*1) → (feature, count) ∈ cellcounts →
  ((∃ l, l ∈ matrix_lines cellidx cellcounts ∧ l.1.1 = feature) ↔ (1 # 1000 <= count)%Q)
  ∧ (∀ l, l ∈ matrix_lines cellidx cellcounts → l.1.1 = feature →
       l = (feature, cellidx, py_round3 count))
  ∧ ((1 # 1000 <= count)%Q →
       (feature, cellidx, py_round3 count) ∈ matrix_lines cellidx cellcounts
       ∧ (∃ k : Z, py_round3 count = (inject_Z k / 1000)%Q ∧ (1 ≤ k)%Z)
       ∧ (count - (1 # 2000) <= py_round3 count)%Q
       ∧ (py_round3 count <= count + (1 # 2000))%Q
       ∧ (1 # 1000 <= py_round3 count)%Q).
Proof.
  intros Hnd Hin.
  assert (∀ l, l ∈ matrix_lines cellidx cellcounts → l.1.1 = feature →
            (1 # 1000 <= count)%Q ∧ l = (feature, cellidx, py_round3 count)) as Hline.
  { intros l Hl Hf. apply elem_of_matrix_lines in Hl as (f & c & Hfc & Hc & ->).
    simpl in Hf. subst f.
    assert (c = count) as -> by (by eapply dict_value_unique). done. }
  split; [|split].
  - split.
    + intros (l & Hl & Hf). by destruct (Hline l Hl Hf).
    + intros Hc. exists (feature, cellidx, py_round3 count). split; [|done].
      apply elem_of_matrix_lines. eauto.
  - intros l Hl Hf. by destruct (Hline l Hl Hf).
  - intros Hc. split; [apply elem_of_matrix_lines; eauto|].
    destruct (py_round3_positive count Hc) as [Hk Hpos].
    destruct (py_round3_near count) as [H1 H2].
    split; [|done]. exists (round_half_even (count * 1000)). done.
Qed.

Lemma shard_lines_threshold_witness :
  NoDup ([(1, (1 # 3)%Q); (2, (1 # 3000)%Q)].*1)
  ∧ (1, (1 # 3)%Q) ∈ [(1, (1 # 3)%Q); (2, (1 # 3000)%Q)]
  ∧ ((∃ l, l ∈ matrix_lines 7 [(1, (1 # 3)%Q); (2, (1 # 3000)%Q)] ∧ l.1.1 = 1)
     ↔ (1 # 1000 <= 1 # 3)%Q).
Proof.
  assert (NoDup ([(1, (1 # 3)%Q); (2, (1 # 3000)%Q)].*1)) as Hnd
    by (apply (bool_decide_unpack (NoDup [1; 2])); vm_compute; exact I).
  assert ((1, (1 # 3)%Q) ∈ [(1, (1 # 3)%Q); (2, (1 # 3000)%Q)]) as Hin by left.
  split; [exact Hnd|]. split; [exact Hin|].
  apply (shard_lines_threshold 7 [(1, (1 # 3)%Q); (2, (1 # 3000)%Q)] 1 (1 # 3) Hnd Hin).
Defined.

(** A count of a third is written as 0.333; a count of a third of a
    thousandth is left out. *)
Example shard_lines_example :
  matrix_lines 7 [(1, (1 # 3)%Q); (2, (1 # 3000)%Q)] = [(1, 7, (333 # 1000)%Q)].
Proof. vm_compute. reflexivity. Qed.
(** ** The assembled matrix *)

Lemma sort_leb_true (a b : mm_line) : sort_leb a b = true → barcode_first a b.
Proof.
  unfold sort_leb, barcode_first.
  destruct (decide (mm_barcode a = mm_barcode b)) as [Hb|Hb].
  - destruct (decide (mm_feature a = mm_feature b)) as [Hf|Hf].
    + intros _. right. split; [done|lia].
    + intros H. apply bool_decide_eq_true in H. right. split; [done|lia].
  - intros H. apply bool_decide_eq_true in H. by left.
Qed.

Lemma sort_leb_false (a b : mm_line) : sort_leb a b = false → barcode_first b a.
Proof.
  unfold sort_leb, barcode_first.
  destruct (decide (mm_barcode a = mm_barcode b)) as [Hb|Hb].
  - destruct (decide (mm_feature a = mm_feature b)) as [Hf|Hf].
    + intros _. right. split; [done|lia].
    + intros H. apply bool_decide_eq_false in H. right. split; [done|lia].
  - intros H. apply bool_decide_eq_false in H. left. lia.
Qed.

Lemma barcode_first_trans (a b c : mm_line) :
  barcode_first a b → barcode_first b c → barcode_first a c.
Proof. unfold barcode_first. lia. Qed.

Lemma sort_insert_perm (a : mm_line) (l : list mm_line) : sort_insert a l ≡ₚ a :: l.
Proof.
  induction l as [|b l IH]; simpl; [done|].
  destruct (sort_leb a b); [done|]. rewrite IH. apply Permutation_swap.
Qed.

Lemma sort_insert_sorted (a : mm_line) (l : list mm_line) :
  StronglySorted barcode_first l → StronglySorted barcode_first (sort_insert a l).
Proof.
  induction l as [|b l IH]; intros Hs; simpl.
  - by repeat constructor.
  - apply StronglySorted_inv in Hs as [Hs Hall].
    destruct (sort_leb a b) eqn:Hab.
    + apply sort_leb_true in Hab. constructor; [by constructor|].
      constructor; [done|].
      eapply list.Forall_impl; [exact Hall|]. intros c Hc. by eapply barcode_first_trans.
    + apply sort_leb_false in Hab. constructor; [by apply IH|].
      rewrite sort_insert_perm. by constructor.
Qed.

Lemma shell_sort_spec (files : list (list mm_line)) :
  StronglySorted barcode_first (shell_sort files) ∧ shell_sort files ≡ₚ concat files.
Proof.
  unfold shell_sort. induction (concat files) as [|a l [IH1 IH2]]; simpl.
  - split; [constructor|done].
  - split; [by apply sort_insert_sorted|]. by rewrite sort_insert_perm, IH2.
Qed.

Lemma sum_list_length_concat {A} (ls : list (list A)) :
  sum_list (length <$> ls) = length (concat ls).
Proof.
  induction ls as [|l ls IH]; [done|].
  rewrite fmap_cons. cbn [sum_list sum_list_with concat]. by rewrite length_app, IH.
Qed.

(** C5, as amended. For every set of shard files, the body of the assembled
    matrix holds the lines of the shards, sorted by barcode index first and by
    feature index second; the header records the number of features, the
    number of barcodes and the number of entries summed over the shards, which
    is the number of lines of the body. *)
Theorem formatMM_sorted (matrix_files : list (list mm_line))
    (feature_index : list (string * nat))
    (barcodes_chunks : list (nat * list (string * nat))) :
  StronglySorted barcode_first (mmbody (formatMM matrix_files feature_index barcodes_chunks))
  ∧ mmbody (formatMM matrix_files feature_index barcodes_chunks) ≡ₚ concat matrix_files
  ∧ mmtotal (formatMM matrix_files feature_index barcodes_chunks)
    = (length feature_index,
       sum_list ((λ chunk : nat * list (string * nat), length chunk.2) <$> barcodes_chunks),
       sum_list (length <$> matrix_files))
  ∧ sum_list (length <$> matrix_files)
    = length (mmbody (formatMM matrix_files feature_index barcodes_chunks)).
Proof.
  destruct (shell_sort_spec matrix_files) as [Hs Hp]. simpl.
  split; [done|]. split; [done|]. split; [done|].
  by rewrite Hp, sum_list_length_concat.
Qed.

(** C5, as stated, fails: with one entry for feature 1 in cell 2 and one for
    feature 2 in cell 1, the entry of feature 2 comes first. *)
Lemma formatMM_not_feature_first :
  mmbody (formatMM [[(1, 2, "1.0"%string); (2, 1, "1.0"%string)]] [] [])
  = [(2, 1, "1.0"%string); (1, 2, "1.0"%string)]
  ∧ ¬ Sorted feature_first
        (mmbody (formatMM [[(1, 2, "1.0"%string); (2, 1, "1.0"%string)]] [] [])).
Proof.
  split; [reflexivity|].
  intros Hs. change (mmbody _) with [(2, 1, "1.0"%string); (1, 2, "1.0"%string)] in Hs.
  apply Sorted_inv in Hs as [_ Hhd]. apply HdRel_inv in Hhd.
  unfold feature_first, mm_feature, mm_barcode in Hhd. simpl in Hhd. lia.
Qed.
(** ** The components partition the nodes *)

Lemma elem_of_neighbors (g : DiGraph) (u x : nat) :
  x ∈ neighbors g u ↔
    (∃ e, g_lookup g u = Some e ∧ x ∈ n_succ e) ∨ (∃ e, (x, e) ∈ g ∧ u ∈ n_succ e).
Proof.
  unfold neighbors. rewrite elem_of_union, !elem_of_list_to_set. split.
  - intros [Hx|Hx].
    + left. destruct (g_lookup g u) as [e|]; simpl in Hx; [eauto|inversion Hx].
    + right. apply list_elem_of_fmap in Hx as ([k e] & -> & Hin).
      apply list_elem_of_filter in Hin as [Hu Hin]. eauto.
  - intros [(e & He & Hx)|(e & Hin & Hu)].
    + left. by rewrite He.
    + right. apply list_elem_of_fmap. exists (x, e). split; [done|].
      by apply list_elem_of_filter.
Qed.

Lemma nbr_sym (g : DiGraph) (u x : nat) : wf_graph g → nbr g u x → nbr g x u.
Proof.
  intros Hwf. unfold nbr. rewrite !elem_of_neighbors.
  intros [(e & He & Hx)|(e & Hin & Hu)].
  - right. exists e. split; [by apply g_lookup_elem|done].
  - left. exists e. split; [|done]. apply elem_g_lookup; [apply Hwf|done].
Qed.

Lemma rtc_nbr_sym (g : DiGraph) (u x : nat) :
  wf_graph g → rtc (nbr g) u x → rtc (nbr g) x u.
Proof.
  intros Hwf Hr. induction Hr as [|u y x Huy _ IH]; [done|].
  eapply rtc_r; [exact IH|]. by apply nbr_sym.
Qed.

Lemma elem_of_expand (g : DiGraph) (s : gset nat) (x : nat) :
  x ∈ expand g s ↔ x ∈ s ∨ ∃ y, y ∈ s ∧ nbr g y x.
Proof.
  unfold expand, nbr. rewrite elem_of_union, elem_of_union_list. split.
  - intros [Hx|(t & Ht & Hx)]; [by left|]. right.
    apply list_elem_of_fmap in Ht as (y & -> & Hy). apply elem_of_elements in Hy. eauto.
  - intros [Hx|(y & Hy & Hx)]; [by left|]. right.
    exists (neighbors g y). split; [|done]. apply list_elem_of_fmap.
    exists y. split; [done|]. by apply elem_of_elements.
Qed.

Lemma iter_expand_reach (g : DiGraph) (v : nat) (k : nat) (x : nat) :
  x ∈ Nat.iter k (expand g) {[v]} → rtc (nbr g) v x.
Proof.
  revert x. induction k as [|k IH]; intros x.
  - change (Nat.iter 0 (expand g) {[v]}) with ({[v]} : gset nat).
    intros Hx. apply elem_of_singleton in Hx as ->. done.
  - rewrite Nat.iter_succ, elem_of_expand. intros [Hx|(y & Hy & Hx)]; [by apply IH|].
    eapply rtc_r; [by apply IH|done].
Qed.

(** The component of a node is the set of the nodes joined to it by a chain
    of edges, whatever their direction. *)
Lemma elem_of_component (g : DiGraph) (v x : nat) :
  wf_graph g → v ∈ nodes g → x ∈ component g v ↔ rtc (nbr g) v x.
Proof.
  intros Hwf Hv. split; [apply iter_expand_reach|].
  intros Hr. revert x Hr. apply (rtc_ind_r (λ x, x ∈ component g v)).
  - apply component_self.
  - intros y z _ Hyz IH.
    rewrite <- (component_closed g v Hwf Hv). apply elem_of_expand. right. eauto.
Qed.

Lemma component_nodes (g : DiGraph) (v x : nat) :
  wf_graph g → v ∈ nodes g → x ∈ component g v → x ∈ nodes g.
Proof.
  intros Hwf Hv Hx. apply elem_of_component in Hx; [|done|done].
  revert x Hx. apply (rtc_ind_r (λ x, x ∈ nodes g)); [done|].
  intros y z _ Hyz _. by eapply neighbors_nodes.
Qed.

Lemma components_from_spec (g : DiGraph) (vs : list nat) (seen : gset nat) :
  wf_graph g → (∀ v, v ∈ vs → v ∈ nodes g) →
  (∀ x y, x ∈ seen → nbr g x y → y ∈ seen) →
  NoDup (concat (elements <$> components_from g vs seen))
  ∧ (∀ x, x ∈ concat (elements <$> components_from g vs seen) → x ∈ nodes g ∧ x ∉ seen)
  ∧ (∀ v, v ∈ vs → v ∈ seen ∨ v ∈ concat (elements <$> components_from g vs seen))
  ∧ (∀ c, c ∈ components_from g vs seen → ∃ v, v ∈ nodes g ∧ c = component g v).
Proof.
  intros Hwf. revert seen. induction vs as [|v vs IH]; intros seen Hvs Hclosed.
  - simpl. split; [constructor|]. split; [intros x Hx; inversion Hx|].
    split; intros ? H; inversion H.
  - assert (∀ v, v ∈ vs → v ∈ nodes g) as Hvs' by (intros w Hw; apply Hvs; by right).
    simpl. case_bool_decide as Hseen.
    + destruct (IH seen Hvs' Hclosed) as (H1 & H2 & H3 & H4).
      split; [done|]. split; [done|]. split; [|done].
      intros w Hw. apply elem_of_cons in Hw as [->|Hw]; [by left|auto].
    + assert (v ∈ nodes g) as Hv by (apply Hvs; left).
      assert (∀ x, x ∈ component g v → x ∉ seen) as Hdisj.
      { intros x Hx Hxs. apply Hseen.
        apply elem_of_component in Hx; [|done|done].
        apply rtc_nbr_sym in Hx; [|done]. clear -Hx Hxs Hclosed.
        induction Hx as [|x y z Hxy _ IH]; [done|]. apply IH. by eapply Hclosed. }
      destruct (IH (seen ∪ component g v) Hvs') as (H1 & H2 & H3 & H4).
      { intros x y Hx Hxy. apply elem_of_union in Hx as [Hx|Hx]; apply elem_of_union.
        - left. by eapply Hclosed.
        - right. rewrite <- (component_closed g v Hwf Hv).
          apply elem_of_expand. right. eauto. }
      rewrite fmap_cons. cbn [concat]. split; [|split; [|split]].
      * apply list.NoDup_app. split; [apply NoDup_elements|]. split; [|done].
        intros x Hx Hx'. apply H2 in Hx' as [_ Hx']. apply Hx'.
        apply elem_of_union. right. by apply elem_of_elements.
      * intros x Hx. apply elem_of_app in Hx as [Hx|Hx].
        -- apply elem_of_elements in Hx. split; [by eapply component_nodes|by apply Hdisj].
        -- apply H2 in Hx as [Hx1 Hx2]. split; [done|].
           intros Hs. apply Hx2. apply elem_of_union. by left.
      * intros w Hw. rewrite elem_of_app, elem_of_elements.
        apply elem_of_cons in Hw as [->|Hw].
        -- right. left. apply component_self.
        -- destruct (H3 w Hw) as [Hs|Hc]; [|by right; right].
           apply elem_of_union in Hs as [Hs|Hs]; [by left | by right; left].
      * intros c Hc. apply elem_of_cons in Hc as [->|Hc]; [eauto|auto].
Qed.

Lemma connected_components_partition (g : DiGraph) :
  wf_graph g →
  concat (elements <$> connected_components g) ≡ₚ nodes g
  ∧ ∀ c, c ∈ connected_components g → ∃ v, v ∈ nodes g ∧ c = component g v.
Proof.
  intros Hwf. unfold connected_components.
  destruct (components_from_spec g (nodes g) ∅ Hwf) as (H1 & H2 & H3 & H4);
    [done | intros x y Hx; by apply not_elem_of_empty in Hx |].
  split; [|done].
  apply NoDup_Permutation; [done|apply Hwf|].
  intros x. split; [intros Hx; by apply H2 in Hx as [Hx _]|].
  intros Hx. destruct (H3 x Hx) as [Hs|Hc]; [by apply not_elem_of_empty in Hs|done].
Qed.

Lemma filter_atlas_perm (atlas : list nat) (c : gset nat) :
  NoDup atlas → (∀ x, x ∈ c → x ∈ atlas) → filter_atlas atlas c ≡ₚ elements c.
Proof.
  intros Hnd Hsub.
  apply NoDup_Permutation; [by apply NoDup_filter_atlas | apply NoDup_elements |].
  intros x. rewrite elem_of_filter_atlas, elem_of_elements. split; [tauto|auto].
Qed.

(** The subgraphs that [compute_cell_counts] walks share the nodes of the
    graph among them: every node is a node of exactly one subgraph. *)
Lemma subgraphs_partition (g : DiGraph) :
  wf_graph g → concat (nodes <$> subgraphs g) ≡ₚ nodes g.
Proof.
  intros Hwf. destruct (connected_components_partition g Hwf) as [Hperm Hcomp].
  rewrite <- Hperm. unfold subgraphs. clear Hperm.
  induction (connected_components g) as [|c cs IH]; [done|].
  rewrite !fmap_cons. cbn [concat]. rewrite nodes_subgraph.
  rewrite IH by (intros c' Hc'; apply Hcomp; by right).
  apply Permutation_app_tail. apply filter_atlas_perm; [apply Hwf|].
  destruct (Hcomp c) as (v & Hv & ->); [left|].
  intros x Hx. by eapply component_nodes.
Qed.
(** ** Cells whose classes all have a feature *)

Lemma attrs_of_build_graph (t : Z) (ecs : list eqclass) :
  attrs_of ecs (build_graph_with t ecs).
Proof.
  intros n e Hin. destruct (build_graph_spec t ecs) as [(Hn & Ha & _) _].
  apply elem_g_lookup in Hin; [|apply (wf_build_graph t ecs)].
  specialize (Ha n). rewrite Hin, g_lookup_fresh_entries in Ha.
  destruct (ecs !! n) as [x|]; simpl in Ha; [|done].
  injection Ha as ->. by exists x.
Qed.

Lemma attrs_of_subgraph (ecs : list eqclass) (g : DiGraph) (c : gset nat) :
  attrs_of ecs g → attrs_of ecs (subgraph g c).
Proof.
  intros Hg n e' Hin. apply elem_of_subgraph in Hin as (e & Hin & _ & ->).
  simpl. by eapply Hg.
Qed.

Lemma node_ft_attrs (ecs : list eqclass) (g : DiGraph) (n : nat) (s : gset nat) :
  attrs_of ecs g → node_ft g n = Ok s → ∃ x, ecs !! n = Some x ∧ s = ec_ft x.
Proof.
  intros Hattrs. unfold node_ft, node_attr.
  destruct (g_lookup g n) as [e|] eqn:He; [|done].
  destruct (Hattrs n e) as (x & Hx & Ha); [by apply g_lookup_elem|].
  rewrite Ha, node_attrs_ft. simpl. intros [= <-]. eauto.
Qed.

(** What is known of a subgraph of the graph of a cell. *)
Lemma cell_subgraph (ecs : list eqclass) (subg : DiGraph) :
  subg ∈ subgraphs (build_graph ecs) →
  wf_graph subg ∧ subg ≠ [] ∧ attrs_of ecs subg
  ∧ ∀ x, x ∈ nodes subg → x < length ecs.
Proof.
  intros Hin. apply list_elem_of_lookup_1 in Hin as [k Hk].
  destruct (subgraphs_wf ecs k subg Hk) as [Hwf Hne].
  split; [done|]. split; [done|].
  unfold subgraphs in Hk. rewrite list_lookup_fmap in Hk.
  destruct (connected_components (build_graph ecs) !! k) as [c|]; [|done].
  injection Hk as <-. split; [apply attrs_of_subgraph, attrs_of_build_graph|].
  intros x Hx. rewrite nodes_subgraph in Hx. apply elem_of_filter_atlas in Hx as [Hx _].
  destruct (build_graph_spec 1 ecs) as [(Hn & _ & _) _]. unfold build_graph in Hx.
  rewrite Hn, nodes_fresh_entries in Hx. apply elem_of_seq in Hx. lia.
Qed.

Lemma elements_nonempty (s : gset nat) : s ≠ ∅ → elements s ≠ [].
Proof. intros Hs He. apply Hs. by apply elements_empty_inv, leibniz_equiv in He. Qed.

(** When every class has a feature, every path of the selected
    configuration has one, and there is one list of features per path. *)
Lemma resolved_features_nonempty (ecs : list eqclass) (subg : DiGraph) (r : resolved) :
  (∀ x, x ∈ ecs → ec_ft x ≠ ∅) →
  wf_graph subg → subg ≠ [] → attrs_of ecs subg → resolved_ok subg r →
  length (r_features r) = length (r_path_config r)
  ∧ Forall (λ feats : list nat, feats ≠ []) (r_features r).
Proof.
  intros Hft Hwf Hne Hattrs Hok.
  destruct (decide (orphans subg = [])) as [Ho|Ho].
  - destruct (ro_features_cycle _ _ Hok Ho) as (u & Hu & ->).
    split; [apply length_replicate|].
    apply Forall_replicate. apply elements_nonempty.
    destruct subg as [|[n e] g]; [done|].
    assert (n ∈ nodes ((n, e) :: g)) as Hn by left.
    destruct (wf_node_ft _ n Hwf Hn) as [s Hs].
    destruct (node_ft_attrs ecs _ n s Hattrs Hs) as (x & Hx & ->).
    assert (ec_ft x ≠ ∅) as Hxne by (apply Hft; by eapply list_elem_of_lookup_2).
    apply set_choose_L in Hxne as [f Hf].
    intros Hu0. assert (f ∈ u) as Hfu by (apply Hu; eauto).
    rewrite Hu0 in Hfu. by apply not_elem_of_empty in Hfu.
  - pose proof (ro_features_parent _ _ Hok Ho) as Hf2.
    split; [symmetry; by eapply Forall2_length|].
    apply list.Forall_forall. intros feats Hin.
    apply list_elem_of_lookup_1 in Hin as [i Hi].
    destruct (Forall2_lookup_r _ _ _ _ _ Hf2 Hi) as (p & _ & x & s & _ & Hs & ->).
    destruct (node_ft_attrs ecs _ x s Hattrs Hs) as (ec & Hec & ->).
    apply elements_nonempty, Hft. by eapply list_elem_of_lookup_2.
Qed.

Lemma m_bind_ok {A B} (a : A) (f : A → M B) : m_bind (m_ret a) f = f a.
Proof. unfold m_bind, m_ret. simpl. by destruct (f a). Qed.

Lemma m_bind_lift_ok {A B} (a : A) (f : A → M B) : m_bind (lift (Ok a)) f = f a.
Proof. apply (m_bind_ok a f). Qed.

Lemma assign_nonempty (n : nat) (subg : DiGraph) (r : resolved)
    (acc : list (nat * Q) * list (list nat)) (feats : list nat) :
  feats ≠ [] → assign n subg r acc feats = m_ret (assign_pure n acc feats).
Proof. intros Hne. by destruct feats as [|f [|f' fs]]. Qed.

Lemma assign_fold_nonempty (n : nat) (subg : DiGraph) (r : resolved)
    (features : list (list nat)) (acc : list (nat * Q) * list (list nat)) :
  Forall (λ feats : list nat, feats ≠ []) features →
  m_foldl (assign n subg r) acc features = m_ret (foldl (assign_pure n) acc features).
Proof.
  intros Hall. revert acc. induction Hall as [|feats features Hne _ IH]; intros acc; [done|].
  cbn [m_foldl foldl]. rewrite assign_nonempty by done. rewrite m_bind_ok. apply IH.
Qed.
(** ** The audit dump *)

Lemma dump_get_keys (d : list (nat * dump_row)) (k : nat) :
  (∃ row, dump_get d k = Ok row) ↔ k ∈ d.*1.
Proof.
  induction d as [|[k' row'] d IH]; simpl.
  - split; [intros [? ?]; done | intros H; inversion H].
  - destruct (decide (k' = k)) as [->|Hne].
    + split; [intros _; left | eauto].
    + rewrite IH. split; [by right | intros H; inversion H; by subst].
Qed.

Lemma dump_extend_ok (d : list (nat * dump_row)) (k : nat) (ext : string * list nat)
    (row : dump_row) :
  dump_get d k = Ok row →
  ∃ d', dump_extend d k ext = Ok d'
        ∧ d'.*1 = d.*1
        ∧ dump_get d' k = Ok (row.1, row.2 ++ [ext])
        ∧ ∀ k', k' ≠ k → dump_get d' k' = dump_get d k'.
Proof.
  induction d as [|[k0 row0] d IH]; simpl; [done|].
  destruct (decide (k0 = k)) as [->|Hne].
  - intros [= ->]. eexists. split; [reflexivity|]. split; [reflexivity|]. simpl.
    rewrite decide_True by done. split; [done|].
    intros k' Hk'. destruct (decide (k = k')); [congruence|done].
  - intros Hget. destruct (IH Hget) as (d' & -> & Hkeys & Hk & Hother). simpl.
    eexists. split; [done|]. rewrite !fmap_cons, Hkeys. split; [done|]. simpl.
    rewrite decide_False by done. split; [done|].
    intros k' Hk'. destruct (decide (k0 = k')); [done|]. by apply Hother.
Qed.

Lemma dump_children_ok (features : list (list nat)) (i h : nat) (fi : list nat)
    (rowh : dump_row) (children : list nat) (d : list (nat * dump_row)) :
  features !! i = Some fi → dump_get d h = Ok rowh →
  NoDup children → h ∉ children → (∀ x, x ∈ children → x ∈ d.*1) →
  ∃ d',
    res_foldl (λ dump x,
                 prow ← dump_get dump h;
                 fi ← (match features !! i with
                       | Some fi => Ok fi
                       | None => Raise IndexError
                       end);
                 dump_extend dump x (ec_umi prow.1, fi)) d children = Ok d'
    ∧ d'.*1 = d.*1
    ∧ (∀ x, x ∈ children →
         ∃ row, dump_get d x = Ok row
                ∧ dump_get d' x = Ok (row.1, row.2 ++ [(ec_umi rowh.1, fi)]))
    ∧ (∀ x, x ∉ children → dump_get d' x = dump_get d x).
Proof.
  intros Hfi.
  set (step := λ (dump : list (nat * dump_row)) (x : nat),
                 prow ← dump_get dump h;
                 fi ← (match features !! i with
                       | Some fi => Ok fi
                       | None => Raise IndexError
                       end);
                 dump_extend dump x (ec_umi prow.1, fi)).
  assert (∀ dump x prow, dump_get dump h = Ok prow →
            step dump x = dump_extend dump x (ec_umi prow.1, fi)) as Hstep.
  { intros dump x prow Hp. unfold step. by rewrite Hp, Hfi. }
  clearbody step.
  revert d. induction children as [|c children IH]; intros d Hh Hnd Hhc Hkeys.
  - simpl. exists d. split; [done|]. split; [done|]. split; [|done].
    intros x Hx. inversion Hx.
  - apply list.NoDup_cons in Hnd as [Hc Hnd]. apply not_elem_of_cons in Hhc as [Hhc Hhcs].
    cbn [res_foldl]. rewrite (Hstep d c rowh Hh).
    destruct (proj2 (dump_get_keys d c)) as [rowc Hrowc]; [apply Hkeys; left|].
    destruct (dump_extend_ok d c (ec_umi rowh.1, fi) rowc Hrowc)
      as (d1 & -> & Hkeys1 & Hc1 & Hother1).
    cbn [mbind res_mbind res_bind].
    destruct (IH d1) as (d' & -> & Hkeys' & Hch & Hother'); try done.
    { by rewrite Hother1. }
    { intros x Hx. rewrite Hkeys1. apply Hkeys. by right. }
    exists d'. split; [done|]. split; [by rewrite Hkeys', Hkeys1|]. split.
    + intros x Hx. apply elem_of_cons in Hx as [->|Hx].
      * exists rowc. split; [done|]. by rewrite Hother'.
      * destruct (Hch x Hx) as (row & Hrow & Hrow'). exists row.
        split; [|done]. rewrite <- Hrow. symmetry. apply Hother1. by intros ->.
    + intros x Hx. apply not_elem_of_cons in Hx as [Hxc Hx].
      rewrite Hother' by done. by apply Hother1.
Qed.

(** What the dump loop appends to the row of node [x], found on the path
    of index [i] whose first node is [h]: nothing but empty fields for the
    parent, the UMI of the parent and the features of the path for the
    others. *)
Lemma dump_paths_ok (features : list (list nat)) (path_config : list (list nat))
    (k : nat) (d : list (nat * dump_row)) :
  NoDup (concat path_config) →
  Forall (λ p : list nat, p ≠ []) path_config →
  (∀ x, x ∈ concat path_config → x ∈ d.*1) →
  (∀ i, i < length path_config → is_Some (features !! (k + i))) →
  ∃ d',
    res_foldl
      (λ dump (ip : nat * list nat),
         match ip.2 with
         | [] => Raise IndexError
         | parent_ :: path_ =>
             dump ← dump_extend dump parent_ (EmptyString, []);
             res_foldl
               (λ dump x,
                  prow ← dump_get dump parent_;
                  fi ← (match features !! ip.1 with
                        | Some fi => Ok fi
                        | None => Raise IndexError
                        end);
                  dump_extend dump x (ec_umi prow.1, fi))
               dump path_
         end)
      d (imap (λ i, pair (k + i)) path_config) = Ok d'
    ∧ d'.*1 = d.*1
    ∧ (∀ x, x ∉ concat path_config → dump_get d' x = dump_get d x)
    ∧ (∀ i p h x, path_config !! i = Some p → head p = Some h → x ∈ p →
         ∃ row rowh fi,
           dump_get d x = Ok row ∧ dump_get d h = Ok rowh
           ∧ features !! (k + i) = Some fi
           ∧ dump_get d' x
             = Ok (row.1, row.2 ++ [if decide (x = h) then (EmptyString, [])
                                    else (ec_umi rowh.1, fi)])).
Proof.
  revert k d. induction path_config as [|p ps IH]; intros k d Hnd Hne Hkeys Hfeat.
  - simpl. exists d. split; [done|]. split; [done|]. split; [done|].
    intros i p h x Hi. done.
  - apply list.Forall_cons in Hne as [Hp Hne]. destruct p as [|h children]; [done|].
    cbn [concat] in Hnd, Hkeys. apply list.NoDup_app in Hnd as (Hndp & Hdisj & Hndps).
    apply list.NoDup_cons in Hndp as [Hhc Hndc].
    destruct (Hfeat 0) as [fi Hfi]; [simpl; lia|]. rewrite Nat.add_0_r in Hfi.
    cbn [imap res_foldl snd fst]. rewrite Nat.add_0_r.
    destruct (proj2 (dump_get_keys d h)) as [rowh Hrowh].
    { apply Hkeys. apply elem_of_app. left. left. }
    destruct (dump_extend_ok d h (EmptyString, []) rowh Hrowh)
      as (d1 & -> & Hkeys1 & Hh1 & Hother1).
    cbn [mbind res_mbind res_bind].
    destruct (dump_children_ok features k h fi _ children d1 Hfi Hh1 Hndc Hhc)
      as (d2 & -> & Hkeys2 & Hch2 & Hother2).
    { intros x Hx. rewrite Hkeys1. apply Hkeys. apply elem_of_app. left. by right. }
    cbn [mbind res_mbind res_bind].
    erewrite (imap_ext _ (λ i, pair (S k + i))); [|intros; simpl; f_equal; lia].
    destruct (IH (S k) d2) as (d' & -> & Hkeys' & Hother' & Hpaths'); try done.
    { intros x Hx. rewrite Hkeys2, Hkeys1. apply Hkeys. apply elem_of_app. by right. }
    { intros i Hi. replace (S k + i) with (k + S i) by lia. apply Hfeat. simpl. lia. }
    exists d'. split; [done|]. split; [by rewrite Hkeys', Hkeys2, Hkeys1|].
    assert (∀ x, x ∈ concat ps → dump_get d2 x = dump_get d x) as Hps.
    { intros x Hx. assert (x ∉ h :: children) as Hxp by (intros Hx'; by apply (Hdisj x)).
      apply not_elem_of_cons in Hxp as [Hxh Hxc].
      rewrite Hother2 by done. by apply Hother1. }
    split.
    + intros x Hx.
      change (concat ((h :: children) :: ps)) with ((h :: children) ++ concat ps) in Hx.
      rewrite not_elem_of_app in Hx. destruct Hx as [Hxp Hxps].
      apply not_elem_of_cons in Hxp as [Hxh Hxc].
      rewrite Hother' by done. rewrite Hother2 by done. by apply Hother1.
    + intros [|i] p h' x Hi Hhead Hx; simpl in Hi.
      * injection Hi as <-. simpl in Hhead. injection Hhead as <-.
        assert (x ∉ concat ps) as Hxps by (intros Hx'; by apply (Hdisj x)).
        rewrite Nat.add_0_r. rewrite Hother' by done.
        apply elem_of_cons in Hx as [->|Hx].
        -- exists rowh, rowh, fi. rewrite decide_True by done.
           split; [done|]. split; [done|]. split; [done|].
           rewrite Hother2 by done. done.
        -- destruct (Hch2 x Hx) as (row & Hrow & Hrow').
           exists row, rowh, fi. rewrite decide_False by (by intros ->).
           split; [rewrite <- Hrow; symmetry; apply Hother1; by intros ->|].
           split; [done|]. split; [done|]. done.
      * destruct (Hpaths' i p h' x Hi Hhead Hx) as (row & rowh' & fi' & H1 & H2 & H3 & H4).
        assert (x ∈ concat ps) as Hxps.
        { apply elem_of_concat. exists p. split; [done|]. by eapply list_elem_of_lookup_2. }
        assert (h' ∈ concat ps) as Hhps.
        { apply elem_of_concat. exists p. split; [|by eapply list_elem_of_lookup_2].
          destruct p; [done|]. injection Hhead as ->. left. }
        exists row, rowh', fi'. rewrite <- (Hps x Hxps), <- (Hps h' Hhps).
        replace (k + S i) with (S k + i) by lia. done.
Qed.
(** ** Counts *)

Lemma counter_add_keys (cs : list (nat * Q)) (k : nat) (v : Q) :
  (counter_add cs k v).*1 = if decide (k ∈ cs.*1) then cs.*1 else cs.*1 ++ [k].
Proof.
  induction cs as [|[k' v'] cs IH].
  - destruct (decide (k ∈ ([] : list (nat * Q)).*1)) as [Hin|_]; [inversion Hin|done].
  - cbn [counter_add]. rewrite !fmap_cons. cbn [fst].
    destruct (decide (k' = k)) as [->|Hne].
    + rewrite decide_True by left. done.
    + rewrite fmap_cons, IH. cbn [fst].
      destruct (decide (k ∈ cs.*1)) as [Hin|Hin].
      * by rewrite decide_True by (by right).
      * rewrite decide_False; [done|]. rewrite not_elem_of_cons. split; [congruence|done].
Qed.

Lemma elem_of_counter_add (cs : list (nat * Q)) (k : nat) (v : Q) (kv : nat * Q) :
  kv ∈ counter_add cs k v →
  kv ∈ cs ∨ (kv.1 = k ∧ ((kv.2 = (0 + v)%Q) ∨ ∃ v', (k, v') ∈ cs ∧ kv.2 = (v' + v)%Q)).
Proof.
  induction cs as [|[k' v'] cs IH]; simpl.
  - intros H. apply list_elem_of_singleton in H as ->. right. split; [done|by left].
  - destruct (decide (k' = k)) as [->|Hne].
    + intros H. apply elem_of_cons in H as [->|H]; [|left; by right].
      right. split; [done|]. right. exists v'. split; [left|done].
    + intros H. apply elem_of_cons in H as [->|H]; [left; left|].
      destruct (IH H) as [Hin|(Hk & [Hv|(v0 & Hin & Hv)])].
      * left. by right.
      * right. split; [done|by left].
      * right. split; [done|]. right. exists v0. split; [by right|done].
Qed.

Lemma counts_ok_add (cs : list (nat * Q)) (k : nat) (v : Q) :
  (0 < v)%Q → counts_ok cs → counts_ok (counter_add cs k v).
Proof.
  intros Hv [Hnd Hpos]. split.
  - rewrite counter_add_keys. destruct (decide (k ∈ cs.*1)); [done|].
    apply list.NoDup_app. split; [done|]. split; [|apply NoDup_singleton].
    intros x Hx Hx'. apply list_elem_of_singleton in Hx' as ->. done.
  - intros kv Hin. apply elem_of_counter_add in Hin as [Hin|(_ & [->|(v' & Hin & ->)])].
    + by apply Hpos.
    + lra.
    + specialize (Hpos _ Hin). simpl in Hpos. lra.
Qed.

Lemma total_counter_add (cs : list (nat * Q)) (k : nat) (v : Q) :
  (total (counter_add cs k v) == total cs + v)%Q.
Proof.
  induction cs as [|[k' v'] cs IH]; simpl.
  - lra.
  - destruct (decide (k' = k)); simpl; [lra|]. rewrite IH. lra.
Qed.

Lemma counts_ok_nil : counts_ok [].
Proof. split; [constructor|]. intros kv H. inversion H. Qed.

Lemma assign_pure_step (n : nat) (acc : list (nat * Q) * list (list nat)) (feats : list nat) :
  (molecules (assign_pure n acc feats) == molecules acc + 1)%Q
  ∧ (counts_ok acc.1 → counts_ok (assign_pure n acc feats).1).
Proof.
  unfold molecules, assign_pure.
  assert (∀ row : list nat,
            (inject_Z (Z.of_nat (length (acc.2 ++ [row])))
             == inject_Z (Z.of_nat (length acc.2)) + 1)%Q) as Hrow.
  { intros row. rewrite length_app. simpl. rewrite Nat2Z.inj_add, inject_Z_plus. done. }
  destruct feats as [|f [|f' fs]]; simpl.
  - split; [|done]. rewrite Hrow. lra.
  - split; [|by apply counts_ok_add]. rewrite total_counter_add. lra.
  - split; [|done]. rewrite Hrow. lra.
Qed.

Lemma assign_pure_fold (n : nat) (features : list (list nat))
    (acc : list (nat * Q) * list (list nat)) :
  (molecules (foldl (assign_pure n) acc features)
   == molecules acc + inject_Z (Z.of_nat (length features)))%Q
  ∧ (counts_ok acc.1 → counts_ok (foldl (assign_pure n) acc features).1).
Proof.
  revert acc. induction features as [|feats features IH]; intros acc.
  - simpl. split; [|done]. change (inject_Z (Z.of_nat 0)) with 0%Q. lra.
  - cbn [foldl]. destruct (IH (assign_pure n acc feats)) as [H1 H2].
    destruct (assign_pure_step n acc feats) as [H3 H4].
    split; [|auto]. rewrite H1, H3.
    cbn [length]. rewrite Nat2Z.inj_succ, <- Z.add_1_l, inject_Z_plus.
    change (inject_Z 1) with 1%Q. lra.
Qed.

(** ** One subgraph *)

Lemma m_bind_pair {A B} (l : list msg) (a : A) (f : A → M B) :
  m_bind (l, Ok a) f = (l ++ (f a).1, (f a).2).
Proof. done. Qed.

Lemma process_subgraph_ok (ecs : list eqclass) (n : nat) (st : cell_state)
    (subg : DiGraph) :
  (∀ x, x ∈ ecs → ec_ft x ≠ ∅) →
  subg ∈ subgraphs (build_graph ecs) →
  (∀ d, dump st = Some d → ∀ x, x ∈ nodes subg → x ∈ d.*1) →
  ∃ r st',
    resolve subg = Ok r ∧ resolved_ok subg r
    ∧ process_subgraph n st subg = ([], Ok st')
    ∧ length (r_features r) = length (r_path_config r)
    ∧ (counts st', em_array st')
      = foldl (assign_pure n) (counts st, em_array st) (r_features r)
    ∧ match dump st with
      | None => dump st' = None
      | Some d => ∃ d', dump st' = Some d'
                        ∧ dump_paths (r_features r) (r_path_config r) d = Ok d'
      end.
Proof.
  intros Hft Hin Hkeys.
  destruct (cell_subgraph ecs subg Hin) as (Hwf & Hne & Hattrs & Hlt).
  destruct (resolve_ok subg Hwf Hne) as (r & Hr & Hok).
  destruct (resolved_features_nonempty ecs subg r Hft Hwf Hne Hattrs Hok) as [Hlen Hall].
  unfold process_subgraph. rewrite Hr, m_bind_lift_ok.
  rewrite (assign_fold_nonempty n subg r _ _ Hall), m_bind_ok.
  destruct (ro_partition _ _ Hok) as [Hperm Hpne].
  destruct (dump st) as [d|] eqn:Hd.
  - destruct (dump_paths_ok (r_features r) (r_path_config r) 0 d) as (d' & Hd' & _).
    + rewrite Hperm. apply Hwf.
    + done.
    + intros x Hx. apply (Hkeys d); [done|]. by rewrite <- Hperm.
    + intros i Hi. apply lookup_lt_is_Some. simpl. lia.
    + assert (dump_paths (r_features r) (r_path_config r) d = Ok d') as Hdp by exact Hd'.
      rewrite Hdp. cbn [mbind res_mbind res_bind]. rewrite m_bind_lift_ok.
      eexists r, _. split; [done|]. split; [done|]. split; [reflexivity|].
      split; [done|]. cbn [counts em_array dump]. split; [by destruct (foldl _ _ _)|].
      eauto.
  - rewrite m_bind_lift_ok.
    eexists r, _. split; [done|]. split; [done|]. split; [reflexivity|].
    split; [done|]. cbn [counts em_array dump]. split; [by destruct (foldl _ _ _)|done].
Qed.
(** ** The whole cell *)

Lemma length_concat_nonempty {A} (ls : list (list A)) :
  Forall (λ l : list A, l ≠ []) ls → length ls ≤ length (concat ls).
Proof.
  induction 1 as [|l ls Hl _ IH]; simpl; [done|].
  rewrite length_app. destruct l; [done|]. simpl. lia.
Qed.

Lemma config_size (subg : DiGraph) (config : list (list nat)) :
  subg ≠ [] → partitions subg config →
  1 ≤ length config ∧ length config ≤ length (nodes subg).
Proof.
  intros Hne [Hperm Hall]. split.
  - destruct config as [|p ps]; [|simpl; lia].
    simpl in Hperm. apply Permutation_nil_l in Hperm. by destruct subg.
  - rewrite <- Hperm. by apply length_concat_nonempty.
Qed.

Lemma init_dump_ok (ecs : list eqclass) :
  ∃ d, init_dump ecs (build_graph ecs) = Ok d
       ∧ d.*1 = seq 0 (length ecs)
       ∧ ∀ i ec, ecs !! i = Some ec → dump_get d i = Ok (ec, []).
Proof.
  unfold init_dump. destruct (build_graph_spec 1 ecs) as [(Hn & _ & _) _].
  fold (build_graph ecs) in Hn. rewrite Hn, nodes_fresh_entries.
  assert (∀ l, (∀ i, i ∈ l → i < length ecs) →
            ∃ d, res_map (λ i, match ecs !! i with
                               | Some ec => Ok (i, (ec, []))
                               | None => Raise IndexError
                               end) l = Ok d
                 ∧ d.*1 = l
                 ∧ ∀ i ec, i ∈ l → ecs !! i = Some ec →
                     dump_get d i = Ok (ec, ([] : list (string * list nat)))) as Hgen.
  { induction l as [|a l IH]; intros Hl.
    - exists []. split; [done|]. split; [done|]. intros i ec Hi. inversion Hi.
    - destruct (lookup_lt_is_Some_2 ecs a) as [eca Ha]; [apply Hl; left|].
      destruct IH as (d & Hd & Hk & Hg); [intros i Hi; apply Hl; by right|].
      cbn [res_map]. rewrite Ha, Hd. cbn [mbind res_mbind res_bind].
      eexists. split; [done|]. split; [by rewrite fmap_cons, Hk|].
      intros i ec Hi Hec. simpl. destruct (decide (a = i)) as [->|Hne].
      + rewrite Ha in Hec. by injection Hec as ->.
      + apply Hg; [|done]. apply elem_of_cons in Hi as [->|Hi]; done. }
  destruct (Hgen (seq 0 (length ecs))) as (d & Hd & Hk & Hg).
  { intros i Hi. apply elem_of_seq in Hi. lia. }
  exists d. split; [done|]. split; [done|].
  intros i ec Hec. apply Hg; [|done]. apply elem_of_seq.
  apply lookup_lt_Some in Hec. lia.
Qed.

Lemma cell_fold_ok (ecs : list eqclass) (n : nat) :
  (∀ x, x ∈ ecs → ec_ft x ≠ ∅) →
  ∀ (sgs : list DiGraph) (st : cell_state),
    (∀ subg, subg ∈ sgs → subg ∈ subgraphs (build_graph ecs)) →
    NoDup (concat (nodes <$> sgs)) →
    (∀ d, dump st = Some d →
       d.*1 = seq 0 (length ecs)
       ∧ ∀ x, x ∈ concat (nodes <$> sgs) →
           ∃ ec, ecs !! x = Some ec ∧ dump_get d x = Ok (ec, [])) →
    ∃ st' np,
      m_foldl (process_subgraph n) st sgs = ([], Ok st')
      ∧ length sgs ≤ np ∧ np ≤ length (concat (nodes <$> sgs))
      ∧ (molecules (counts st', em_array st')
         == molecules (counts st, em_array st) + inject_Z (Z.of_nat np))%Q
      ∧ (counts_ok (counts st) → counts_ok (counts st'))
      ∧ match dump st with
        | None => dump st' = None
        | Some d =>
            ∃ d', dump st' = Some d' ∧ d'.*1 = d.*1
                  ∧ (∀ x, x ∉ concat (nodes <$> sgs) → dump_get d' x = dump_get d x)
                  ∧ (∀ x, x ∈ concat (nodes <$> sgs) →
                       ∃ ec ext, ecs !! x = Some ec ∧ annotation_ok ecs x ext
                                 ∧ dump_get d' x = Ok (ec, [ext]))
        end.
Proof.
  intros Hft sgs. induction sgs as [|subg sgs IH]; intros st Hsgs Hnd Hdump.
  - exists st, 0. cbn [m_foldl length fmap list_fmap concat].
    split; [done|]. split; [done|]. split; [done|].
    split; [change (inject_Z (Z.of_nat 0)) with 0%Q; lra|]. split; [done|].
    destruct (dump st) as [d|]; [|done]. exists d. split; [done|]. split; [done|].
    split; [done|]. intros x Hx. inversion Hx.
  - rewrite fmap_cons in Hnd, Hdump |- *. cbn [concat] in Hnd, Hdump |- *.
    apply list.NoDup_app in Hnd as (Hndg & Hdisj & Hndr).
    assert (subg ∈ subgraphs (build_graph ecs)) as Hin by (apply Hsgs; left).
    destruct (cell_subgraph ecs subg Hin) as (Hwf & Hne & Hattrs & Hlt).
    destruct (process_subgraph_ok ecs n st subg Hft Hin)
      as (r & st1 & Hr & Hok & Hproc & Hlen & Hacc & Hd1).
    { intros d Hd x Hx. destruct (Hdump d Hd) as [Hk _]. rewrite Hk.
      apply elem_of_seq. specialize (Hlt x Hx). lia. }
    destruct (ro_partition _ _ Hok) as [Hperm Hpne].
    destruct (config_size subg (r_path_config r) Hne (ro_partition _ _ Hok)) as [Hc1 Hc2].
    destruct (assign_pure_fold n (r_features r) (counts st, em_array st)) as [Hmol Hcok].
    rewrite <- Hacc in Hmol, Hcok. simpl in Hcok.
    (* what the dump of this subgraph gives *)
    assert (match dump st with
            | None => dump st1 = None
            | Some d =>
                ∃ d1, dump st1 = Some d1 ∧ d1.*1 = d.*1
                      ∧ (∀ x, x ∉ nodes subg → dump_get d1 x = dump_get d x)
                      ∧ (∀ x, x ∈ nodes subg →
                           ∃ ec ext, ecs !! x = Some ec ∧ annotation_ok ecs x ext
                                     ∧ dump_get d1 x = Ok (ec, [ext]))
            end) as Hdump1.
    { destruct (dump st) as [d|] eqn:Hd; [|done].
      destruct Hd1 as (d1 & Hd1 & Hpaths). exists d1. split; [done|].
      destruct (Hdump d eq_refl) as [Hk Hrows].
      destruct (dump_paths_ok (r_features r) (r_path_config r) 0 d)
        as (d1' & Hd1' & Hk1 & Hother & Hann).
      { rewrite Hperm. apply Hwf. }
      { done. }
      { intros x Hx. rewrite Hk. apply elem_of_seq. rewrite Hperm in Hx.
        specialize (Hlt x Hx). lia. }
      { intros i Hi. apply lookup_lt_is_Some. simpl. lia. }
      assert (Ok d1' = Ok d1) as [= ->] by (rewrite <- Hd1', <- Hpaths; reflexivity).
      split; [done|]. split.
      - intros x Hx. apply Hother. by rewrite Hperm.
      - intros x Hx. rewrite <- Hperm in Hx.
        apply elem_of_concat in Hx as (p & Hxp & Hp).
        apply list_elem_of_lookup_1 in Hp as [i Hi].
        assert (∃ h, head p = Some h) as [h Hh].
        { rewrite list.Forall_forall in Hpne.
          specialize (Hpne p (list_elem_of_lookup_2 _ _ _ Hi)).
          destruct p as [|h p]; [done|]. by exists h. }
        destruct (Hann i p h x Hi Hh Hxp) as (row & rowh & fi & Hrow & Hrowh & Hfi & Hx').
        assert (∀ y, y ∈ p → y ∈ nodes subg) as Hpn.
        { intros y Hy. rewrite <- Hperm. apply elem_of_concat. exists p.
          split; [done|]. by eapply list_elem_of_lookup_2. }
        assert (h ∈ p) as Hhp by (destruct p; [done|]; injection Hh as ->; left).
        destruct (Hrows x) as (ec & Hec & Hgx); [apply elem_of_app; left; auto|].
        destruct (Hrows h) as (ech & Hech & Hgh); [apply elem_of_app; left; auto|].
        rewrite Hgx in Hrow. injection Hrow as <-.
        rewrite Hgh in Hrowh. injection Hrowh as <-.
        exists ec. eexists. split; [done|]. split; [|exact Hx'].
        exists subg, r, i, p, h, ech, fi. simpl in Hfi. done. }
    destruct (IH st1) as (st' & np & Hfold & Hnp1 & Hnp2 & Hmol' & Hcok' & Hdump').
    { intros s Hs. apply Hsgs. by right. }
    { done. }
    { intros d1 Hd1'. destruct (dump st) as [d|] eqn:Hd.
      - destruct Hdump1 as (d1'' & Hd1'' & Hk1 & Hother & _).
        rewrite Hd1' in Hd1''. injection Hd1'' as <-.
        destruct (Hdump d eq_refl) as [Hk Hrows]. split; [by rewrite Hk1|].
        intros x Hx. destruct (Hrows x) as (ec & Hec & Hg); [apply elem_of_app; by right|].
        exists ec. split; [done|]. rewrite Hother; [done|].
        intros Hxg. by apply (Hdisj x).
      - rewrite Hdump1 in Hd1'. done. }
    exists st', (length (r_path_config r) + np).
    split.
    { cbn [m_foldl]. rewrite Hproc, m_bind_pair. simpl. rewrite Hfold. done. }
    split; [simpl; lia|]. split; [rewrite length_app; lia|].
    split.
    { rewrite Hmol', Hmol, Hlen, Nat2Z.inj_add, inject_Z_plus. lra. }
    split; [auto|].
    destruct (dump st) as [d|] eqn:Hd.
    + destruct Hdump1 as (d1 & Hd1' & Hk1 & Hother1 & Hann1).
      rewrite Hd1' in Hdump'. destruct Hdump' as (d' & Hd' & Hk' & Hother' & Hann').
      exists d'. split; [done|]. split; [by rewrite Hk', Hk1|]. split.
      * intros x Hx. rewrite not_elem_of_app in Hx. destruct Hx as [Hx1 Hx2].
        rewrite Hother' by done. by apply Hother1.
      * intros x Hx. apply elem_of_app in Hx as [Hx|Hx].
        -- destruct (Hann1 x Hx) as (ec & ext & Hec & Hext & Hg).
           exists ec, ext. split; [done|]. split; [done|].
           rewrite Hother'; [done|]. intros Hx'. by apply (Hdisj x).
        -- by apply Hann'.
    + rewrite Hdump1 in Hdump'. done.
Qed.
(** ** What a cell returns *)

Lemma m_bind_inv {A B} (m : M A) (f : A → M B) (log : list msg) (b : B) :
  m_bind m f = (log, Ok b) →
  ∃ a l1 l2, m = (l1, Ok a) ∧ f a = (l2, Ok b) ∧ log = l1 ++ l2.
Proof.
  destruct m as [l1 [a| |]]; unfold m_bind; simpl; [|done|done].
  destruct (f a) as [l2 rb] eqn:Hf. simpl. intros [= <- ->].
  exists a, l1, l2. done.
Qed.

Lemma report_never_ok (subg : DiGraph) (r : resolved) (feats : list nat)
    (log : list msg) :
  report_no_features subg r feats ≠ (log, Ok ()).
Proof.
  unfold report_no_features. intros H.
  repeat (apply m_bind_inv in H as (? & ? & ? & _ & H & _)).
  discriminate H.
Qed.

Lemma assign_inv (n : nat) (subg : DiGraph) (r : resolved)
    (acc acc' : list (nat * Q) * list (list nat)) (feats : list nat) (log : list msg) :
  assign n subg r acc feats = (log, Ok acc') → acc' = assign_pure n acc feats.
Proof.
  destruct feats as [|f [|f' fs]]; simpl.
  - intros H. apply m_bind_inv in H as ([] & l1 & l2 & H & _). by apply report_never_ok in H.
  - by intros [= _ <-].
  - by intros [= _ <-].
Qed.

Lemma assign_fold_inv (n : nat) (subg : DiGraph) (r : resolved) (features : list (list nat))
    (acc acc' : list (nat * Q) * list (list nat)) (log : list msg) :
  m_foldl (assign n subg r) acc features = (log, Ok acc') →
  acc' = foldl (assign_pure n) acc features.
Proof.
  revert acc log. induction features as [|feats features IH]; intros acc log; simpl.
  - by intros [= _ <-].
  - intros H. apply m_bind_inv in H as (acc1 & l1 & l2 & H1 & H2 & _).
    apply assign_inv in H1 as ->. by eapply IH.
Qed.

Lemma process_subgraph_inv (n : nat) (st st' : cell_state) (subg : DiGraph)
    (log : list msg) :
  process_subgraph n st subg = (log, Ok st') →
  ∃ features, (counts st', em_array st')
              = foldl (assign_pure n) (counts st, em_array st) features.
Proof.
  unfold process_subgraph. intros H.
  apply m_bind_inv in H as (r & ? & ? & _ & H & _).
  apply m_bind_inv in H as (acc & ? & ? & Hacc & H & _).
  apply m_bind_inv in H as (d & ? & ? & _ & H & _).
  injection H as _ <-. simpl.
  apply assign_fold_inv in Hacc as ->. exists (r_features r). by destruct (foldl _ _ _).
Qed.

Lemma process_fold_counts_ok (n : nat) (sgs : list DiGraph) (st st' : cell_state)
    (log : list msg) :
  m_foldl (process_subgraph n) st sgs = (log, Ok st') →
  counts_ok (counts st) → counts_ok (counts st').
Proof.
  revert st log. induction sgs as [|subg sgs IH]; intros st log; simpl.
  - by intros [= _ <-].
  - intros H Hok. apply m_bind_inv in H as (st1 & l1 & l2 & H1 & H2 & _).
    eapply IH; [exact H2|].
    apply process_subgraph_inv in H1 as [features Hf].
    destruct (assign_pure_fold n features (counts st, em_array st)) as [_ Hc].
    rewrite <- Hf in Hc. by apply Hc.
Qed.

Lemma em_stage_counts_ok (run_em : list (list nat) → nat → list Q) (n : nat)
    (cs : list (nat * Q)) (em : list (list nat)) :
  counts_ok cs → counts_ok (em_stage run_em n cs em).1.
Proof.
  intros Hok. unfold em_stage. destruct em as [|row em]; [done|]. cbn [fst].
  match goal with |- counts_ok (foldl _ _ ?l) => generalize l end.
  intros l. revert cs Hok. induction l as [|[i c] l IH]; intros cs Hok; [done|].
  cbn [foldl snd fst]. apply IH.
  destruct (Qle_bool c 0) eqn:Hc; [done|].
  apply counts_ok_add; [|done].
  destruct (Qlt_le_dec 0 c) as [Hlt|Hle]; [done|].
  apply Qle_bool_iff in Hle. congruence.
Qed.

Lemma compute_unfold (run_em : list (list nat) → nat → list Q) (ecs : list eqclass)
    (features_index : list (string * nat)) (dumpEC : bool) :
  compute_cell_counts run_em ecs features_index dumpEC
  = (let! dump0 := lift (if dumpEC
                         then d ← init_dump ecs (build_graph ecs); Ok (Some d)
                         else Ok None) in
     let! st := dedup_loop ecs (length features_index) dump0 in
     m_ret (CellResult
              (em_stage run_em (length features_index) (counts st) (em_array st)).1
              (dump st)
              (em_stage run_em (length features_index) (counts st) (em_array st)).2)).
Proof. reflexivity. Qed.

(** X2. Whatever the cell and whatever the EM solver returns, when
    [compute_cell_counts] returns a mapping of counts, the mapping has one
    entry per feature and every count in it is above zero. *)
Theorem cell_counts_positive (run_em : list (list nat) → nat → list Q)
    (ecs : list eqclass) (features_index : list (string * nat)) (dumpEC : bool)
    (log : list msg) (r : cell_result) :
  compute_cell_counts run_em ecs features_index dumpEC = (log, Ok r) →
  NoDup ((cell_counts r).*1) ∧ ∀ f c, (f, c) ∈ cell_counts r → (0 < c)%Q.
Proof.
  rewrite compute_unfold. intros H.
  apply m_bind_inv in H as (dump0 & ? & ? & _ & H & _).
  apply m_bind_inv in H as (st & ? & ? & Hloop & H & _).
  injection H as _ <-. cbn [cell_counts].
  apply process_fold_counts_ok in Hloop; [|apply counts_ok_nil].
  destruct (em_stage_counts_ok run_em (length features_index) _ (em_array st) Hloop)
    as [Hnd Hpos].
  split; [done|]. intros f c Hin. apply (Hpos _ Hin).
Qed.

Lemma cell_counts_positive_witness :
  compute_cell_counts run_em_even [ec_ambiguous] two_features false
  = ([], Ok (CellResult [(1, (1 # 2)%Q); (2, (1 # 2)%Q)] None (Some [[1; 1]])))
  ∧ NoDup ([(1, (1 # 2)%Q); (2, (1 # 2)%Q)].*1).
Proof.
  assert (compute_cell_counts run_em_even [ec_ambiguous] two_features false
          = ([], Ok (CellResult [(1, (1 # 2)%Q); (2, (1 # 2)%Q)] None (Some [[1; 1]]))))
    as Heq by (vm_compute; reflexivity).
  split; [exact Heq|].
  apply (cell_counts_positive run_em_even [ec_ambiguous] two_features false [] _ Heq).
Defined.
Lemma dedup_loop_ok (ecs : list eqclass) (n : nat) (dump0 : option (list (nat * dump_row))) :
  (∀ x, x ∈ ecs → ec_ft x ≠ ∅) →
  (∀ d, dump0 = Some d → init_dump ecs (build_graph ecs) = Ok d) →
  ∃ st np,
    dedup_loop ecs n dump0 = ([], Ok st)
    ∧ length (subgraphs (build_graph ecs)) ≤ np ∧ np ≤ length ecs
    ∧ (molecules (counts st, em_array st) == inject_Z (Z.of_nat np))%Q
    ∧ counts_ok (counts st)
    ∧ match dump0 with
      | None => dump st = None
      | Some _ =>
          ∃ d', dump st = Some d' ∧ d'.*1 = seq 0 (length ecs)
                ∧ ∀ x ec, ecs !! x = Some ec →
                    ∃ ext, annotation_ok ecs x ext ∧ dump_get d' x = Ok (ec, [ext])
      end.
Proof.
  intros Hft Hd0. unfold dedup_loop.
  pose proof (subgraphs_partition (build_graph ecs) (wf_build_graph 1 ecs)) as Hperm.
  destruct (build_graph_spec 1 ecs) as [(Hn & _ & _) _]. fold (build_graph ecs) in Hn.
  rewrite Hn, nodes_fresh_entries in Hperm.
  destruct (init_dump_ok ecs) as (d & Hd & Hk & Hrows).
  destruct (cell_fold_ok ecs n Hft (subgraphs (build_graph ecs)) (CellState [] [] dump0))
    as (st & np & Hfold & Hnp1 & Hnp2 & Hmol & Hcok & Hdump).
  - done.
  - rewrite Hperm. apply list.NoDup_seq.
  - simpl. intros d0 ->. rewrite (Hd0 d0 eq_refl) in Hd. injection Hd as ->.
    split; [done|]. intros x Hx. rewrite Hperm in Hx. apply elem_of_seq in Hx.
    destruct (lookup_lt_is_Some_2 ecs x) as [ec Hec]; [lia|]. eauto.
  - exists st, np. split; [done|]. split; [done|].
    split; [rewrite Hperm, length_seq in Hnp2; done|].
    split.
    { assert (molecules (([] : list (nat * Q)), ([] : list (list nat))) == 0)%Q as H0
        by reflexivity.
      rewrite Hmol. cbn [counts em_array]. rewrite H0. lra. }
    split; [apply Hcok, counts_ok_nil|].
    simpl in Hdump. destruct dump0 as [d0|]; [|done].
    destruct Hdump as (d' & Hd' & Hk' & _ & Hann).
    rewrite (Hd0 d0 eq_refl) in Hd. injection Hd as ->.
    exists d'. split; [done|]. split; [by rewrite Hk'|].
    intros x ec Hec. destruct (Hann x) as (ec' & ext & Hec' & Hext & Hg).
    { rewrite Hperm. apply elem_of_seq. apply lookup_lt_Some in Hec. lia. }
    exists ext. split; [done|]. congruence.
Qed.

Lemma compute_from_loop (run_em : list (list nat) → nat → list Q) (ecs : list eqclass)
    (features_index : list (string * nat)) (dumpEC : bool)
    (dump0 : option (list (nat * dump_row))) (st : cell_state) :
  (if dumpEC then d ← init_dump ecs (build_graph ecs); Ok (Some d) else Ok None) = Ok dump0 →
  dedup_loop ecs (length features_index) dump0 = ([], Ok st) →
  compute_cell_counts run_em ecs features_index dumpEC
  = ([], Ok (CellResult
               (em_stage run_em (length features_index) (counts st) (em_array st)).1
               (dump st)
               (em_stage run_em (length features_index) (counts st) (em_array st)).2)).
Proof.
  intros Hd Hloop. rewrite compute_unfold, Hd, m_bind_lift_ok, Hloop. reflexivity.
Qed.

Lemma init_dump_choice (ecs : list eqclass) (dumpEC : bool) :
  ∃ dump0,
    (if dumpEC then d ← init_dump ecs (build_graph ecs); Ok (Some d) else Ok None) = Ok dump0
    ∧ (∀ d, dump0 = Some d → init_dump ecs (build_graph ecs) = Ok d)
    ∧ (dumpEC = true → is_Some dump0).
Proof.
  destruct dumpEC.
  - destruct (init_dump_ok ecs) as (d & Hd & _). exists (Some d). rewrite Hd.
    split; [done|]. split; [by intros ? [= <-]|eauto].
  - exists None. done.
Qed.


Lemma cell_example_features : ∀ x, x ∈ cell_example → ec_ft x ≠ ∅.
Proof.
  intros x Hx. unfold cell_example in Hx.
  apply elem_of_cons in Hx as [->|Hx]; [|apply list_elem_of_singleton in Hx as ->];
    unfold ec_ft; simpl; set_solver.
Defined.


(** X3. In a cell whose classes all have a feature, every path of a
    selected configuration counts for one molecule, as a count of 1.0 or as a
    row for the EM solver: when the loop over the subgraphs ends, the counts
    and the rows add up to a whole number that is at least the number of
    subgraphs and at most the number of equivalence classes. *)
Theorem molecules_bounded (run_em : list (list nat) → nat → list Q)
    (ecs : list eqclass) (features_index : list (string * nat)) :
  (∀ x, x ∈ ecs → ec_ft x ≠ ∅) →
  ∃ st np,
    dedup_loop ecs (length features_index) None = ([], Ok st)
    ∧ compute_cell_counts run_em ecs features_index false
      = ([], Ok (CellResult
                   (em_stage run_em (length features_index) (counts st) (em_array st)).1
                   None
                   (em_stage run_em (length features_index) (counts st) (em_array st)).2))
    ∧ (total (counts st) + inject_Z (Z.of_nat (length (em_array st)))
       == inject_Z (Z.of_nat np))%Q
    ∧ length (subgraphs (build_graph ecs)) ≤ np
    ∧ np ≤ length ecs.
Proof.
  intros Hft.
  destruct (dedup_loop_ok ecs (length features_index) None Hft) as
    (st & np & Hloop & Hnp1 & Hnp2 & Hmol & _ & Hdump); [done|].
  exists st, np. split; [done|]. split.
  - rewrite (compute_from_loop run_em ecs features_index false None st); [|done|done].
    by rewrite Hdump.
  - done.
Qed.

Lemma molecules_bounded_witness :
  (∀ x, x ∈ cell_example → ec_ft x ≠ ∅)
  ∧ ∃ st np,
      dedup_loop cell_example (length two_features) None = ([], Ok st)
      ∧ compute_cell_counts run_em_even cell_example two_features false
        = ([], Ok (CellResult
                     (em_stage run_em_even (length two_features) (counts st) (em_array st)).1
                     None
                     (em_stage run_em_even (length two_features) (counts st) (em_array st)).2))
      ∧ (total (counts st) + inject_Z (Z.of_nat (length (em_array st)))
         == inject_Z (Z.of_nat np))%Q
      ∧ length (subgraphs (build_graph cell_example)) ≤ np
      ∧ np ≤ length cell_example.
Proof.
  split; [exact cell_example_features|].
  apply (molecules_bounded run_em_even cell_example two_features cell_example_features).
Defined.

(** X4. With the audit dump, in a cell whose classes all have a feature,
    the dump returned has one row per equivalence class, in order, made of the
    class and of exactly one pair appended to it: empty fields when the class
    is the first node of its path, the UMI of the first node of its path and
    the features of the path otherwise. *)
Theorem dump_rows_once (run_em : list (list nat) → nat → list Q)
    (ecs : list eqclass) (features_index : list (string * nat)) :
  (∀ x, x ∈ ecs → ec_ft x ≠ ∅) →
  ∃ r d,
    compute_cell_counts run_em ecs features_index true = ([], Ok r)
    ∧ cell_dump r = Some d
    ∧ d.*1 = seq 0 (length ecs)
    ∧ ∀ x ec, ecs !! x = Some ec →
        ∃ ext, annotation_ok ecs x ext ∧ dump_get d x = Ok (ec, [ext]).
Proof.
  intros Hft. destruct (init_dump_choice ecs true) as (dump0 & Hd & Hd0 & Hsome).
  destruct (Hsome eq_refl) as [d0 ->].
  destruct (dedup_loop_ok ecs (length features_index) (Some d0) Hft Hd0)
    as (st & np & Hloop & _ & _ & _ & _ & d' & Hd' & Hk & Hrows).
  eexists _, d'. split; [by apply (compute_from_loop run_em ecs features_index true (Some d0) st)|].
  done.
Qed.

Lemma dump_rows_once_witness :
  (∀ x, x ∈ cell_example → ec_ft x ≠ ∅)
  ∧ ∃ r d,
      compute_cell_counts run_em_even cell_example two_features true = ([], Ok r)
      ∧ cell_dump r = Some d
      ∧ d.*1 = seq 0 (length cell_example)
      ∧ ∀ x ec, cell_example !! x = Some ec →
          ∃ ext, annotation_ok cell_example x ext ∧ dump_get d x = Ok (ec, [ext]).
Proof.
  split; [exact cell_example_features|].
  apply (dump_rows_once run_em_even cell_example two_features cell_example_features).
Defined.

(** The first example of the specification, with its dump: the second
    class is merged into the first, which has one feature. *)
Example cell_example_result :
  compute_cell_counts run_em_even cell_example two_features true
  = ([], Ok (CellResult [(1, 1%Q)]
               (Some [(0, (ec_AAAAA, [(EmptyString, [])]));
                      (1, (ec_AAAAT, [("AAAAA"%string, [1])]))])
               None)).
Proof. vm_compute. reflexivity. Qed.
(** ** The features of the counts *)

Lemma resolved_features_from_cell (ecs : list eqclass) (subg : DiGraph) (r : resolved) :
  attrs_of ecs subg → resolved_ok subg r →
  ∀ feats f, feats ∈ r_features r → f ∈ feats → cell_feature ecs f.
Proof.
  intros Hattrs Hok feats f Hfeats Hf.
  destruct (decide (orphans subg = [])) as [Ho|Ho].
  - destruct (ro_features_cycle _ _ Hok Ho) as (u & Hu & Heq).
    rewrite Heq in Hfeats. apply elem_of_replicate in Hfeats as [-> _].
    apply elem_of_elements, Hu in Hf as (n & s & _ & Hs & Hfs).
    destruct (node_ft_attrs ecs _ n s Hattrs Hs) as (x & Hx & ->).
    exists x. split; [by eapply list_elem_of_lookup_2|done].
  - pose proof (ro_features_parent _ _ Hok Ho) as Hf2.
    apply list_elem_of_lookup_1 in Hfeats as [i Hi].
    destruct (Forall2_lookup_r _ _ _ _ _ Hf2 Hi) as (p & _ & n & s & _ & Hs & ->).
    apply elem_of_elements in Hf.
    destruct (node_ft_attrs ecs _ n s Hattrs Hs) as (x & Hx & ->).
    exists x. split; [by eapply list_elem_of_lookup_2|done].
Qed.

Lemma from_cell_assign (ecs : list eqclass) (n : nat)
    (acc : list (nat * Q) * list (list nat)) (feats : list nat) :
  (∀ f, f ∈ feats → cell_feature ecs f) →
  from_cell ecs n acc → from_cell ecs n (assign_pure n acc feats).
Proof.
  intros Hfeats [Hk Hrow]. unfold assign_pure.
  assert (from_cell ecs n (acc.1, acc.2 ++ [em_row n feats])) as Hem.
  { split; [done|]. intros row Hin. simpl in Hin.
    apply elem_of_app in Hin as [Hin|Hin]; [by apply Hrow|].
    apply list_elem_of_singleton in Hin as ->. by exists feats. }
  destruct feats as [|f [|f' fs]]; [done| |done].
  split; [|done]. cbn [fst]. intros k. rewrite counter_add_keys.
  destruct (decide (f ∈ acc.1.*1)); [apply Hk|].
  rewrite elem_of_app, list_elem_of_singleton. intros [Hin| ->]; [by apply Hk|].
  apply Hfeats. left.
Qed.

Lemma from_cell_fold (ecs : list eqclass) (n : nat) (features : list (list nat))
    (acc : list (nat * Q) * list (list nat)) :
  (∀ feats f, feats ∈ features → f ∈ feats → cell_feature ecs f) →
  from_cell ecs n acc → from_cell ecs n (foldl (assign_pure n) acc features).
Proof.
  revert acc. induction features as [|feats features IH]; intros acc Hall Hacc; [done|].
  cbn [foldl]. apply IH.
  - intros feats' f Hin. apply Hall. by right.
  - apply from_cell_assign; [|done]. intros f. apply Hall. left.
Qed.

Lemma process_subgraph_resolved (n : nat) (st st' : cell_state) (subg : DiGraph)
    (log : list msg) :
  process_subgraph n st subg = (log, Ok st') →
  ∃ r, resolve subg = Ok r
       ∧ (counts st', em_array st')
         = foldl (assign_pure n) (counts st, em_array st) (r_features r).
Proof.
  unfold process_subgraph. intros H.
  apply m_bind_inv in H as (r & ? & ? & Hr & H & _).
  apply m_bind_inv in H as (acc & ? & ? & Hacc & H & _).
  apply m_bind_inv in H as (d & ? & ? & _ & H & _).
  injection H as _ <-. simpl.
  apply assign_fold_inv in Hacc as ->. exists r. split.
  - unfold lift in Hr. by injection Hr as _ ->.
  - by destruct (foldl _ _ _).
Qed.

Lemma process_fold_from_cell (ecs : list eqclass) (n : nat) (sgs : list DiGraph)
    (st st' : cell_state) (log : list msg) :
  (∀ subg, subg ∈ sgs → subg ∈ subgraphs (build_graph ecs)) →
  m_foldl (process_subgraph n) st sgs = (log, Ok st') →
  from_cell ecs n (counts st, em_array st) → from_cell ecs n (counts st', em_array st').
Proof.
  revert st log. induction sgs as [|subg sgs IH]; intros st log Hsgs; simpl.
  - by intros [= _ <-].
  - intros H Hok. apply m_bind_inv in H as (st1 & l1 & l2 & H1 & H2 & _).
    eapply IH; [|exact H2|].
    + intros subg' Hin. apply Hsgs. by right.
    + apply process_subgraph_resolved in H1 as (r & Hr & ->).
      assert (subg ∈ subgraphs (build_graph ecs)) as Hin by (apply Hsgs; left).
      destruct (cell_subgraph ecs subg Hin) as (Hwf & Hne & Hattrs & _).
      destruct (resolve_ok subg Hwf Hne) as (r' & Hr' & Hrok).
      assert (r' = r) as -> by congruence.
      apply from_cell_fold; [|done].
      intros feats f. by apply (resolved_features_from_cell ecs subg r).
Qed.

Lemma em_row_lookup (n : nat) (feats : list nat) (x v : nat) :
  em_row n feats !! x = Some v → 0 < v → S x ∈ feats.
Proof.
  unfold em_row. rewrite list_lookup_fmap. intros H Hv.
  destruct (seq 1 n !! x) as [y|] eqn:Hy; [|done].
  apply lookup_seq in Hy as [-> _]. change (1 + x) with (S x) in H. cbn [fmap option_fmap option_map] in H.
  destruct (bool_decide (S x ∈ feats)) eqn:Hb.
  - by apply bool_decide_eq_true_1 in Hb.
  - injection H as <-. lia.
Qed.

Lemma em_stage_from_cell (run_em : list (list nat) → nat → list Q) (ecs : list eqclass)
    (n : nat) (cs : list (nat * Q)) (em : list (list nat)) :
  from_cell ecs n (cs, em) →
  ∀ k, k ∈ (em_stage run_em n cs em).1.*1 → cell_feature ecs k.
Proof.
  intros [Hk Hrow]. unfold em_stage. destruct em as [|row0 em0]; [exact Hk|].
  set (em := row0 :: em0) in *. cbn [fst].
  set (kept := filter (λ x, Exists (λ v, 0 < v) (column em x)) (seq 0 n)).
  assert (∀ i, i ∈ S <$> kept → cell_feature ecs i) as Hkept.
  { intros i Hi. apply list_elem_of_fmap in Hi as (x & -> & Hx).
    apply list_elem_of_filter in Hx as [Hex _].
    apply list.Exists_exists in Hex as (v & Hv & Hpos).
    unfold column in Hv. apply list_elem_of_fmap in Hv as (row & -> & Hin).
    destruct (Hrow row Hin) as (feats & -> & Hfeats).
    apply Hfeats. destruct (em_row n feats !! x) as [v|] eqn:Hl; simpl in Hpos; [|lia].
    by eapply em_row_lookup. }
  match goal with |- ∀ k, k ∈ (foldl _ _ (zip _ ?l)).*1 → _ => generalize l end.
  intros ws.
  assert (∀ ic, ic ∈ zip (S <$> kept) ws → cell_feature ecs ic.1) as Hzip.
  { intros [i c] Hin. apply Hkept. simpl. by apply elem_of_zip_l in Hin. }
  clearbody kept. clear Hkept Hrow. simpl in Hk.
  revert cs Hk Hzip. induction (zip (S <$> kept) ws) as [|[i c] l IH]; intros cs Hk Hzip; [done|].
  cbn [foldl snd fst]. apply IH.
  - destruct (Qle_bool c 0); [done|]. intros k. rewrite counter_add_keys.
    destruct (decide (i ∈ cs.*1)); [apply Hk|].
    rewrite elem_of_app, list_elem_of_singleton. intros [Hin| ->]; [by apply Hk|].
    apply (Hzip (i, c)). left.
  - intros ic Hin. apply Hzip. by right.
Qed.

(** X5. Every feature that [compute_cell_counts] returns a count for is a
    feature of one of the equivalence classes of the cell, whatever the EM
    solver returns. *)
Theorem cell_counts_features (run_em : list (list nat) → nat → list Q)
    (ecs : list eqclass) (features_index : list (string * nat)) (dumpEC : bool)
    (log : list msg) (r : cell_result) :
  compute_cell_counts run_em ecs features_index dumpEC = (log, Ok r) →
  ∀ f c, (f, c) ∈ cell_counts r → ∃ x, x ∈ ecs ∧ f ∈ ec_ft x.
Proof.
  rewrite compute_unfold. intros H.
  apply m_bind_inv in H as (dump0 & ? & ? & _ & H & _).
  apply m_bind_inv in H as (st & ? & ? & Hloop & H & _).
  injection H as _ <-. cbn [cell_counts].
  apply (process_fold_from_cell ecs) in Hloop; [|done|].
  - intros f c Hin.
    apply (em_stage_from_cell run_em ecs (length features_index) _ _ Hloop f).
    apply list_elem_of_fmap. by exists (f, c).
  - split; intros ? Hin; inversion Hin.
Qed.

Lemma cell_counts_features_witness :
  compute_cell_counts run_em_even [ec_ambiguous] two_features false
  = ([], Ok (CellResult [(1, (1 # 2)%Q); (2, (1 # 2)%Q)] None (Some [[1; 1]])))
  ∧ ∃ x, x ∈ [ec_ambiguous] ∧ 2 ∈ ec_ft x.
Proof.
  assert (compute_cell_counts run_em_even [ec_ambiguous] two_features false
          = ([], Ok (CellResult [(1, (1 # 2)%Q); (2, (1 # 2)%Q)] None (Some [[1; 1]]))))
    as Heq by (vm_compute; reflexivity).
  split; [exact Heq|].
  apply (cell_counts_features run_em_even [ec_ambiguous] two_features false [] _ Heq
           2 (1 # 2)%Q).
  right. left.
Defined.
(** ** Dictionaries *)

Lemma dict_get_set {V} (d : list (string * V)) (k k' : string) (v : V) :
  dict_get (dict_set d k v) k' = if decide (k = k') then Ok v else dict_get d k'.
Proof.
  induction d as [|[k0 v0] d IH]; simpl.
  - destruct (decide (k = k')); [done|]. done.
  - destruct (decide (k0 = k)) as [->|Hne]; simpl.
    + destruct (decide (k = k')); [done|done].
    + rewrite IH. destruct (decide (k0 = k')) as [->|Hne'].
      * by rewrite decide_False.
      * done.
Qed.

Lemma dict_set_fresh {V} (d : list (string * V)) (k : string) (v : V) :
  k ∉ d.*1 → dict_set d k v = d ++ [(k, v)].
Proof.
  induction d as [|[k0 v0] d IH]; simpl; [done|].
  rewrite not_elem_of_cons. intros [Hne Hnin].
  rewrite decide_False by done. by rewrite IH.
Qed.

Lemma dict_get_miss {V} (d : list (string * V)) (k : string) :
  k ∉ d.*1 → dict_get d k = Raise (KeyError k).
Proof.
  induction d as [|[k0 v0] d IH]; simpl; [done|].
  rewrite not_elem_of_cons. intros [Hne Hnin].
  rewrite decide_False by done. auto.
Qed.


Lemma dict_set_keys {V} (d : list (string * V)) (k : string) (v : V) (x : string) :
  x ∈ (dict_set d k v).*1 ↔ x = k ∨ x ∈ d.*1.
Proof.
  induction d as [|[k0 v0] d IH]; simpl.
  - rewrite list_elem_of_singleton. split; [auto|]. intros [H|H]; [done|inversion H].
  - destruct (decide (k0 = k)) as [->|Hne]; simpl.
    + rewrite elem_of_cons. tauto.
    + rewrite !elem_of_cons, IH. tauto.
Qed.

(** ** [index_features] *)

Lemma enumerate_snoc {A} (l : list A) (x : A) :
  enumerate (l ++ [x]) = enumerate l ++ [(length l, x)].
Proof.
  unfold enumerate. rewrite imap_app. simpl. by rewrite Nat.add_0_r.
Qed.

Lemma index_features_snoc (lines : list string) (line : string) :
  index_features (lines ++ [line])
  = dict_set (index_features lines) (feature_name line) (S (length lines)).
Proof. unfold index_features. by rewrite enumerate_snoc, foldl_app. Qed.

Lemma index_features_keys (lines : list string) (k : string) :
  k ∈ (index_features lines).*1 ↔ k ∈ feature_name <$> lines.
Proof.
  induction lines as [|line lines IH] using rev_ind.
  - done.
  - rewrite index_features_snoc, dict_set_keys, IH, fmap_app, elem_of_app.
    simpl. rewrite list_elem_of_singleton. tauto.
Qed.

(** X6. The identifier of a feature is the number, from 1, of the last
    line of the features file that carries its name; a name that is on no
    line is not a key of the index. *)
Theorem index_features_lookup (lines : list string) (name : string) :
  (∀ i line, lines !! i = Some line → feature_name line = name →
     (∀ j line', i < j → lines !! j = Some line' → feature_name line' ≠ name) →
     dict_get (index_features lines) name = Ok (S i))
  ∧ (name ∉ feature_name <$> lines →
     dict_get (index_features lines) name = Raise (KeyError name)).
Proof.
  split.
  - induction lines as [|l lines IH] using rev_ind; intros i line Hi Hname Hlast.
    + done.
    + rewrite index_features_snoc, dict_get_set.
      destruct (decide (i = length lines)) as [->|Hne].
      * rewrite list_lookup_middle in Hi by done. injection Hi as ->.
        by rewrite decide_True.
      * assert (i < length lines) as Hlt.
        { apply lookup_lt_Some in Hi. rewrite length_app in Hi. simpl in Hi. lia. }
        rewrite decide_False.
        -- apply (IH i line); [by rewrite lookup_app_l in Hi|done|].
           intros j line' Hj Hj'. apply (Hlast j line' Hj).
           rewrite lookup_app_l; [done|]. by eapply lookup_lt_Some.
        -- apply (Hlast (length lines) l Hlt). by rewrite list_lookup_middle.
  - intros Hnin. apply dict_get_miss. by rewrite index_features_keys.
Qed.

Lemma index_features_distinct_eq (lines : list string) :
  NoDup (feature_name <$> lines) →
  index_features lines = imap (λ i line, (feature_name line, S i)) lines.
Proof.
  induction lines as [|l lines IH] using rev_ind; intros Hnd; [done|].
  rewrite fmap_app in Hnd. apply list.NoDup_app in Hnd as (Hnd & Hdisj & _).
  rewrite index_features_snoc, imap_app, IH by done. simpl.
  rewrite Nat.add_0_r. apply dict_set_fresh.
  rewrite <- IH by done. rewrite index_features_keys.
  intros Hin. apply (Hdisj _ Hin). left.
Qed.

Lemma imap_numbered_snd (l : list string) (n : nat) :
  (imap (λ i line, (feature_name line, S (n + i))) l).*2 = seq (S n) (length l).
Proof.
  revert n. induction l as [|x l IH]; intros n; [done|].
  rewrite imap_cons, fmap_cons. cbn [snd length seq]. rewrite Nat.add_0_r. f_equal.
  rewrite <- (IH (S n)). f_equal. apply imap_ext. intros i y _. simpl. f_equal. lia.
Qed.

Lemma imap_numbered_fst (l : list string) (n : nat) :
  (imap (λ i line, (feature_name line, S (n + i))) l).*1 = feature_name <$> l.
Proof.
  revert n. induction l as [|x l IH]; intros n; [done|].
  rewrite imap_cons, !fmap_cons. cbn [fst]. f_equal.
  rewrite <- (IH (S n)). f_equal. apply imap_ext. intros i y _. simpl. f_equal. lia.
Qed.

(** X7. When the names of the features file are distinct, the index has
    one entry per line, in the order of the file, and the identifiers are
    the numbers from 1 to the size of the index: every feature has a column
    in the rows that [compute_cell_counts] builds for the EM solver. *)
Theorem index_features_distinct (lines : list string) :
  NoDup (feature_name <$> lines) →
  (index_features lines).*1 = feature_name <$> lines
  ∧ (index_features lines).*2 = seq 1 (length (index_features lines))
  ∧ ∀ feats f, (∃ k, (k, f) ∈ index_features lines) →
       f ∈ feats →
       em_row (length (index_features lines)) feats !! (f - 1) = Some 1.
Proof.
  intros Hnd. rewrite (index_features_distinct_eq lines Hnd).
  pose proof (imap_numbered_snd lines 0) as H2.
  pose proof (imap_numbered_fst lines 0) as H1.
  rewrite length_imap. split; [exact H1|]. split; [exact H2|].
  intros feats f [k Hk] Hf.
  assert (f ∈ seq 1 (length lines)) as Hseq.
  { rewrite <- H2. apply list_elem_of_fmap. by exists (k, f). }
  apply elem_of_seq in Hseq. unfold em_row. rewrite list_lookup_fmap.
  rewrite lookup_seq_lt by lia. simpl.
  replace (S (f - 1)) with f by lia. by rewrite bool_decide_eq_true_2.
Qed.

Lemma index_features_lookup_witness :
  dict_get (index_features features_lines) "L1" = Ok 3
  ∧ dict_get (index_features features_lines) "ERV" = Raise (KeyError "ERV").
Proof.
  split.
  - apply (proj1 (index_features_lookup features_lines "L1") 2 (tabbed "L1" "LINE")).
    + reflexivity.
    + vm_compute. reflexivity.
    + intros j line' Hj Hl. apply lookup_lt_Some in Hl. simpl in Hl. lia.
  - apply (proj2 (index_features_lookup features_lines "ERV")).
    apply (bool_decide_unpack ("ERV"%string ∉ feature_name <$> features_lines)).
    vm_compute. exact I.
Defined.

Lemma index_features_distinct_witness :
  (index_features (take 2 features_lines)).*1 = ["L1"; "AluY"]%string
  ∧ (index_features (take 2 features_lines)).*2 = [1; 2].
Proof.
  assert (NoDup (feature_name <$> take 2 features_lines)) as Hnd.
  { apply (bool_decide_unpack (NoDup (feature_name <$> take 2 features_lines))).
    vm_compute. exact I. }
  destruct (index_features_distinct (take 2 features_lines) Hnd) as (H1 & H2 & _).
  split; [exact H1|exact H2].
Defined.

(** With a name on two lines the index is shorter than the file and the
    last identifier is above the size of the index: the feature has no
    column in the rows for the EM solver. *)
Example index_features_duplicate :
  index_features features_lines = [("L1", 3); ("AluY", 2)]%string
  ∧ em_row (length (index_features features_lines)) [2; 3] = [0; 1].
Proof. vm_compute. done. Qed.
(** ** [parse_maps] *)

Section ParseMapsFacts.

Variable int_of_bytes : string → option Z.
Variable feature_index : list (string * nat).

Lemma parse_line_inv (line cb : string) (ec : eqclass) :
  parse_line int_of_bytes feature_index line = Ok (cb, ec) →
  cb = (split tab (strip line)).1
  ∧ ∃ umi feat count c ids,
      (split tab (strip line)).2 = [umi; feat; count]
      ∧ int_of_bytes count = Some c
      ∧ res_map (dict_get feature_index) ((split comma feat).1 :: (split comma feat).2)
        = Ok ids
      ∧ ec = (umi, list_to_set ids, c).
Proof.
  unfold parse_line. destruct (split tab (strip line)) as [cb' fields].
  destruct fields as [|umi [|feat [|count [|? ?]]]]; try done.
  destruct (int_of_bytes count) as [c|] eqn:Hc; [|done].
  destruct (res_map _ _) as [ids| |] eqn:Hids; [|done|done].
  cbn [mbind res_mbind res_bind]. intros [= <- <-]. split; [done|].
  by exists umi, feat, count, c, ids.
Qed.

Lemma parse_loop_ok (lines : list string) (recs : list (string * eqclass)) :
  Forall2 (λ line rec, parse_line int_of_bytes feature_index line = Ok rec) lines recs →
  ∀ it eqcl, ∃ c0 rest,
    parse_loop int_of_bytes feature_index lines it eqcl = (c0 :: rest, Ok ())
    ∧ c0.1 = it
    ∧ (∃ more, c0.2 = eqcl ++ more ∧ (lines = [] → more = []))
    ∧ concat (cell_records <$> (c0 :: rest)) = (pair it <$> eqcl) ++ recs
    ∧ adjacent_distinct (c0 :: rest)
    ∧ Forall (λ c : string * list eqclass, c.2 ≠ []) rest.
Proof.
  induction 1 as [|line [cb ec] lines recs Hline _ IH]; intros it eqcl.
  - exists (it, eqcl), []. split; [done|]. split; [done|]. split.
    { exists []. by rewrite app_nil_r. }
    split; [cbn [fmap list_fmap concat]; by rewrite !app_nil_r|]. split; [|done].
    intros i c c' _ Hc'. by destruct i.
  - cbn [parse_loop]. rewrite Hline. destruct (decide (cb = it)) as [->|Hne].
    + destruct (IH it (eqcl ++ [ec])) as (c0 & rest & Heq & H1 & (more & H2 & _) & H3 & H4 & H5).
      exists c0, rest. split; [done|]. split; [done|]. split.
      { exists (ec :: more). rewrite H2, <- app_assoc. done. }
      split; [|done]. rewrite H3, fmap_app, <- app_assoc. done.
    + destruct (IH cb [ec]) as (c0 & rest & Heq & H1 & (more & H2 & _) & H3 & H4 & H5).
      rewrite Heq. cbn [fst snd].
      exists (it, eqcl), (c0 :: rest). split; [done|]. split; [done|]. split.
      { exists []. by rewrite app_nil_r. }
      split.
      { rewrite fmap_cons. cbn [concat]. rewrite H3. done. }
      split.
      { intros [|i] c c' Hc Hc'.
        - injection Hc as <-. injection Hc' as <-. simpl. congruence.
        - by apply (H4 i). }
      constructor; [|done]. rewrite H2. done.
Qed.

(** X8. On a mappings file whose lines all parse, [parse_maps] ends
    without an error; the classes of the cells it yields, put end to end
    with the barcode of their cell, are the records of the lines in the
    order of the file; two cells yielded one after the other have different
    barcodes; and no cell is empty, except the single cell with the empty
    barcode that an empty file yields. *)
Theorem parse_maps_groups (lines : list string) (recs : list (string * eqclass)) :
  Forall2 (λ line rec, parse_line int_of_bytes feature_index line = Ok rec) lines recs →
  ∃ cells,
    parse_maps int_of_bytes lines feature_index = (cells, Ok ())
    ∧ concat (cell_records <$> cells) = recs
    ∧ adjacent_distinct cells
    ∧ (lines ≠ [] → Forall (λ c : string * list eqclass, c.2 ≠ []) cells)
    ∧ (lines = [] → cells = [(EmptyString, [])]).
Proof.
  intros Hall. unfold parse_maps.
  destruct (parse_loop_ok lines recs Hall
              (split tab (strip (default EmptyString (head lines)))).1 [])
    as (c0 & rest & Heq & H1 & (more & H2 & Hmore) & H3 & H4 & H5).
  exists (c0 :: rest). split; [done|]. split; [done|]. split; [done|]. split.
  - intros Hne. constructor; [|done].
    destruct Hall as [|line [cb ec] lines recs Hline Hall]; [done|].
    cbn [parse_loop] in Heq. rewrite Hline in Heq.
    destruct (parse_line_inv line cb ec Hline) as [Hcb _].
    cbn [head default] in Heq. rewrite decide_True in Heq by done.
    destruct (parse_loop_ok lines recs Hall (split tab (strip line)).1 ([] ++ [ec]))
      as (c0' & rest' & Heq' & _ & (more' & H2' & _) & _).
    pose proof (eq_trans (eq_sym Heq) Heq') as Hx. injection Hx as -> _.
    rewrite H2'. done.
  - intros ->. cbn in Heq. by injection Heq as <- <-.
Qed.

Lemma parse_loop_error (pre : list string) (bad : string) (post : list string) (e : exn) :
  Forall (λ line, ∃ rec, parse_line int_of_bytes feature_index line = Ok rec) pre →
  parse_line int_of_bytes feature_index bad = Raise e →
  ∀ it eqcl,
    parse_loop int_of_bytes feature_index (pre ++ bad :: post) it eqcl
    = (removelast (parse_loop int_of_bytes feature_index pre it eqcl).1, Raise e)
    ∧ (parse_loop int_of_bytes feature_index pre it eqcl).1 ≠ [].
Proof.
  intros Hpre Hbad. induction Hpre as [|line pre [[cb ec] Hline] _ IH]; intros it eqcl.
  - cbn [app parse_loop]. rewrite Hbad. done.
  - cbn [app parse_loop]. rewrite Hline. destruct (decide (cb = it)) as [->|Hne].
    + apply IH.
    + destruct (IH cb [ec]) as [Heq Hnil]. rewrite Heq. cbn [fst snd].
      split; [|done]. cbn [removelast].
      by destruct (parse_loop int_of_bytes feature_index pre cb [ec]).1.
Qed.

(** X9. When a line of the mappings file does not parse (its fields are
    not four, its count is no integer, or one of its features is not in the
    index) and every line before it does, [parse_maps] ends with the error
    of that line after having yielded the cells read before it, the last one
    excepted: the cell that the lines before the bad one were filling is
    never yielded, and no line after the bad one is read. *)
Theorem parse_maps_error (pre : list string) (bad : string) (post : list string) (e : exn) :
  Forall (λ line, ∃ rec, parse_line int_of_bytes feature_index line = Ok rec) pre →
  parse_line int_of_bytes feature_index bad = Raise e →
  parse_maps int_of_bytes (pre ++ bad :: post) feature_index
  = (removelast (parse_maps int_of_bytes pre feature_index).1, Raise e).
Proof.
  intros Hpre Hbad. unfold parse_maps.
  destruct pre as [|line pre].
  - cbn [app parse_loop]. rewrite Hbad. done.
  - apply (parse_loop_error (line :: pre) bad post e Hpre Hbad).
Qed.


End ParseMapsFacts.

Lemma parse_maps_groups_witness :
  ∃ cells,
    parse_maps int_of_digits maps_lines repeats_index = (cells, Ok ())
    ∧ cells.*1 = ["CELLA"; "CELLB"]%string
    ∧ length <$> cells.*2 = [2; 1].
Proof.
  assert (∃ recs, Forall2 (λ line rec, parse_line int_of_digits repeats_index line = Ok rec)
                          maps_lines recs) as [recs Hrecs].
  { unfold maps_lines. eexists. repeat (constructor; [vm_compute; reflexivity|]). constructor. }
  destruct (parse_maps_groups int_of_digits repeats_index maps_lines recs Hrecs)
    as (cells & Heq & _).
  exists cells. split; [exact Heq|].
  pose proof Heq as Hc. vm_compute in Hc. injection Hc as <-. split; reflexivity.
Defined.

Lemma parse_maps_error_witness :
  parse_maps int_of_digits (maps_lines ++ [tabbed "CELLC" "AAAAA"]) repeats_index
  = ([("CELLA"%string,
       [("AAAAA"%string, {[1]}, 3%Z); ("CCCCC"%string, list_to_set [1; 2], 1%Z)])],
     Raise ValueError).
Proof.
  assert (Forall (λ line, ∃ rec, parse_line int_of_digits repeats_index line = Ok rec)
                 maps_lines) as Hpre.
  { unfold maps_lines. repeat (constructor; [eexists; vm_compute; reflexivity|]). constructor. }
  rewrite (parse_maps_error int_of_digits repeats_index maps_lines
             (tabbed "CELLC" "AAAAA") [] ValueError Hpre);
    [|vm_compute; reflexivity].
  vm_compute. reflexivity.
Defined.
(** ** [run_count] *)

Lemma m_bind_ext {A B} (m : M A) (f g : A → M B) :
  (∀ a, f a = g a) → m_bind m f = m_bind m g.
Proof. intros H. unfold m_bind. destruct m as [l [a| |]]; simpl; by rewrite ?H. Qed.



Section RunCountFacts.

Variable run_em : list (list nat) → nat → list Q.
Variable features_index : list (string * nat).
Variable dumpEC : bool.
Variable barcodes : list (string * nat).

Lemma run_count_fold (cells : list (string * list eqclass)) :
  run_count run_em cells features_index dumpEC barcodes
  = m_foldl (count_cell run_em features_index dumpEC barcodes) [] cells.
Proof. reflexivity. Qed.

Lemma count_fold_skips (cells : list (string * list eqclass)) (acc : list shard_line) :
  m_foldl (count_cell run_em features_index dumpEC barcodes) acc cells
  = m_foldl (count_cell run_em features_index dumpEC barcodes) acc
      (filter (λ c : string * list eqclass, is_Some (barcode_index barcodes c.1)) cells).
Proof.
  revert acc. induction cells as [|cell cells IH]; intros acc; [done|].
  rewrite filter_cons. destruct (decide (is_Some (barcode_index barcodes cell.1))) as [Hs|Hn].
  - cbn [m_foldl]. by apply m_bind_ext.
  - cbn [m_foldl]. unfold count_cell at 1.
    destruct (barcode_index barcodes cell.1) as [i|] eqn:Hi; [by destruct Hn|].
    rewrite m_bind_ok. apply IH.
Qed.

(** X10. The cells whose barcode is not a key of the barcodes of the shard
    are skipped before anything is computed: [run_count] gives the same, log
    and errors included, as on the cells of the shard alone, so that a cell
    of another shard cannot make this one fail. *)
Theorem run_count_skips (cells : list (string * list eqclass)) :
  run_count run_em cells features_index dumpEC barcodes
  = run_count run_em
      (filter (λ c : string * list eqclass, is_Some (barcode_index barcodes c.1)) cells)
      features_index dumpEC barcodes.
Proof. rewrite !run_count_fold. apply count_fold_skips. Qed.



Variable int_of_bytes : string → option Z.


End RunCountFacts.




(** The lines of the shard for the mappings file of the examples. *)
Example run_count_maps_example :
  run_count_maps run_em_even int_of_digits maps_lines repeats_index false
    [("CELLA"%string, 1); ("CELLB"%string, 2)]
  = ([], Ok [(1, 1, (1500 # 1000)%Q); (2, 1, (500 # 1000)%Q); (2, 2, (1000 # 1000)%Q)]).
Proof. vm_compute. reflexivity. Qed.
(** ** [split_barcodes] *)

Lemma read_chunk_ok (lines : list string) (chunk : list nat) (d : list (string * nat)) :
  length chunk ≤ length lines →
  NoDup (d.*1 ++ (strip <$> take (length chunk) lines)) →
  read_chunk lines chunk d
  = Some (d ++ zip_with (λ line x, (strip line, S x)) (take (length chunk) lines) chunk,
          drop (length chunk) lines).
Proof.
  revert lines d. induction chunk as [|x chunk IH]; intros lines d Hlen Hnd.
  - cbn [read_chunk length]. rewrite take_0, drop_0. cbn [zip_with]. by rewrite app_nil_r.
  - destruct lines as [|line lines]; [simpl in Hlen; lia|].
    cbn [read_chunk length take drop zip_with]. cbn [length take fmap list_fmap] in Hnd.
    assert (strip line ∉ d.*1) as Hfresh.
    { apply list.NoDup_app in Hnd as (_ & Hdisj & _). intros Hin.
      apply (Hdisj _ Hin). left. }
    rewrite dict_set_fresh by done. rewrite IH.
    + by rewrite <- app_assoc.
    + simpl in Hlen. lia.
    + rewrite fmap_app, <- app_assoc. exact Hnd.
Qed.

Lemma split_loop_ok (lines : list string) (chunks : list (nat * list nat)) :
  length (concat chunks.*2) ≤ length lines →
  NoDup (strip <$> lines) →
  ∃ out, split_loop lines chunks = (out, true)
         ∧ out.*1 = chunks.*1
         ∧ concat out.*2
           = zip_with (λ line x, (strip line, S x)) lines (concat chunks.*2).
Proof.
  revert lines. induction chunks as [|[i chunk] chunks IH]; intros lines Hlen Hnd.
  - exists []. cbn. by destruct lines.
  - rewrite fmap_cons in Hlen. cbn [snd concat] in Hlen. rewrite length_app in Hlen.
    rewrite <- (take_drop (length chunk) lines), fmap_app in Hnd.
    apply list.NoDup_app in Hnd as (Hnd1 & _ & Hnd2).
    cbn [split_loop]. rewrite read_chunk_ok; [|lia|done].
    destruct (IH (drop (length chunk) lines)) as (out & Heq & H1 & H2).
    { rewrite length_drop. lia. }
    { done. }
    rewrite Heq. cbn [fst snd]. eexists. split; [reflexivity|].
    rewrite !fmap_cons. cbn [fst snd concat]. split; [by rewrite H1|].
    rewrite H2, app_nil_l. symmetry. apply zip_with_app_r.
Qed.

Lemma zip_with_numbered (lines : list string) (k : nat) :
  zip_with (λ line x, (strip line, S x)) lines (seq k (length lines))
  = imap (λ i line, (strip line, S (k + i))) lines.
Proof.
  revert k. induction lines as [|line lines IH]; intros k; [done|].
  cbn [length seq zip_with]. rewrite imap_cons, Nat.add_0_r. f_equal.
  rewrite IH. apply imap_ext. intros i x _. simpl. do 2 f_equal. lia.
Qed.

Lemma enumerate_snd {A} (l : list A) : (enumerate l).*2 = l.
Proof.
  induction l as [|x l IH] using rev_ind; [done|].
  by rewrite enumerate_snoc, fmap_app, IH.
Qed.

Lemma enumerate_fst {A} (l : list A) : (enumerate l).*1 = seq 0 (length l).
Proof.
  induction l as [|x l IH] using rev_ind; [done|].
  by rewrite enumerate_snoc, fmap_app, IH, length_app, seq_app.
Qed.

(** X13. When the ranges that [get_ranges] yields, put end to end, are the
    line numbers from 0 in their order, and the barcodes of the file are
    distinct, [split_barcodes] ends without an error; its chunks are numbered
    from 0; every barcode is in one chunk, with the number of its line from 1
    as index; and the number of barcodes that [formatMM] writes in the header
    of the matrix is the number of lines of the barcodes file. *)
Theorem split_barcodes_numbering (get_ranges : nat → nat → list (list nat))
    (lines : list string) (n : nat) :
  concat (get_ranges (length lines) n) = seq 0 (length lines) →
  NoDup (strip <$> lines) →
  ∃ chunks,
    split_barcodes get_ranges lines n = (chunks, true)
    ∧ chunks.*1 = seq 0 (length (get_ranges (length lines) n))
    ∧ concat chunks.*2 = imap (λ i line, (strip line, S i)) lines
    ∧ ∀ matrix_files feature_index,
        (mmtotal (formatMM matrix_files feature_index chunks)).1.2 = length lines.
Proof.
  intros Hranges Hnd. unfold split_barcodes.
  set (ranges := get_ranges (length lines) n) in *.
  pose proof (enumerate_snd ranges) as Hsnd.
  pose proof (enumerate_fst ranges) as Hfst.
  destruct (split_loop_ok lines (enumerate ranges)) as (out & Heq & H1 & H2).
  { rewrite Hsnd, Hranges, length_seq. done. }
  { done. }
  exists out. split; [done|]. split; [by rewrite H1, Hfst|].
  assert (concat out.*2 = imap (λ i line, (strip line, S i)) lines) as Hcat.
  { rewrite H2, Hsnd, Hranges. apply (zip_with_numbered lines 0). }
  split; [done|]. intros matrix_files feature_index.
  unfold formatMM. cbn [mmtotal fst snd].
  transitivity (sum_list (length <$> out.*2)).
  { f_equal. by rewrite <- list_fmap_compose. }
  rewrite sum_list_length_concat, Hcat. apply length_imap.
Qed.

Lemma split_barcodes_numbering_witness :
  ∃ chunks,
    split_barcodes two_ranges barcode_lines 2 = (chunks, true)
    ∧ chunks.*1 = [0; 1]
    ∧ concat chunks.*2 = [("CELLA", 1); ("CELLB", 2); ("CELLC", 3)]%string.
Proof.
  assert (NoDup (strip <$> barcode_lines)) as Hnd.
  { apply (bool_decide_unpack (NoDup (strip <$> barcode_lines))). vm_compute. exact I. }
  destruct (split_barcodes_numbering two_ranges barcode_lines 2 eq_refl Hnd)
    as (chunks & Heq & H1 & H2 & _).
  exists chunks. split; [exact Heq|]. split; [exact H1|].
  rewrite H2. vm_compute. reflexivity.
Defined.

(** The chunks of the barcodes file of the examples. *)
Example split_barcodes_example :
  split_barcodes two_ranges barcode_lines 2
  = ([(0, [("CELLA", 1)]); (1, [("CELLB", 2); ("CELLC", 3)])]%string, true).
Proof. vm_compute. reflexivity. Qed.
(** ** The assembled dump *)

Lemma string_compare_trans (s1 s2 s3 : string) :
  String.compare s1 s2 ≠ Gt → String.compare s2 s3 ≠ Gt → String.compare s1 s3 ≠ Gt.
Proof.
  revert s2 s3. induction s1 as [|c1 s1 IH]; intros [|c2 s2] [|c3 s3]; simpl; try done.
  unfold Ascii.compare.
  destruct (N.compare_spec (N_of_ascii c1) (N_of_ascii c2)),
           (N.compare_spec (N_of_ascii c2) (N_of_ascii c3)),
           (N.compare_spec (N_of_ascii c1) (N_of_ascii c3));
    try done; try lia.
  apply IH.
Qed.

Lemma string_leb_trans (s1 s2 s3 : string) :
  String.leb s1 s2 = true → String.leb s2 s3 = true → String.leb s1 s3 = true.
Proof.
  unfold String.leb. intros H1 H2.
  pose proof (string_compare_trans s1 s2 s3) as H.
  destruct (String.compare s1 s2), (String.compare s2 s3), (String.compare s1 s3);
    try done; exfalso; by apply H.
Qed.

Lemma ec_leb_true (a b : ec_line) : ec_leb a b = true → ec_le a b.
Proof.
  unfold ec_leb, ec_le. destruct (decide (a.1 = b.1)) as [Heq|Hne].
  - intros H. by right.
  - intros H. apply bool_decide_eq_true in H. by left.
Qed.

Lemma ec_leb_false (a b : ec_line) : ec_leb a b = false → ec_le b a.
Proof.
  unfold ec_leb, ec_le. destruct (decide (a.1 = b.1)) as [Heq|Hne].
  - intros H. right. split; [done|].
    destruct (String.leb_total a.2 b.2) as [H'|H']; [congruence|done].
  - intros H. apply bool_decide_eq_false in H. left. lia.
Qed.

Lemma ec_le_trans (a b c : ec_line) : ec_le a b → ec_le b c → ec_le a c.
Proof.
  unfold ec_le. intros [H1|[H1 H1']] [H2|[H2 H2']]; [left; lia|left; lia|left; lia|].
  right. split; [congruence|]. by eapply string_leb_trans.
Qed.

Lemma ec_insert_perm (a : ec_line) (l : list ec_line) : ec_insert a l ≡ₚ a :: l.
Proof.
  induction l as [|b l IH]; simpl; [done|].
  destruct (ec_leb a b); [done|]. rewrite IH. apply Permutation_swap.
Qed.

Lemma ec_insert_sorted (a : ec_line) (l : list ec_line) :
  StronglySorted ec_le l → StronglySorted ec_le (ec_insert a l).
Proof.
  induction l as [|b l IH]; intros Hs; simpl.
  - by repeat constructor.
  - apply StronglySorted_inv in Hs as [Hs Hall].
    destruct (ec_leb a b) eqn:Hab.
    + apply ec_leb_true in Hab. constructor; [by constructor|].
      constructor; [done|].
      eapply list.Forall_impl; [exact Hall|]. intros c Hc. by eapply ec_le_trans.
    + apply ec_leb_false in Hab. constructor; [by apply IH|].
      rewrite ec_insert_perm. by constructor.
Qed.

(** X14. The body of the dump that [writeEC] assembles holds the lines of
    the dump files of the shards, each as often as the shards have it, sorted
    by the index of the barcode as a number and then by the bytes of the rest
    of the line: the record numbers of a cell are compared as text, not as
    numbers. *)
Theorem writeEC_sorted (ecdump_files : list (list ec_line)) :
  (writeEC ecdump_files).2 ≡ₚ concat ecdump_files
  ∧ StronglySorted ec_le (writeEC ecdump_files).2.
Proof.
  unfold writeEC. cbn [snd]. induction (concat ecdump_files) as [|a l [IH1 IH2]]; simpl.
  - split; [done|constructor].
  - split; [by rewrite ec_insert_perm, IH1|by apply ec_insert_sorted].
Qed.

(** Record 10 of a cell comes before its record 2. *)
Example writeEC_record_order :
  (writeEC [[(1, tabbed "" (tabbed "CELLA" "2")); (1, tabbed "" (tabbed "CELLA" "10"))];
            [(0, tabbed "" (tabbed "CELLB" "0"))]]).2
  = [(0, tabbed "" (tabbed "CELLB" "0"));
     (1, tabbed "" (tabbed "CELLA" "10"));
     (1, tabbed "" (tabbed "CELLA" "2"))].
Proof. vm_compute. reflexivity. Qed.
(** ** The counts of a cell add up to its molecules *)






(** ** What a walk puts on the path *)

Lemma anchor_loop_grown (rec : nat → list nat → res (list nat)) (g : DiGraph)
    (s : gset nat) (node : nat) :
  (∀ n path path', rec n path = Ok path' →
     ∃ new, path' = path ++ n :: new ∧ walk_grown g s n new) →
  ∀ succs path path',
    (∀ v, v ∈ succs → has_edge g node v) →
    anchor_loop rec g s succs path = Ok path' →
    ∃ new, path' = path ++ new ∧ walk_grown g s node new.
Proof.
  intros Hrec succs. induction succs as [|n succs IH]; intros path path' Hsuccs; simpl.
  - intros [= <-]. exists []. rewrite app_nil_r. split; [done|].
    intros x Hx. inversion Hx.
  - destruct (node_ft g n) as [ftn| |] eqn:Hftn; simpl; [|done|done].
    assert (∀ v, v ∈ succs → has_edge g node v) as Hsuccs'
      by (intros v Hv; apply Hsuccs; by right).
    case_bool_decide as Htest; [|by apply IH].
    destruct Htest as [_ Hmeet].
    destruct (rec n path) as [p1| |] eqn:Hp1; simpl; [|done|done].
    destruct (Hrec n path p1 Hp1) as (new1 & -> & Hg1).
    intros Hloop. destruct (IH _ _ Hsuccs' Hloop) as (new2 & -> & Hg2).
    exists ((n :: new1) ++ new2). rewrite <- app_assoc. split; [done|].
    intros x Hx. apply elem_of_app in Hx as [Hx|Hx].
    + apply elem_of_cons in Hx as [->|Hx].
      * split; [eauto|]. exists node. split; [by left|]. apply Hsuccs. left.
      * destruct (Hg1 x Hx) as [Hc (y & Hy & He)]. split; [done|].
        exists y. split; [|done]. right. apply elem_of_app. left.
        destruct Hy as [->|Hy]; [left|by right].
    + destruct (Hg2 x Hx) as [Hc (y & Hy & He)]. split; [done|].
      exists y. split; [|done]. destruct Hy as [->|Hy]; [by left|].
      right. apply elem_of_app. by right.
Qed.

Lemma anchored_walk_grown (fuel : nat) (g : DiGraph) (s : gset nat) :
  ∀ node path path', anchored_walk fuel g s node path = Ok path' →
    ∃ new, path' = path ++ node :: new ∧ walk_grown g s node new.
Proof.
  induction fuel as [|fuel IH]; intros node path path'; [done|]. simpl.
  unfold successors. destruct (g_lookup g node) as [e|] eqn:He; simpl; [|done].
  intros Hloop.
  destruct (anchor_loop_grown (anchored_walk fuel g s) g s node IH
              (n_succ e) (path ++ [node]) path') as (new & -> & Hg).
  - intros v Hv. by exists e.
  - done.
  - exists new. by rewrite <- app_assoc.
Qed.

(** X16. On a graph whose edges end in nodes that all carry features, as
    the subgraphs of a cell are, [pathfinder] from a node of the graph with
    an empty path returns, with any fuel that is at least the number of
    nodes; the path starts with the node and has no node twice; and every
    other node of the path is a node of the graph, has a feature in common
    with the starting node, and is a successor of a node of the path. *)
Theorem pathfinder_path (fuel : nat) (g : DiGraph) (node : nat) :
  wf_graph g → node ∈ nodes g → length g ≤ fuel →
  ∃ s new,
    node_ft g node = Ok s
    ∧ pathfinder fuel g node [] None = Ok (node :: new)
    ∧ NoDup (node :: new)
    ∧ ∀ x, x ∈ new →
        x ∈ nodes g
        ∧ (∃ ftn, node_ft g x = Ok ftn ∧ ftn ∩ s ≠ ∅)
        ∧ ∃ y, y ∈ node :: new ∧ has_edge g y x.
Proof.
  intros Hwf Hnode Hfuel.
  destruct fuel as [|fuel].
  { destruct g; [inversion Hnode|simpl in Hfuel; lia]. }
  destruct (wf_node_ft g node Hwf Hnode) as [s Hs].
  destruct (anchored_walk_ok (S fuel) g s Hwf node []) as (new & Hw & Hnd & Hin);
    [done | intros H; inversion H | by rewrite unvisited_nil |].
  exists s, new. split; [done|].
  rewrite pathfinder_unfold. unfold walk_anchor. cbn [not_features]. rewrite Hs.
  cbn [mbind res_mbind res_bind]. split; [exact Hw|]. split; [done|].
  destruct (anchored_walk_grown (S fuel) g s node [] _ Hw) as (new' & Heq & Hg).
  injection Heq as <-.
  intros x Hx. split; [apply Hin; by right|].
  destruct (Hg x Hx) as [Hc (y & Hy & He)]. split; [done|].
  exists y. split; [|done]. destruct Hy as [->|Hy]; [left|by right].
Qed.

Lemma pathfinder_path_witness :
  ∃ s new,
    node_ft chain_narrow 0 = Ok s
    ∧ pathfinder 3 chain_narrow 0 [] None = Ok (0 :: new)
    ∧ NoDup (0 :: new)
    ∧ ∀ x, x ∈ new →
        x ∈ nodes chain_narrow
        ∧ (∃ ftn, node_ft chain_narrow x = Ok ftn ∧ ftn ∩ s ≠ ∅)
        ∧ ∃ y, y ∈ 0 :: new ∧ has_edge chain_narrow y x.
Proof.
  apply (pathfinder_path 3 chain_narrow 0).
  - apply wf_build_graph.
  - vm_compute. left.
  - vm_compute. lia.
Defined.
(** ** The subgraphs of a cell are its connected components *)

Lemma nodes_build_graph (ecs : list eqclass) :
  nodes (build_graph ecs) = seq 0 (length ecs).
Proof.
  destruct (build_graph_spec 1 ecs) as [(Hn & _ & _) _]. unfold build_graph.
  by rewrite Hn, nodes_fresh_entries.
Qed.

Lemma nbr_linked (ecs : list eqclass) (i j : nat) :
  nbr (build_graph ecs) i j ↔ linked ecs i j.
Proof.
  pose proof (wf_build_graph 1 ecs) as Hwf.
  destruct (build_graph_spec 1 ecs) as [_ Hedge].
  fold (build_graph ecs) in Hwf, Hedge.
  assert (nbr (build_graph ecs) i j
          ↔ has_edge (build_graph ecs) i j ∨ has_edge (build_graph ecs) j i) as ->.
  { unfold nbr. rewrite elem_of_neighbors. unfold has_edge. split.
    - intros [H|(e & Hin & Hi)]; [by left|]. right. exists e. split; [|done].
      apply elem_g_lookup; [apply Hwf|done].
    - intros [H|(e & He & Hi)]; [by left|]. right. exists e. split; [|done].
      by apply g_lookup_elem. }
  rewrite !Hedge. unfold linked. split.
  - intros [(x & y & Hne & Hx & Hy & Hc)|(y & x & Hne & Hy & Hx & Hc)].
    + split; [done|]. exists x, y. auto.
    + split; [done|]. exists x, y. auto.
  - intros (Hne & x & y & Hx & Hy & [Hc|Hc]).
    + left. by exists x, y.
    + right. by exists y, x.
Qed.

Lemma rtc_nbr_linked (ecs : list eqclass) (i j : nat) :
  rtc (nbr (build_graph ecs)) i j ↔ rtc (linked ecs) i j.
Proof.
  split; apply rtc_subrel; intros x y; by rewrite nbr_linked.
Qed.

(** X17. The subgraphs that [compute_cell_counts] deduplicates one by one
    are the connected components of the cell: every equivalence class is a
    node of exactly one subgraph, and two classes are in the same subgraph
    exactly when a chain of classes joins them in which each class connects
    to the next or the next to it. *)
Theorem subgraphs_components (ecs : list eqclass) :
  concat (nodes <$> subgraphs (build_graph ecs)) ≡ₚ seq 0 (length ecs)
  ∧ ∀ subg i j, subg ∈ subgraphs (build_graph ecs) → i ∈ nodes subg →
      (j ∈ nodes subg ↔ rtc (linked ecs) i j).
Proof.
  pose proof (wf_build_graph 1 ecs) as Hwf. fold (build_graph ecs) in Hwf.
  split.
  - rewrite <- nodes_build_graph. by apply subgraphs_partition.
  - intros subg i j Hsubg Hi. rewrite <- rtc_nbr_linked.
    unfold subgraphs in Hsubg. apply list_elem_of_fmap in Hsubg as (c & -> & Hc).
    destruct (connected_components_partition _ Hwf) as [_ Hcomp].
    destruct (Hcomp c Hc) as (v & Hv & ->).
    rewrite nodes_subgraph, elem_of_filter_atlas in Hi. destruct Hi as [Hi Hvi].
    rewrite nodes_subgraph, elem_of_filter_atlas.
    apply elem_of_component in Hvi; [|done|done].
    split.
    + intros [Hj Hvj]. apply elem_of_component in Hvj; [|done|done].
      etrans; [|exact Hvj]. by apply rtc_nbr_sym.
    + intros Hij.
      assert (j ∈ component (build_graph ecs) v) as Hvj.
      { apply elem_of_component; [done|done|]. by etrans. }
      split; [|done]. by eapply component_nodes.
Qed.

(** The two classes of the example connect: whatever the subgraph of the
    first, the second is a node of it. *)
Example subgraphs_components_example :
  ∀ subg, subg ∈ subgraphs (build_graph cell_example) → 0 ∈ nodes subg → 1 ∈ nodes subg.
Proof.
  intros subg Hsubg H0.
  apply (proj2 (subgraphs_components cell_example) subg 0 1 Hsubg H0).
  apply rtc_once. split; [done|]. exists ec_AAAAA, ec_AAAAT.
  split; [reflexivity|]. split; [reflexivity|]. left. vm_compute. reflexivity.
Qed.
(** ** The dump file of a shard *)








Section RunCountDumpFacts.

Variable run_em : list (list nat) → nat → list Q.
Variable features_index : list (string * nat).
Variable barcodes : list (string * nat).



End RunCountDumpFacts.


